(** * NovaTune: pitch detection, scale mapping and soft clipping

    A shallow embedding of the signal-processing core of the NovaTune
    plugin (PitchDetector.cpp, PitchMapper.cpp, HarmonyVoice.cpp,
    LeadCorrection.cpp, PitchShifter.cpp, FormantProcessor.cpp,
    TunerEngine.cpp, Utilities.h, ParameterIDs.h, DSPConfig.h), the
    properties of its specification, and further properties of the code.

    Conventions.
    - A C++ [float] is an IEEE-754 binary32 value, a [double] a binary64
      value: both are [spec_float] with the operations of the Standard
      Library's [SpecFloat] at precision 24 / 53 (round to nearest, ties
      to even, gradual underflow).  A [spec_float] is a float of the
      format when it is [valid].
    - A C++ [int] is a [Z]; [%] and [/] are the truncating [Z.rem] and
      [Z.quot].  The integers of the code are note numbers, lags and
      indices, far from the limits of [int].  Conversions from floating
      point to [int] are partial (out of range, infinities and NaN have
      no defined result).
    - A [std::vector] is a list, read with stdpp's lookup and written with
      stdpp's insert.
    - A loop with a counter is [for_loop]; a [while] loop whose number of
      iterations is not bounded by its text takes fuel and returns an
      option.
    - The functions of the C math library that have no closed form in
      binary arithmetic ([pow], [log2], [sin], [tanh]) are the fields of a
      class [Libm].
    - An object is a record of the fields the modelled functions read or
      write; a method takes the record and returns the new one. *)

From stdpp Require Import base list.
From Stdlib Require Import ZArith Lia.
From Stdlib Require Import Floats.SpecFloat.

Open Scope Z_scope.

(** ** IEEE-754 binary32 and binary64 *)

Abbreviation f32 := spec_float (only parsing).
Abbreviation f64 := spec_float (only parsing).

Module Float32.

Definition prec : Z := 24.
Definition emax : Z := 128.

Definition fadd : f32 -> f32 -> f32 := SFadd prec emax.
Definition fsub : f32 -> f32 -> f32 := SFsub prec emax.
Definition fmul : f32 -> f32 -> f32 := SFmul prec emax.
Definition fdiv : f32 -> f32 -> f32 := SFdiv prec emax.
Definition fsqrt : f32 -> f32 := SFsqrt prec emax.
Definition fabs : f32 -> f32 := SFabs.
Definition fneg : f32 -> f32 := SFopp.

(** [a < b], [a <= b], [a > b], [a >= b], [a == b]: all false on NaN. *)
Definition flt (a b : f32) : bool := SFltb a b.
Definition fle (a b : f32) : bool := SFleb a b.
Definition fgt (a b : f32) : bool := SFltb b a.
Definition fge (a b : f32) : bool := SFleb b a.
Definition feq (a b : f32) : bool := SFeqb a b.

Definition is_nan (x : f32) : bool :=
  match x with S754_nan => true | _ => false end.

Definition valid (x : f32) : bool := valid_binary prec emax x.

(** [static_cast<float>(n)] for an [int] n. *)
Definition of_int (n : Z) : f32 := binary_normalize prec emax n 0 false.

(** The literal [n/d f] for integers that binary32 holds exactly: the
    correctly rounded quotient is the float nearest to the decimal. *)
Definition ratio (n d : Z) : f32 := fdiv (of_int n) (of_int d).

Definition zero : f32 := S754_zero false.
Definition one : f32 := Eval vm_compute in of_int 1.
Definition two : f32 := Eval vm_compute in of_int 2.
Definition half : f32 := Eval vm_compute in ratio 1 2.

(** [std::clamp(v, lo, hi)]. *)
Definition fclamp (v lo hi : f32) : f32 :=
  if flt v lo then lo else if flt hi v then hi else v.

(** [std::round]: to the nearest integer, halfway cases away from zero;
    the sign of the argument is kept, so [round(-0.3f)] is [-0.0f]. *)
Definition fround (x : f32) : f32 :=
  match x with
  | S754_finite s m e =>
      if 0 <=? e then x
      else
        let q := Z.shiftl (Zpos m) e in
        let mag := if Z.testbit (Zpos m) (- e - 1) then q + 1 else q in
        if mag =? 0 then S754_zero s
        else binary_normalize prec emax (cond_Zopp s mag) 0 false
  | _ => x
  end.

Definition int_min : Z := - 2 ^ 31.
Definition int_max : Z := 2 ^ 31 - 1.

(** [static_cast<int>(x)]: truncation toward zero, undefined (here
    [None]) for NaN, the infinities and values outside [int]. *)
Definition to_int (x : f32) : option Z :=
  match x with
  | S754_zero _ => Some 0
  | S754_finite s m e =>
      let n := cond_Zopp s (Z.shiftl (Zpos m) e) in
      if (int_min <=? n) && (n <=? int_max) then Some n else None
  | _ => None
  end.

(** Zero or a finite number: neither an infinity nor a NaN. *)
Definition is_finite (x : f32) : bool :=
  match x with
  | S754_zero _ | S754_finite _ _ _ => true
  | _ => false
  end.

End Float32.

Module Float64.

Definition prec : Z := 53.
Definition emax : Z := 1024.

Definition ddiv : f64 -> f64 -> f64 := SFdiv prec emax.
Definition dmul : f64 -> f64 -> f64 := SFmul prec emax.

Definition of_int (n : Z) : f64 := binary_normalize prec emax n 0 false.

(** The literal [n/d] of type [double]. *)
Definition ratio (n d : Z) : f64 := ddiv (of_int n) (of_int d).

(** Promotion of a [float] to [double]: every binary32 value is a
    binary64 value, only the canonical mantissa is wider. *)
Definition of_f32 (x : f32) : f64 :=
  match x with
  | S754_finite s m e => binary_normalize prec emax (cond_Zopp s (Zpos m)) e s
  | _ => x
  end.

(** [static_cast<int>(x)] for a [double]. *)
Definition to_int (x : f64) : option Z := Float32.to_int x.

(** [static_cast<float>(x)] for a [double]: rounding to binary32. *)
Definition to_f32 (x : f64) : f32 :=
  match x with
  | S754_finite s m e =>
      binary_normalize Float32.prec Float32.emax (cond_Zopp s (Zpos m)) e s
  | _ => x
  end.

End Float64.

Import Float32.

(** ** DSPConfig.h *)

Module DSPConfig.

Definition maxHarmonyVoices : Z := 3.

Definition yinThreshold : f32 := Eval vm_compute in ratio 15 100.
Definition pitchDetectionFrameSize : Z := 2048.
Definition pitchDetectionHopSize : Z := 256.

Definition sopranoMinHz : f32 := Eval vm_compute in of_int 220.
Definition sopranoMaxHz : f32 := Eval vm_compute in of_int 1200.
Definition altoTenorMinHz : f32 := Eval vm_compute in of_int 110.
Definition altoTenorMaxHz : f32 := Eval vm_compute in of_int 750.
Definition lowMaleMinHz : f32 := Eval vm_compute in of_int 65.
Definition lowMaleMaxHz : f32 := Eval vm_compute in of_int 450.
Definition instrumentMinHz : f32 := Eval vm_compute in of_int 50.
Definition instrumentMaxHz : f32 := Eval vm_compute in of_int 2000.

Definition maxPitchShiftRatio : f32 := two.
Definition minPitchShiftRatio : f32 := half.

Definition concertPitchHz : f32 := Eval vm_compute in of_int 440.
Definition midiNoteA4 : Z := 69.

Definition ringBufferSize : Z := 8192.

End DSPConfig.

(** ** ParameterIDs.h: the enumerations *)

Module NovaTuneEnums.

Inductive Key :=
| C | Cs | D | Ds | E | F | Fs | G | Gs | A | As | B | numKeys.

(** The underlying value of the enumerator, which
    [PitchMapper::updateFromParameters] stores as [keyRootNote]. *)
Definition keyIndex (k : Key) : Z :=
  match k with
  | C => 0 | Cs => 1 | D => 2 | Ds => 3 | E => 4 | F => 5 | Fs => 6
  | G => 7 | Gs => 8 | A => 9 | As => 10 | B => 11 | numKeys => 12
  end.

Inductive Scale :=
| Major | NaturalMinor | HarmonicMinor | MelodicMinor | Chromatic
| numScales.

Definition Scale_eqb (a b : Scale) : bool :=
  match a, b with
  | Major, Major | NaturalMinor, NaturalMinor
  | HarmonicMinor, HarmonicMinor | MelodicMinor, MelodicMinor
  | Chromatic, Chromatic | numScales, numScales => true
  | _, _ => false
  end.

Definition major : list Z := [0; 2; 4; 5; 7; 9; 11].
Definition naturalMinor : list Z := [0; 2; 3; 5; 7; 8; 10].
Definition harmonicMinor : list Z := [0; 2; 3; 5; 7; 8; 11].
Definition melodicMinor : list Z := [0; 2; 3; 5; 7; 9; 11].
Definition chromatic : list Z := [0; 1; 2; 3; 4; 5; 6; 7; 8; 9; 10; 11].

Definition getScaleIntervals (scale : Scale) : list Z :=
  match scale with
  | Major => major
  | NaturalMinor => naturalMinor
  | HarmonicMinor => harmonicMinor
  | MelodicMinor => melodicMinor
  | Chromatic => chromatic
  | numScales => chromatic
  end.

Inductive InputType :=
| Soprano | AltoTenor | LowMale | Instrument | numInputTypes.

Inductive HarmonyMode := Diatonic | Semitone | numHarmonyModes.

(** Interval index 0..14 to scale degrees -7..+7; index 7 is unison. *)
Definition diatonicIndexToScaleDegree (index : Z) : Z := index - 7.

End NovaTuneEnums.

Import NovaTuneEnums.

(** Reading [v[i]] where the code keeps [i] inside the vector. *)
Definition vec_at (v : list Z) (i : Z) : Z := default 0 (v !! Z.to_nat i).

(** ** The C math library *)

Class Libm := {
  powf : f32 -> f32 -> f32;
  log2f : f32 -> f32;
  sinf : f32 -> f32;
  tanhf : f32 -> f32
}.

(** ** Utilities.h *)

Module NovaTuneUtils.

Definition frequencyToMidiNote `{Libm} (frequencyHz : f32) : f32 :=
  if fle frequencyHz zero then zero
  else fadd (of_int DSPConfig.midiNoteA4)
            (fmul (of_int 12) (log2f (fdiv frequencyHz DSPConfig.concertPitchHz))).

Definition midiNoteToFrequency `{Libm} (midiNote : f32) : f32 :=
  fmul DSPConfig.concertPitchHz
       (powf two (fdiv (fsub midiNote (of_int DSPConfig.midiNoteA4)) (of_int 12))).

Definition getPitchRatio `{Libm} (targetMidi sourceMidi : f32) : f32 :=
  powf two (fdiv (fsub targetMidi sourceMidi) (of_int 12)).

Definition centsToRatio `{Libm} (cents : f32) : f32 :=
  powf two (fdiv cents (of_int 1200)).

(** The interval in semitones of a diatonic scale degree, counted from
    the root of the scale. *)
Definition diatonicToSemitones (scaleDegree : Z) (scaleIntervals : list Z) : Z :=
  let numNotesInScale := Z.of_nat (length scaleIntervals) in
  if scaleDegree =? 0 then 0
  else if scaleDegree <? 0 then
    let octavesDown := Z.quot (- scaleDegree) numNotesInScale in
    let remainingDegrees := Z.rem (- scaleDegree) numNotesInScale in
    if remainingDegrees =? 0 then - 12 * octavesDown
    else
      let indexFromTop := numNotesInScale - remainingDegrees in
      - (12 * (octavesDown + 1)) + vec_at scaleIntervals indexFromTop
  else
    let octavesUp := Z.quot scaleDegree numNotesInScale in
    let remainingDegrees := Z.rem scaleDegree numNotesInScale in
    12 * octavesUp + vec_at scaleIntervals remainingDegrees.

Definition smoothValue (current target coeff : f32) : f32 :=
  fadd current (fmul coeff (fsub target coeff)).

Definition lerp (a b t : f32) : f32 := fadd a (fmul t (fsub b a)).

Definition semitonesToRatio `{Libm} (semitones : f32) : f32 :=
  powf two (fdiv semitones (of_int 12)).

(** The quantiser of the utilities: like the one of [PitchMapper], on an
    explicit root and interval table, without its two shortcuts. *)
Definition quantizeToScale (midiNote : f32) (keyRoot : Z) (scaleIntervals : list Z)
    : option f32 :=
  roundedNote ← to_int (fround midiNote);
  let absolutePitchClass := Z.rem roundedNote 12 in
  let absolutePitchClass :=
    if absolutePitchClass <? 0 then absolutePitchClass + 12 else absolutePitchClass in
  let relativePitchClass := Z.rem (absolutePitchClass - keyRoot + 12) 12 in
  let nearest :=
    fold_left
      (fun (acc : Z * Z) interval =>
         let distance := Z.abs (relativePitchClass - interval) in
         let distance := Z.min distance (12 - distance) in
         if distance <? acc.2 then (interval, distance) else acc)
      scaleIntervals (0, 12) in
  let nearestScaleInterval := nearest.1 in
  let targetPitchClass := Z.rem (keyRoot + nearestScaleInterval) 12 in
  let currentPitchClass := Z.rem roundedNote 12 in
  let currentPitchClass :=
    if currentPitchClass <? 0 then currentPitchClass + 12 else currentPitchClass in
  let diff := targetPitchClass - currentPitchClass in
  let diff := if 6 <? diff then diff - 12 else diff in
  let diff := if diff <? -6 then diff + 12 else diff in
  Some (of_int (roundedNote + diff)).

(** [index & (bufferSize - 1)], on two's complement integers. *)
Definition wrapIndex (index bufferSize : Z) : Z := Z.land index (bufferSize - 1).

End NovaTuneUtils.

(** ** Loops and vectors of samples *)

(** [for (i = lo; i < hi; ++i) s = body i s]. *)
Fixpoint for_range {S : Type} (n : nat) (i : Z) (body : Z -> S -> S) (s : S) : S :=
  match n with
  | O => s
  | Datatypes.S n' => for_range n' (i + 1) body (body i s)
  end.

Definition for_loop {S : Type} (lo hi : Z) (body : Z -> S -> S) (s : S) : S :=
  for_range (Z.to_nat (hi - lo)) lo body s.

(** [v[i]] and [v[i] = x] on a vector of samples.  The code never indexes
    outside its buffers on the inputs considered below; outside, the read
    gives [0.0f] and the store does nothing. *)
Definition rd (v : list f32) (i : Z) : f32 :=
  if i <? 0 then zero else default zero (v !! Z.to_nat i).

Definition wr (v : list f32) (i : Z) (x : f32) : list f32 :=
  if i <? 0 then v else <[Z.to_nat i := x]> v.

(** ** PitchDetector.cpp: the YIN estimator *)

Module PitchDetector.

Record t := {
  sampleRate : f64;
  frameSize : Z;
  hopSize : Z;
  inputType : InputType;
  minFreqHz : f32;
  maxFreqHz : f32;
  yinBuffer : list f32;
  detectedFrequencyHz : f32;
  detectedMidiNote : f32;
  detectedPeriod : f32;
  voiced : bool;
  confidence : f32
}.

Definition getFrequencyHz (d : t) : f32 := detectedFrequencyHz d.
Definition getMidiNote (d : t) : f32 := detectedMidiNote d.
Definition isVoiced (d : t) : bool := voiced d.
Definition getConfidence (d : t) : f32 := confidence d.

Definition set_yinBuffer (d : t) (yb : list f32) : t :=
  {| sampleRate := sampleRate d; frameSize := frameSize d; hopSize := hopSize d;
     inputType := inputType d; minFreqHz := minFreqHz d; maxFreqHz := maxFreqHz d;
     yinBuffer := yb;
     detectedFrequencyHz := detectedFrequencyHz d;
     detectedMidiNote := detectedMidiNote d;
     detectedPeriod := detectedPeriod d;
     voiced := voiced d; confidence := confidence d |}.

Definition set_range (d : t) (ty : InputType) (lo hi : f32) : t :=
  {| sampleRate := sampleRate d; frameSize := frameSize d; hopSize := hopSize d;
     inputType := ty; minFreqHz := lo; maxFreqHz := hi;
     yinBuffer := yinBuffer d;
     detectedFrequencyHz := detectedFrequencyHz d;
     detectedMidiNote := detectedMidiNote d;
     detectedPeriod := detectedPeriod d;
     voiced := voiced d; confidence := confidence d |}.

Definition set_detection (d : t) (freq midi period : f32) (v : bool) (conf : f32) : t :=
  {| sampleRate := sampleRate d; frameSize := frameSize d; hopSize := hopSize d;
     inputType := inputType d; minFreqHz := minFreqHz d; maxFreqHz := maxFreqHz d;
     yinBuffer := yinBuffer d;
     detectedFrequencyHz := freq;
     detectedMidiNote := midi;
     detectedPeriod := period;
     voiced := v; confidence := conf |}.

Definition updateFrequencyRange (d : t) : t :=
  match inputType d with
  | Soprano => set_range d Soprano DSPConfig.sopranoMinHz DSPConfig.sopranoMaxHz
  | AltoTenor => set_range d AltoTenor DSPConfig.altoTenorMinHz DSPConfig.altoTenorMaxHz
  | LowMale => set_range d LowMale DSPConfig.lowMaleMinHz DSPConfig.lowMaleMaxHz
  | ty => set_range d ty DSPConfig.instrumentMinHz DSPConfig.instrumentMaxHz
  end.

Definition setInputType (d : t) (ty : InputType) : t :=
  updateFrequencyRange (set_range d ty (minFreqHz d) (maxFreqHz d)).

(** The detector as constructed: the defaults of the class and a YIN
    buffer of half the default frame. *)
Definition init : t :=
  {| sampleRate := Float64.of_int 44100;
     frameSize := DSPConfig.pitchDetectionFrameSize;
     hopSize := DSPConfig.pitchDetectionHopSize;
     inputType := AltoTenor;
     minFreqHz := DSPConfig.altoTenorMinHz; maxFreqHz := DSPConfig.altoTenorMaxHz;
     yinBuffer := replicate (Z.to_nat (Z.quot DSPConfig.pitchDetectionFrameSize 2)) zero;
     detectedFrequencyHz := zero; detectedMidiNote := zero; detectedPeriod := zero;
     voiced := false; confidence := zero |}.

Definition reset (d : t) : t := set_detection d zero zero zero false zero.

(** [juce::nextPowerOfTwo], of the JUCE library: the least power of two
    not below [n], by smearing the bits of [n - 1]. *)
Definition nextPowerOfTwo (n : Z) : Z :=
  let n := n - 1 in
  let n := Z.lor n (Z.shiftr n 1) in
  let n := Z.lor n (Z.shiftr n 2) in
  let n := Z.lor n (Z.shiftr n 4) in
  let n := Z.lor n (Z.shiftr n 8) in
  let n := Z.lor n (Z.shiftr n 16) in
  n + 1.

(** [v.resize(n)]: the first [n] elements, filled up with [0.0f]. *)
Definition resize (v : list f32) (n : Z) : list f32 :=
  take (Z.to_nat n) v ++ replicate (Z.to_nat n - length v) zero.

(** [prepare]: a frame of about 46 ms, rounded up to a power of two and
    capped at 4096 samples, a hop of an eighth of it and a YIN buffer of
    half of it; then [updateFrequencyRange] and [reset]. *)
Definition prepare (d : t) (sr : f64) : option t :=
  frame ← Float64.to_int (Float64.dmul (Float64.ratio 46 1000) sr);
  let frame := Z.min (nextPowerOfTwo frame) 4096 in
  Some (reset (updateFrequencyRange
    {| sampleRate := sr; frameSize := frame; hopSize := Z.quot frame 8;
       inputType := inputType d; minFreqHz := minFreqHz d; maxFreqHz := maxFreqHz d;
       yinBuffer := resize (yinBuffer d) (Z.quot frame 2);
       detectedFrequencyHz := detectedFrequencyHz d;
       detectedMidiNote := detectedMidiNote d;
       detectedPeriod := detectedPeriod d;
       voiced := voiced d; confidence := confidence d |})).

(** The inner loop of [computeDifferenceFunction] for one lag. *)
Definition differenceSum (input : list f32) (yinSize tau : Z) : f32 :=
  for_loop 0 yinSize
    (fun j sum =>
       let diff := fsub (rd input j) (rd input (j + tau)) in
       fadd sum (fmul diff diff))
    zero.

Definition computeDifferenceFunction (input : list f32) (numSamples : Z)
    (yb : list f32) : list f32 :=
  let yinSize := Z.quot numSamples 2 in
  let yb := wr yb 0 zero in
  for_loop 1 yinSize
    (fun tau yb => wr yb tau (differenceSum input yinSize tau))
    yb.

(** The three statements of the loop body of
    [computeCumulativeMeanNormalizedDifference], on the pair of the
    buffer and the running [cumulativeSum], in program order. *)
Definition cmnd_accumulate (tau : Z) (st : list f32 * f32) : list f32 * f32 :=
  (st.1, fadd st.2 (rd st.1 tau)).

Definition cmnd_scale (tau : Z) (st : list f32 * f32) : list f32 * f32 :=
  (wr st.1 tau (fmul (rd st.1 tau) (fdiv (of_int tau) st.2)), st.2).

Definition cmnd_guard (tau : Z) (st : list f32 * f32) : list f32 * f32 :=
  if fgt st.2 zero then st else (wr st.1 tau one, st.2).

Definition cmnd_body (tau : Z) (st : list f32 * f32) : list f32 * f32 :=
  cmnd_guard tau (cmnd_scale tau (cmnd_accumulate tau st)).

Definition computeCumulativeMeanNormalizedDifference (yb : list f32) : list f32 :=
  let yb := wr yb 0 one in
  (for_loop 1 (Z.of_nat (length yb)) cmnd_body (yb, zero)).1.

(** The validated search bounds of [absoluteThreshold]:
    [minTau = max(2, int(sampleRate / maxFreqHz))] and
    [maxTau = min(int(sampleRate / minFreqHz), size - 1)]. *)
Definition tauBounds (d : t) : option (Z * Z) :=
  minTau ← Float64.to_int (Float64.ddiv (sampleRate d) (Float64.of_f32 (maxFreqHz d)));
  maxTau ← Float64.to_int (Float64.ddiv (sampleRate d) (Float64.of_f32 (minFreqHz d)));
  Some (Z.max 2 minTau, Z.min maxTau (Z.of_nat (length (yinBuffer d)) - 1)).

(** [while (tau + 1 < maxTau && yin[tau + 1] < yin[tau]) ++tau;] *)
Fixpoint descend (n : nat) (yb : list f32) (maxTau tau : Z) : Z :=
  match n with
  | O => tau
  | S n' =>
      if (tau + 1 <? maxTau) && flt (rd yb (tau + 1)) (rd yb tau)
      then descend n' yb maxTau (tau + 1)
      else tau
  end.

(** The threshold scan [while (tau < maxTau) ...]: the lag returned from
    inside the loop, or [None] when the loop runs to [maxTau]. *)
Fixpoint firstDip (n : nat) (yb : list f32) (maxTau tau : Z) : option Z :=
  match n with
  | O => None
  | S n' =>
      if flt (rd yb tau) DSPConfig.yinThreshold
      then Some (descend n' yb maxTau tau)
      else firstDip n' yb maxTau (tau + 1)
  end.

(** The fallback scan for the global minimum. *)
Definition globalMinimum (yb : list f32) (minTau maxTau : Z) : f32 * Z :=
  for_loop (minTau + 1) maxTau
    (fun t acc => if flt (rd yb t) acc.1 then (rd yb t, t) else acc)
    (rd yb minTau, minTau).

Definition absoluteThreshold (d : t) : option f32 :=
  '(minTau, maxTau) ← tauBounds d;
  match firstDip (Z.to_nat (maxTau - minTau)) (yinBuffer d) maxTau minTau with
  | Some tau => Some (of_int tau)
  | None =>
      let '(minValue, minIndex) := globalMinimum (yinBuffer d) minTau maxTau in
      if flt minValue half then Some (of_int minIndex) else Some zero
  end.

Definition tiny : f32 := Eval vm_compute in ratio 1 (10 ^ 10).

Definition parabolicInterpolation (d : t) (tauEstimate : Z) : f32 :=
  if (tauEstimate <? 1) || (Z.of_nat (length (yinBuffer d)) - 1 <=? tauEstimate)
  then of_int tauEstimate
  else
    let y0 := rd (yinBuffer d) (tauEstimate - 1) in
    let y1 := rd (yinBuffer d) tauEstimate in
    let y2 := rd (yinBuffer d) (tauEstimate + 1) in
    let denominator := fmul two (fadd (fsub y0 (fmul two y1)) y2) in
    if flt (fabs denominator) tiny then of_int tauEstimate
    else fadd (of_int tauEstimate) (fdiv (fsub y0 y2) denominator).

Definition periodToFrequency (d : t) (periodSamples : f32) : f32 :=
  if fle periodSamples zero then zero
  else fdiv (Float64.to_f32 (sampleRate d)) periodSamples.

(** Step 4 of [process]: the YIN analysis of one frame and the update
    of the detection results.  [None] stands for a conversion to [int]
    that the language leaves undefined. *)
Definition analyse `{Libm} (d : t) (frame : list f32) : option t :=
  let d := set_yinBuffer d (computeDifferenceFunction frame (frameSize d) (yinBuffer d)) in
  let d := set_yinBuffer d (computeCumulativeMeanNormalizedDifference (yinBuffer d)) in
  rawPeriod ← absoluteThreshold d;
  if fgt rawPeriod zero then
    tauInt ← to_int rawPeriod;
    let period := parabolicInterpolation d tauInt in
    let freq := periodToFrequency d period in
    if fge freq (minFreqHz d) && fle freq (maxFreqHz d) then
      let midi := NovaTuneUtils.frequencyToMidiNote freq in
      let conf :=
        if tauInt <? Z.of_nat (length (yinBuffer d))
        then fclamp (fsub one (rd (yinBuffer d) tauInt)) zero one
        else confidence d in
      Some (set_detection d freq midi period true conf)
    else
      Some (set_detection d freq (detectedMidiNote d) period false zero)
  else
    Some (set_detection d zero zero zero false zero).

(** The input side of the detector: the ring buffer that accumulates the
    mono signal, its write position and the countdown to the next
    analysis. *)
Record input := {
  inputRingBuffer : list f32;
  ringBufferWritePos : Z;
  samplesUntilNextAnalysis : Z
}.

(** The constructor and [reset] on the input side. *)
Definition initInput : input :=
  {| inputRingBuffer := replicate (Z.to_nat DSPConfig.ringBufferSize) zero;
     ringBufferWritePos := 0; samplesUntilNextAnalysis := 0 |}.

Definition resetInput (r : input) : input :=
  {| inputRingBuffer := replicate (length (inputRingBuffer r)) zero;
     ringBufferWritePos := 0; samplesUntilNextAnalysis := 0 |}.

(** The input side of [prepare]: a ring of at least two frames, a power
    of two, then [reset]. *)
Definition prepareInput (frameSize : Z) (r : input) : input :=
  let ringSize := nextPowerOfTwo (Z.max DSPConfig.ringBufferSize (frameSize * 2)) in
  resetInput
    {| inputRingBuffer := resize (inputRingBuffer r) ringSize;
       ringBufferWritePos := ringBufferWritePos r;
       samplesUntilNextAnalysis := samplesUntilNextAnalysis r |}.

(** Step 1 of [process]: the first channel, plus the other channels,
    divided by the number of channels when there are several. *)
Definition downmix (buffer : list (list f32)) (numSamples : Z) : list f32 :=
  let numChannels := Z.of_nat (length buffer) in
  let channel ch := default [] (buffer !! Z.to_nat ch) in
  let mono :=
    for_loop 0 numSamples (fun i mono => wr mono i (rd (channel 0) i))
      (replicate (Z.to_nat numSamples) zero) in
  let mono :=
    for_loop 1 numChannels
      (fun ch mono =>
         for_loop 0 numSamples
           (fun i mono => wr mono i (fadd (rd mono i) (rd (channel ch) i))) mono)
      mono in
  if 1 <? numChannels then
    let invChannels := fdiv one (of_int numChannels) in
    for_loop 0 numSamples (fun i mono => wr mono i (fmul (rd mono i) invChannels)) mono
  else mono.

(** Step 2 for one sample: the store into the ring and the advance of
    the write position, on the pair of the ring and the position. *)
Definition ringWrite (st : list f32 * Z) (x : f32) : list f32 * Z :=
  (wr st.1 st.2 x, Z.rem (st.2 + 1) (Z.of_nat (length st.1))).

(** Step 3: the frame of the [frameSize] samples before the write
    position. *)
Definition extractFrame (ring : list f32) (writePos frameSize : Z) : list f32 :=
  let ringSize := Z.of_nat (length ring) in
  let readPos := Z.rem (writePos - frameSize + ringSize) ringSize in
  for_loop 0 frameSize
    (fun j frame => wr frame j (rd ring (Z.rem (readPos + j) ringSize)))
    (replicate (Z.to_nat frameSize) zero).

(** The body of the sample loop of [process]. *)
Definition processSample `{Libm} (x : f32) (st : option (t * input))
    : option (t * input) :=
  '(d, r) ← st;
  let '(ring, pos) := ringWrite (inputRingBuffer r, ringBufferWritePos r) x in
  let countdown := samplesUntilNextAnalysis r - 1 in
  if countdown <=? 0 then
    d' ← analyse d (extractFrame ring pos (frameSize d));
    Some (d', {| inputRingBuffer := ring; ringBufferWritePos := pos;
                 samplesUntilNextAnalysis := hopSize d |})
  else
    Some (d, {| inputRingBuffer := ring; ringBufferWritePos := pos;
                samplesUntilNextAnalysis := countdown |}).

(** [process] on a block of [numSamples] samples per channel. *)
Definition process `{Libm} (d : t) (r : input) (buffer : list (list f32))
    (numSamples : Z) : option (t * input) :=
  if numSamples =? 0 then Some (d, r)
  else
    let mono := downmix buffer numSamples in
    for_loop 0 numSamples (fun i st => processSample (rd mono i) st) (Some (d, r)).

End PitchDetector.

(** ** PitchMapper.cpp: scale quantisation and harmony targets *)

Module PitchMapper.

Record PitchMappingResult := {
  detectedMidiNote : f32;
  detectedFrequencyHz : f32;
  isVoiced : bool;
  leadTargetMidiNote : f32;
  leadTargetFrequencyHz : f32;
  centsOffTarget : f32;
  harmonyTargetMidiNotes : list f32
}.

Definition emptyResult : PitchMappingResult :=
  {| detectedMidiNote := zero; detectedFrequencyHz := zero; isVoiced := false;
     leadTargetMidiNote := zero; leadTargetFrequencyHz := zero;
     centsOffTarget := zero;
     harmonyTargetMidiNotes := [zero; zero; zero] |}.

Record HarmonySettings := {
  enabled : bool;
  mode : HarmonyMode;
  diatonicIntervalIndex : Z;
  semitoneOffset : Z
}.

Definition defaultSettings : HarmonySettings :=
  {| enabled := false; mode := Diatonic; diatonicIntervalIndex := 7;
     semitoneOffset := 0 |}.

Record t := {
  currentKey : Key;
  currentScale : Scale;
  scaleIntervals : list Z;
  keyRootNote : Z;
  harmonySettings : list HarmonySettings;
  lastResult : PitchMappingResult
}.

(** The constructor: C Major. *)
Definition init : t :=
  {| currentKey := C; currentScale := Major;
     scaleIntervals := getScaleIntervals Major; keyRootNote := 0;
     harmonySettings := [defaultSettings; defaultSettings; defaultSettings];
     lastResult := emptyResult |}.

(** [updateFromParameters]: the key and scale read from the parameter
    tree, and the settings of the three voices. *)
Definition updateFromParameters (pm : t) (key : Key) (scale : Scale)
    (voices : list HarmonySettings) : t :=
  {| currentKey := key; currentScale := scale;
     scaleIntervals := getScaleIntervals scale; keyRootNote := keyIndex key;
     harmonySettings := voices;
     lastResult := lastResult pm |}.

Definition set_lastResult (pm : t) (r : PitchMappingResult) : t :=
  {| currentKey := currentKey pm; currentScale := currentScale pm;
     scaleIntervals := scaleIntervals pm; keyRootNote := keyRootNote pm;
     harmonySettings := harmonySettings pm;
     lastResult := r |}.

Definition getScale (pm : t) : Scale := currentScale pm.
Definition getLastResult (pm : t) : PitchMappingResult := lastResult pm.

(** [note % 12], moved into 0..11 when the remainder is negative. *)
Definition pitchClassOf (note : Z) : Z :=
  let pitchClass := Z.rem note 12 in
  if pitchClass <? 0 then pitchClass + 12 else pitchClass.

Definition relativePitchClassOf (pm : t) (note : Z) : Z :=
  Z.rem (pitchClassOf note - keyRootNote pm + 12) 12.

Definition isNoteInScale (pm : t) (midiNote : Z) : bool :=
  existsb (Z.eqb (relativePitchClassOf pm midiNote)) (scaleIntervals pm).

(** [min(|a - b|, 12 - |a - b|)]. *)
Definition circularDistance (a b : Z) : Z :=
  let dist := Z.abs (a - b) in Z.min dist (12 - dist).

(** The search loop of [quantizeToScale]: the pair
    [(nearestInterval, minDistance)] after the intervals seen so far. *)
Definition nearestStep (rel : Z) (acc : Z * Z) (interval : Z) : Z * Z :=
  let dist := circularDistance rel interval in
  if dist <? acc.2 then (interval, dist) else acc.

Definition nearestSearch (rel : Z) (intervals : list Z) : Z * Z :=
  fold_left (nearestStep rel) intervals (0, 12).

(** The shortest signed path from [rel] to [target]. *)
Definition shortestAdjustment (target rel : Z) : Z :=
  let adjustment := target - rel in
  let adjustment := if 6 <? adjustment then adjustment - 12 else adjustment in
  if adjustment <? -6 then adjustment + 12 else adjustment.

Definition quantizeToScale (pm : t) (midiNote : f32) : option f32 :=
  if Scale_eqb (currentScale pm) Chromatic then Some (fround midiNote)
  else
    roundedNote ← to_int (fround midiNote);
    let rel := relativePitchClassOf pm roundedNote in
    if existsb (Z.eqb rel) (scaleIntervals pm) then Some (of_int roundedNote)
    else
      let nearestInterval := (nearestSearch rel (scaleIntervals pm)).1 in
      Some (of_int (roundedNote + shortestAdjustment nearestInterval rel)).

(** The scan for the scale degree of the starting note: the index of
    the interval equal to [startRelative] (the loop breaks there), else
    the last index whose interval lies below it, else 0. *)
Fixpoint findStartDegree (intervals : list Z) (i : Z) (startRelative acc : Z) : Z :=
  match intervals with
  | [] => acc
  | x :: rest =>
      if x =? startRelative then i
      else findStartDegree rest (i + 1) startRelative
             (if x <? startRelative then i else acc)
  end.

(** [while (t >= n) { t -= n; shift += 12; }] *)
Fixpoint wrapAbove (fuel : nat) (n : Z) (st : Z * Z) : option (Z * Z) :=
  match fuel with
  | O => None
  | S fuel' =>
      if n <=? st.1 then wrapAbove fuel' n (st.1 - n, st.2 + 12) else Some st
  end.

(** [while (t < 0) { t += n; shift -= 12; }] *)
Fixpoint wrapBelow (fuel : nat) (n : Z) (st : Z * Z) : option (Z * Z) :=
  match fuel with
  | O => None
  | S fuel' =>
      if st.1 <? 0 then wrapBelow fuel' n (st.1 + n, st.2 - 12) else Some st
  end.

(** The number of iterations allowed to the two wrapping loops; it is
    enough whenever the scale is not empty ([wrap_total] below). *)
Definition wrapFuel (target : Z) : nat := S (Z.to_nat (Z.abs target)).

Definition diatonicToSemitones (pm : t) (scaleDegrees : Z) (fromMidiNote : f32)
    : option Z :=
  if scaleDegrees =? 0 then Some 0
  else
    let numScaleNotes := Z.of_nat (length (scaleIntervals pm)) in
    startMidi ← to_int (fround fromMidiNote);
    let startRelative := relativePitchClassOf pm startMidi in
    let startScaleDegree :=
      findStartDegree (scaleIntervals pm) 0 startRelative 0 in
    let target := startScaleDegree + scaleDegrees in
    st ← wrapAbove (wrapFuel target) numScaleNotes (target, 0);
    st ← wrapBelow (wrapFuel target) numScaleNotes st;
    let targetInterval := vec_at (scaleIntervals pm) st.1 in
    let startInterval := vec_at (scaleIntervals pm) startScaleDegree in
    Some ((targetInterval - startInterval) + st.2).

Definition calculateHarmonyTarget (pm : t) (voiceIndex : Z) (baseMidiNote : f32)
    : option f32 :=
  if (voiceIndex <? 0) || (DSPConfig.maxHarmonyVoices <=? voiceIndex)
  then Some baseMidiNote
  else
    let settings := default defaultSettings (harmonySettings pm !! Z.to_nat voiceIndex) in
    if negb (enabled settings) then Some zero
    else
      match mode settings with
      | Diatonic =>
          let scaleDegrees := diatonicIndexToScaleDegree (diatonicIntervalIndex settings) in
          semitones ← diatonicToSemitones pm scaleDegrees baseMidiNote;
          Some (fadd baseMidiNote (of_int semitones))
      | Semitone => Some (fadd baseMidiNote (of_int (semitoneOffset settings)))
      | numHarmonyModes => Some baseMidiNote
      end.

(** [map]: the mapping result of one block, also stored as the last
    result. *)
Definition map `{Libm} (pm : t) (detector : PitchDetector.t)
    : option (PitchMappingResult * t) :=
  let midi := PitchDetector.getMidiNote detector in
  let freq := PitchDetector.getFrequencyHz detector in
  if negb (PitchDetector.isVoiced detector) then
    let result :=
      {| detectedMidiNote := midi; detectedFrequencyHz := freq; isVoiced := false;
         leadTargetMidiNote := zero; leadTargetFrequencyHz := zero;
         centsOffTarget := zero;
         harmonyTargetMidiNotes := [zero; zero; zero] |} in
    Some (result, set_lastResult pm result)
  else
    lead ← quantizeToScale pm midi;
    let harmony i :=
      if enabled (default defaultSettings (harmonySettings pm !! Z.to_nat i))
      then calculateHarmonyTarget pm i lead
      else Some zero in
    h0 ← harmony 0;
    h1 ← harmony 1;
    h2 ← harmony 2;
    let result :=
      {| detectedMidiNote := midi; detectedFrequencyHz := freq; isVoiced := true;
         leadTargetMidiNote := lead;
         leadTargetFrequencyHz := NovaTuneUtils.midiNoteToFrequency lead;
         centsOffTarget := fmul (fsub midi lead) (of_int 100);
         harmonyTargetMidiNotes := [h0; h1; h2] |} in
    Some (result, set_lastResult pm result).

End PitchMapper.

(** ** HarmonyVoice.cpp: the pitch ratio of one harmony voice *)

Module HarmonyVoice.

Record t := {
  enabled : bool;
  mode : HarmonyMode;
  diatonicIntervalIndex : Z;
  semitoneOffset : Z;
  pitchHumanizeOffset : f32;
  currentHarmonyMidi : f32;
  targetPitchRatio : f32;
  currentPitchRatio : f32;
  pitchRatioSmoothing : f32;
  targetGain : f32;
  currentGain : f32
}.

Definition set_currentHarmonyMidi (hv : t) (midi : f32) : t :=
  {| enabled := enabled hv; mode := mode hv;
     diatonicIntervalIndex := diatonicIntervalIndex hv;
     semitoneOffset := semitoneOffset hv;
     pitchHumanizeOffset := pitchHumanizeOffset hv;
     currentHarmonyMidi := midi;
     targetPitchRatio := targetPitchRatio hv;
     currentPitchRatio := currentPitchRatio hv;
     pitchRatioSmoothing := pitchRatioSmoothing hv;
     targetGain := targetGain hv; currentGain := currentGain hv |}.

Definition set_ratios (hv : t) (target current : f32) : t :=
  {| enabled := enabled hv; mode := mode hv;
     diatonicIntervalIndex := diatonicIntervalIndex hv;
     semitoneOffset := semitoneOffset hv;
     pitchHumanizeOffset := pitchHumanizeOffset hv;
     currentHarmonyMidi := currentHarmonyMidi hv;
     targetPitchRatio := target;
     currentPitchRatio := current;
     pitchRatioSmoothing := pitchRatioSmoothing hv;
     targetGain := targetGain hv; currentGain := currentGain hv |}.

Definition set_targetGain (hv : t) (g : f32) : t :=
  {| enabled := enabled hv; mode := mode hv;
     diatonicIntervalIndex := diatonicIntervalIndex hv;
     semitoneOffset := semitoneOffset hv;
     pitchHumanizeOffset := pitchHumanizeOffset hv;
     currentHarmonyMidi := currentHarmonyMidi hv;
     targetPitchRatio := targetPitchRatio hv;
     currentPitchRatio := currentPitchRatio hv;
     pitchRatioSmoothing := pitchRatioSmoothing hv;
     targetGain := g; currentGain := currentGain hv |}.

(** The [switch (mode)] of [calculateHarmonyPitchRatio]: the harmony
    target note, before pitch humanisation. *)
Definition harmonyTargetMidi (hv : t) (mapper : PitchMapper.t) (leadMidi : f32) : f32 :=
  match mode hv with
  | Diatonic =>
      let scaleDegrees := diatonicIndexToScaleDegree (diatonicIntervalIndex hv) in
      let scaleIntervals := getScaleIntervals (PitchMapper.getScale mapper) in
      let semitones := NovaTuneUtils.diatonicToSemitones scaleDegrees scaleIntervals in
      fadd leadMidi (of_int semitones)
  | Semitone => fadd leadMidi (of_int (semitoneOffset hv))
  | numHarmonyModes => leadMidi
  end.

Definition calculateHarmonyPitchRatio `{Libm} (hv : t) (detector : PitchDetector.t)
    (mapper : PitchMapper.t) : f32 * t :=
  if negb (PitchDetector.isVoiced detector) then (one, hv)
  else
    let leadMidi := PitchMapper.leadTargetMidiNote (PitchMapper.getLastResult mapper) in
    if fle leadMidi zero then (one, hv)
    else
      let harmonyMidi := harmonyTargetMidi hv mapper leadMidi in
      let harmonyMidi := fadd harmonyMidi (fdiv (pitchHumanizeOffset hv) (of_int 100)) in
      let hv := set_currentHarmonyMidi hv harmonyMidi in
      let detectedMidi := PitchDetector.getMidiNote detector in
      if fle detectedMidi zero then (one, hv)
      else
        let ratio := NovaTuneUtils.getPitchRatio harmonyMidi detectedMidi in
        (fclamp ratio DSPConfig.minPitchShiftRatio DSPConfig.maxPitchShiftRatio, hv).

Definition fadeThreshold : f32 := Eval vm_compute in ratio 1 1000.

(** The ratio stage of [process]: the early exit of a disabled voice that
    has faded out ([None]: nothing is processed), else the new target
    ratio and the per-sample smoothing of the current ratio. *)
Definition processRatio `{Libm} (hv : t) (detector : PitchDetector.t)
    (mapper : PitchMapper.t) (numSamples : Z) : option t :=
  let fading := negb (enabled hv) in
  if fading && negb (fgt (currentGain hv) fadeThreshold) then None
  else
    let hv := if fading then set_targetGain hv zero else hv in
    let '(target, hv) := calculateHarmonyPitchRatio hv detector mapper in
    let current :=
      for_loop 0 numSamples
        (fun _ cur => fadd cur (fmul (pitchRatioSmoothing hv) (fsub target cur)))
        (currentPitchRatio hv) in
    Some (set_ratios hv target current).

End HarmonyVoice.

(** ** LeadCorrection.cpp: the pitch ratio of the lead *)

Module LeadCorrection.

Record t := {
  humanizeAmount : f32;
  pitchRatioSmoothingCoeff : f32;
  targetPitchRatio : f32;
  currentPitchRatio : f32;
  humanizePhase : f32
}.

Definition calculateTargetPitchRatio (detector : PitchDetector.t)
    (mapper : PitchMapper.t) : f32 :=
  if negb (PitchDetector.isVoiced detector) then one
  else
    let mappingResult := PitchMapper.getLastResult mapper in
    if fle (PitchMapper.leadTargetFrequencyHz mappingResult) zero
       || fle (PitchMapper.detectedFrequencyHz mappingResult) zero
    then one
    else
      let ratio := fdiv (PitchMapper.leadTargetFrequencyHz mappingResult)
                        (PitchMapper.detectedFrequencyHz mappingResult) in
      fclamp ratio DSPConfig.minPitchShiftRatio DSPConfig.maxPitchShiftRatio.

Definition twoPi : f32 := S754_finite false 13176795 (-21).
Definition phaseStep : f32 := Eval vm_compute in ratio 5 100000.

(** [applyHumanization]: the blended ratio and the advanced phase. *)
Definition applyHumanization `{Libm} (lc : t) (targetRatio : f32) : f32 * f32 :=
  if fle (humanizeAmount lc) zero then (targetRatio, humanizePhase lc)
  else
    let humanizeFactor := fdiv (humanizeAmount lc) (of_int 100) in
    let correctionReduction := fmul humanizeFactor half in
    let blendedRatio := NovaTuneUtils.lerp targetRatio one correctionReduction in
    let phase := fadd (humanizePhase lc) phaseStep in
    let phase := if fgt phase twoPi then fsub phase twoPi else phase in
    let driftLfo :=
      fadd (fadd (fmul (sinf phase) half)
                 (fmul (sinf (fmul phase (ratio 27 10))) (ratio 3 10)))
           (fmul (sinf (fmul phase (ratio 41 10))) (ratio 2 10)) in
    let maxDriftCents := fmul (of_int 8) humanizeFactor in
    let driftCents := fmul driftLfo maxDriftCents in
    (fmul blendedRatio (NovaTuneUtils.centsToRatio driftCents), phase).

(** The ratio stage of [process]: target ratio, humanisation when it is
    enabled and the input is voiced, then the smoothing loop. *)
Definition processRatio `{Libm} (lc : t) (detector : PitchDetector.t)
    (mapper : PitchMapper.t) (numSamples : Z) : t :=
  let target := calculateTargetPitchRatio detector mapper in
  let '(target, phase) :=
    if fgt (humanizeAmount lc) zero && PitchDetector.isVoiced detector
    then applyHumanization lc target
    else (target, humanizePhase lc) in
  let smoothedRatio :=
    for_loop 0 numSamples
      (fun _ sm => fadd sm (fmul (pitchRatioSmoothingCoeff lc) (fsub target sm)))
      (currentPitchRatio lc) in
  {| humanizeAmount := humanizeAmount lc;
     pitchRatioSmoothingCoeff := pitchRatioSmoothingCoeff lc;
     targetPitchRatio := target;
     currentPitchRatio := smoothedRatio;
     humanizePhase := phase |}.

Definition reset (lc : t) : t :=
  {| humanizeAmount := humanizeAmount lc;
     pitchRatioSmoothingCoeff := pitchRatioSmoothingCoeff lc;
     targetPitchRatio := one; currentPitchRatio := one; humanizePhase := zero |}.

End LeadCorrection.

(** ** PitchShifter.cpp: the similarity score of the grain search *)

Module PitchShifter.

(** The body of the search loop of [findBestGrainPosition] for one
    candidate position: the normalised cross-correlation of the first
    half of the grain with the output ring buffer. *)
Definition correlationSums (grainBuffer outputBuffer : list f32)
    (windowSize pos : Z) : f32 * f32 * f32 :=
  let outputBufferSize := Z.of_nat (length outputBuffer) in
  let overlapLength := Z.min (Z.quot windowSize 2) windowSize in
  for_loop 0 overlapLength
    (fun i '(correlation, normGrain, normOutput) =>
       let outputPos := Z.rem (pos + i) outputBufferSize in
       let outputPos := if outputPos <? 0 then outputPos + outputBufferSize else outputPos in
       let grainSample := rd grainBuffer i in
       let outputSample := rd outputBuffer outputPos in
       (fadd correlation (fmul grainSample outputSample),
        fadd normGrain (fmul grainSample grainSample),
        fadd normOutput (fmul outputSample outputSample)))
    (zero, zero, zero).

Definition correlationScore (grainBuffer outputBuffer : list f32)
    (windowSize pos : Z) : f32 :=
  let '(correlation, normGrain, normOutput) :=
    correlationSums grainBuffer outputBuffer windowSize pos in
  let norm := fsqrt (fmul normGrain normOutput) in
  if fgt norm PitchDetector.tiny then fdiv correlation norm else zero.

(** [setPitchRatio]: the target ratio it stores. *)
Definition setPitchRatio (pitchRatio : f32) : f32 :=
  fclamp pitchRatio DSPConfig.minPitchShiftRatio DSPConfig.maxPitchShiftRatio.

(** [addGrainToOutput]: the overlap-add of the grain into the output
    ring, from [startPos] on. *)
Definition addGrainToOutput (grainBuffer outputBuffer : list f32)
    (windowSize startPos : Z) : list f32 :=
  let outputBufferSize := Z.of_nat (length outputBuffer) in
  for_loop 0 windowSize
    (fun i out =>
       let writePos := Z.rem (startPos + i) outputBufferSize in
       let writePos := if writePos <? 0 then writePos + outputBufferSize else writePos in
       wr out writePos (fadd (rd out writePos) (rd grainBuffer i)))
    outputBuffer.

(** The search of [findBestGrainPosition] around the nominal position;
    [outputWritePos = windowSize] marks the first grain. *)
Definition findBestGrainPosition (grainBuffer outputBuffer : list f32)
    (windowSize outputWritePos nominalPos searchRange : Z) : Z :=
  if outputWritePos =? windowSize then nominalPos
  else
    (for_loop (nominalPos - searchRange) (nominalPos + searchRange + 1)
       (fun pos (best : Z * f32) =>
          let correlation := correlationScore grainBuffer outputBuffer windowSize pos in
          if fgt correlation best.2 then (pos, correlation) else best)
       (nominalPos, fneg one)).1.

End PitchShifter.

(** ** TunerEngine.cpp: the soft clipper that ends [process] *)

Module TunerEngine.

Definition drive : f32 := Eval vm_compute in ratio 9 10.

(** [std::tanh(sample * 0.9f) / 0.9f]. *)
Definition softClip `{Libm} (sample : f32) : f32 :=
  fdiv (tanhf (fmul sample drive)) drive.

(** Step 6 of [process] on one channel and on the whole buffer. *)
Definition softClipChannel `{Libm} (numSamples : Z) (data : list f32) : list f32 :=
  for_loop 0 numSamples (fun i data => wr data i (softClip (rd data i))) data.

Definition softClipStage `{Libm} (numChannels numSamples : Z)
    (buffer : list (list f32)) : list (list f32) :=
  for_loop 0 numChannels
    (fun ch buffer =>
       match buffer !! Z.to_nat ch with
       | Some data => <[Z.to_nat ch := softClipChannel numSamples data]> buffer
       | None => buffer
       end)
    buffer.

(** The bound [1.0f / 0.9f] of the clipper. *)
Definition ceiling : f32 := Eval vm_compute in fdiv one drive.

End TunerEngine.

(** ** FormantProcessor.cpp: the combined formant shift *)

Module FormantProcessor.

Definition calculateEffectiveShiftRatio `{Libm}
    (pitchCompensationRatio formantShiftSemitones : f32) : f32 :=
  let preservationRatio :=
    if fgt pitchCompensationRatio zero then fdiv one pitchCompensationRatio else one in
  let userShiftRatio := NovaTuneUtils.semitonesToRatio formantShiftSemitones in
  let combined := fmul preservationRatio userShiftRatio in
  fclamp combined half two.

End FormantProcessor.

(** * Fixtures and specification-side definitions *)

(** A math library with the range of the real one, used to instantiate
    the statements below on concrete inputs: [tanh] and [sin] are the
    hard limiter (the sign of the argument as -1, 0 or 1, NaN for a NaN),
    [pow] and [log2] are constant. *)
Definition saturate (x : f32) : f32 :=
  match x with
  | S754_nan => S754_nan
  | S754_zero s => S754_zero s
  | S754_infinity s | S754_finite s _ _ => if s then fneg one else one
  end.

Definition saturatingLibm : Libm :=
  {| powf := fun _ _ => one; log2f := fun _ => zero;
     sinf := saturate; tanhf := saturate |}.

Definition voiceSettings (m : HarmonyMode) (index : Z) : PitchMapper.HarmonySettings :=
  {| PitchMapper.enabled := true; PitchMapper.mode := m;
     PitchMapper.diatonicIntervalIndex := index;
     PitchMapper.semitoneOffset := 0 |}.

(** The mapper after the parameters select [key] and [scale], the first
    voice being an enabled diatonic voice of interval index [index]. *)
Definition mapperFor (key : Key) (scale : Scale) (index : Z) : PitchMapper.t :=
  PitchMapper.updateFromParameters PitchMapper.init key scale
    [voiceSettings Diatonic index; PitchMapper.defaultSettings;
     PitchMapper.defaultSettings].

Definition diatonicVoice (index : Z) : HarmonyVoice.t :=
  {| HarmonyVoice.enabled := true; HarmonyVoice.mode := Diatonic;
     HarmonyVoice.diatonicIntervalIndex := index;
     HarmonyVoice.semitoneOffset := 0;
     HarmonyVoice.pitchHumanizeOffset := zero;
     HarmonyVoice.currentHarmonyMidi := zero;
     HarmonyVoice.targetPitchRatio := one;
     HarmonyVoice.currentPitchRatio := one;
     HarmonyVoice.pitchRatioSmoothing := one;
     HarmonyVoice.targetGain := one; HarmonyVoice.currentGain := one |}.

(** The helper as the specification words it. *)
Definition smoothValue_documented (current target coeff : f32) : f32 :=
  fadd current (fmul coeff (fsub target coeff)).

(** The conventional one-pole step. *)
Definition smoothValue_conventional (current target coeff : f32) : f32 :=
  fadd current (fmul coeff (fsub target current)).

(** The detector after [prepare] at a sample rate of [sr] Hz and
    [setInputType]. *)
Definition preparedDetector (sr : Z) (ty : InputType) : PitchDetector.t :=
  PitchDetector.setInputType
    (default PitchDetector.init
       (PitchDetector.prepare PitchDetector.init (Float64.of_int sr)))
    ty.

(** The sample rates of audio hosts and the voice types of the plugin. *)
Definition standardRates : list Z :=
  [8000; 11025; 16000; 22050; 32000; 44100; 48000; 88200; 96000; 176400; 192000].

Definition inputTypes : list InputType := [Soprano; AltoTenor; LowMale; Instrument].

(** The state in which the analysis of a frame is defined: the YIN buffer
    has half the frame's length and the lag bounds of the threshold step
    are defined and start inside it. *)
Definition readyForAnalysis (d : PitchDetector.t) : bool :=
  (Z.of_nat (length (PitchDetector.yinBuffer d)) =? Z.quot (PitchDetector.frameSize d) 2)
  && match PitchDetector.tauBounds d with
     | Some (lo, _) => lo <? Z.of_nat (length (PitchDetector.yinBuffer d))
     | None => false
     end.

Definition leadCorrector (humanize : f32) : LeadCorrection.t :=
  {| LeadCorrection.humanizeAmount := humanize;
     LeadCorrection.pitchRatioSmoothingCoeff := half;
     LeadCorrection.targetPitchRatio := two;
     LeadCorrection.currentPitchRatio := two;
     LeadCorrection.humanizePhase := zero |}.

(** The note [quantizeToScale] returns for the rounded note, as an
    integer. *)
Definition quantizedNote (pm : PitchMapper.t) (roundedNote : Z) : Z :=
  let rel := PitchMapper.relativePitchClassOf pm roundedNote in
  if existsb (Z.eqb rel) (PitchMapper.scaleIntervals pm) then roundedNote
  else
    roundedNote
    + PitchMapper.shortestAdjustment
        (PitchMapper.nearestSearch rel (PitchMapper.scaleIntervals pm)).1 rel.

(** What [updateFromParameters] establishes: the root is a key index and
    the interval table is a non-empty list of pitch classes. *)
Definition wellFormed (pm : PitchMapper.t) : Prop :=
  0 <= PitchMapper.keyRootNote pm <= 12 /\
  PitchMapper.scaleIntervals pm <> [] /\
  Forall (fun x => 0 <= x <= 11) (PitchMapper.scaleIntervals pm).

(** [target] is the first interval of the table, in table order, at the
    least circular distance from [rel]. *)
Definition firstNearest (rel target : Z) (intervals : list Z) : Prop :=
  exists before after,
    intervals = before ++ target :: after /\
    (forall y, y ∈ before ->
       PitchMapper.circularDistance rel target < PitchMapper.circularDistance rel y) /\
    (forall y, y ∈ after ->
       PitchMapper.circularDistance rel target <= PitchMapper.circularDistance rel y).

(** The sum of [f 0], ..., [f (n - 1)], added in binary32 in this
    order. *)
Fixpoint sumTo (n : nat) (f : Z -> f32) : f32 :=
  match n with
  | O => zero
  | S k => fadd (sumTo k f) (f (Z.of_nat k))
  end.

(** The term [(x[j] - x[j + tau])^2] of the difference function. *)
Definition squaredDifference (x : list f32) (tau j : Z) : f32 :=
  let diff := fsub (rd x j) (rd x (j + tau)) in fmul diff diff.

(** The difference function as the specification writes it: the sum over
    [j < W - tau] for a frame of [W] samples. *)
Definition differenceOverFrame (x : list f32) (W tau : Z) : f32 :=
  sumTo (Z.to_nat (W - tau)) (squaredDifference x tau).

(** The difference function over the fixed window of [W / 2] terms. *)
Definition differenceOverHalfFrame (x : list f32) (W tau : Z) : f32 :=
  sumTo (Z.to_nat (Z.quot W 2)) (squaredDifference x tau).

(** The difference function as the comment of
    [computeDifferenceFunction] writes it: the sum for [j] from 0 to
    [W' - tau - 1], [W'] being the window, half of the frame. *)
Definition differenceOverShrinkingWindow (x : list f32) (W tau : Z) : f32 :=
  sumTo (Z.to_nat (Z.quot W 2 - tau)) (squaredDifference x tau).

(** A sample of value zero, of either sign. *)
Definition isZero (x : f32) : bool :=
  match x with S754_zero _ => true | _ => false end.

(** What the clipper needs of [tanh]: it returns binary32 values, never
    above 1 in magnitude, and a NaN only for a NaN. *)
Definition tanhRange `{Libm} : Prop :=
  forall x,
    valid (tanhf x) = true /\
    fgt (fabs (tanhf x)) one = false /\
    (is_nan x = false -> is_nan (tanhf x) = false).

(** The decimal 1.1112 the specification quotes for the bound. *)
Definition quotedCeiling : f32 := Eval vm_compute in ratio 11112 10000.

(** [x > p / q], for the exact value of the binary32 number [x] and a
    fraction of integers with [0 < q]. *)
Definition aboveFraction (x : f32) (p q : Z) : bool :=
  match x with
  | S754_zero _ => p <? 0
  | S754_infinity s => negb s
  | S754_nan => false
  | S754_finite s m e =>
      let v := cond_Zopp s (Zpos m) in
      if 0 <=? e then p <? v * 2 ^ e * q else p * 2 ^ (- e) <? v * q
  end.

(** A ratio the shifter accepts: not below [minPitchShiftRatio], not
    above [maxPitchShiftRatio], and between the two when it is a
    number. *)
Definition withinShiftRange (x : f32) : Prop :=
  flt x DSPConfig.minPitchShiftRatio = false /\
  flt DSPConfig.maxPitchShiftRatio x = false /\
  (is_nan x = false ->
   fle DSPConfig.minPitchShiftRatio x = true /\
   fle x DSPConfig.maxPitchShiftRatio = true).

(** The input side after [prepare] for a frame of [frameSize] samples. *)
Definition preparedInput (frameSize : Z) : PitchDetector.input :=
  PitchDetector.prepareInput frameSize PitchDetector.initInput.

(** A detector that reports the note [midi] at [freq] Hz. *)
Definition voicedDetector (freq midi : f32) : PitchDetector.t :=
  PitchDetector.set_detection (preparedDetector 44100 AltoTenor)
    freq midi (fdiv (of_int 44100) freq) true one.

(** A frame of 512 samples of a wave of period 8. *)
Definition tone8 : list f32 :=
  concat (replicate 64 [zero; one; one; zero; zero; fneg one; fneg one; zero]).

(** * Properties *)

(** ** The wrapping loops of the diatonic conversion terminate *)

Lemma wrapAbove_total (k : nat) (n t shift : Z) :
  0 < n -> t < (Z.of_nat k + 1) * n ->
  exists st,
    PitchMapper.wrapAbove (S k) n (t, shift) = Some st /\
    st.1 < n /\ (0 <= t -> 0 <= st.1) /\ (t < 0 -> st.1 = t).
Proof.
  intros Hn. revert t shift. induction k as [| k IH]; intros t shift Ht.
  - simpl. destruct (Z.leb_spec n t); [lia |].
    eexists. split; [done |]. simpl. lia.
  - change (PitchMapper.wrapAbove (S (S k)) n (t, shift))
      with (if n <=? t then PitchMapper.wrapAbove (S k) n (t - n, shift + 12)
            else Some (t, shift)).
    destruct (Z.leb_spec n t).
    + destruct (IH (t - n) (shift + 12) ltac:(lia)) as (st & -> & Hlt & Hpos & Hneg).
      exists st. split; [done |]. lia.
    + eexists. split; [done |]. simpl. lia.
Qed.

Lemma wrapBelow_total (k : nat) (n t shift : Z) :
  0 < n -> - (Z.of_nat k * n) <= t < n ->
  exists st,
    PitchMapper.wrapBelow (S k) n (t, shift) = Some st /\ 0 <= st.1 < n.
Proof.
  intros Hn. revert t shift. induction k as [| k IH]; intros t shift Ht.
  - simpl. destruct (Z.ltb_spec t 0); [lia |].
    eexists. split; [done |]. simpl. lia.
  - change (PitchMapper.wrapBelow (S (S k)) n (t, shift))
      with (if t <? 0 then PitchMapper.wrapBelow (S k) n (t + n, shift - 12)
            else Some (t, shift)).
    destruct (Z.ltb_spec t 0).
    + destruct (IH (t + n) (shift - 12) ltac:(lia)) as (st & -> & Hst).
      exists st. split; [done |]. lia.
    + eexists. split; [done |]. simpl. lia.
Qed.

(** With a scale that is not empty both loops leave through their
    conditions, and the wrapped degree is an index of the interval table. *)
Lemma wrap_total (n target : Z) :
  0 < n ->
  exists st st',
    PitchMapper.wrapAbove (PitchMapper.wrapFuel target) n (target, 0) = Some st /\
    PitchMapper.wrapBelow (PitchMapper.wrapFuel target) n st = Some st' /\
    0 <= st'.1 < n.
Proof.
  intros Hn. unfold PitchMapper.wrapFuel.
  destruct (wrapAbove_total (Z.to_nat (Z.abs target)) n target 0 Hn)
    as (st & Ha & Hlt & Hpos & Hneg); [nia |].
  destruct st as [t1 s1]. simpl in Hlt, Hpos, Hneg.
  destruct (wrapBelow_total (Z.to_nat (Z.abs target)) n t1 s1 Hn)
    as (st' & Hb & Hst'); [nia |].
  exists (t1, s1), st'. done.
Qed.

(** The conversion returns a semitone count for every note whose rounding
    is an [int], whatever the key and the (non-empty) scale. *)
Lemma diatonicToSemitones_total (pm : PitchMapper.t) (d : Z) (m : f32) (n : Z) :
  PitchMapper.scaleIntervals pm <> [] ->
  to_int (fround m) = Some n ->
  is_Some (PitchMapper.diatonicToSemitones pm d m).
Proof.
  intros Hne Hn. unfold PitchMapper.diatonicToSemitones.
  destruct (d =? 0); [by eexists |].
  rewrite Hn.
  cbn -[PitchMapper.wrapAbove PitchMapper.wrapBelow PitchMapper.wrapFuel].
  match goal with
  | |- context [PitchMapper.wrapAbove (PitchMapper.wrapFuel ?t) ?k _] =>
      destruct (wrap_total k t) as (st & st' & -> & Hb & _)
  end.
  - destruct (PitchMapper.scaleIntervals pm); [done | simpl; lia].
  - cbn -[PitchMapper.wrapAbove PitchMapper.wrapBelow PitchMapper.wrapFuel].
    rewrite Hb. by eexists.
Qed.

(** ** Diatonic conversion in C Major *)

(** C7.  In C Major (intervals 0 2 4 5 7 9 11, root 0) the diatonic
    conversion of the mapper turns +2 scale degrees from C (MIDI 60) into
    +4 semitones, the harmony target being E (MIDI 64), and +1 scale
    degree from E (MIDI 64) into +1 semitone, the target being F
    (MIDI 65). *)
Theorem C7_c_major_diatonic_conversion :
  PitchMapper.scaleIntervals (mapperFor C Major 9) = [0; 2; 4; 5; 7; 9; 11] /\
  PitchMapper.keyRootNote (mapperFor C Major 9) = 0 /\
  PitchMapper.diatonicToSemitones (mapperFor C Major 9) 2 (of_int 60) = Some 4 /\
  PitchMapper.calculateHarmonyTarget (mapperFor C Major 9) 0 (of_int 60)
    = Some (of_int 64) /\
  PitchMapper.diatonicToSemitones (mapperFor C Major 8) 1 (of_int 64) = Some 1 /\
  PitchMapper.calculateHarmonyTarget (mapperFor C Major 8) 0 (of_int 64)
    = Some (of_int 65).
Proof. repeat split; vm_compute; reflexivity. Qed.

(** ** The harmony voice against the mapper *)

(** C1.  The harmony voice and the mapper disagree away from the root of
    the scale: in C Major, one scale degree above E (MIDI 64) the mapper
    gives F (MIDI 65, +1 semitone) while the harmony voice, whose
    conversion sees only the degree and the interval table, gives F sharp
    (MIDI 66, +2 semitones); on the root C (MIDI 60) the two agree. *)
Theorem C1_harmony_voice_ignores_base_note :
  HarmonyVoice.harmonyTargetMidi (diatonicVoice 8) (mapperFor C Major 8) (of_int 64)
    = of_int 66 /\
  PitchMapper.calculateHarmonyTarget (mapperFor C Major 8) 0 (of_int 64)
    = Some (of_int 65) /\
  of_int 66 <> of_int 65 /\
  NovaTuneUtils.diatonicToSemitones 1 (getScaleIntervals Major) = 2 /\
  PitchMapper.diatonicToSemitones (mapperFor C Major 8) 1 (of_int 64) = Some 1 /\
  Some (HarmonyVoice.harmonyTargetMidi (diatonicVoice 8) (mapperFor C Major 8) (of_int 60))
    = PitchMapper.calculateHarmonyTarget (mapperFor C Major 8) 0 (of_int 60).
Proof. repeat split; try (vm_compute; reflexivity). vm_compute. discriminate. Qed.

(** ** The one-pole smoothing helper *)

(** C9.  [smoothValue current target coeff] is
    [current + coeff * (target - coeff)]: the difference is taken from
    [coeff], not from [current].  A value that has reached its target is
    therefore moved away from it: with coefficient 0.5 the value 1.0 on
    target 1.0 becomes 1.25, where the conventional step leaves it at
    1.0. *)
Theorem C9_smoothValue_uses_coeff_in_delta :
  (forall current target coeff,
      NovaTuneUtils.smoothValue current target coeff
      = smoothValue_documented current target coeff) /\
  NovaTuneUtils.smoothValue one one half = ratio 5 4 /\
  NovaTuneUtils.smoothValue one one half <> one /\
  smoothValue_conventional one one half = one.
Proof.
  split; [reflexivity |].
  repeat split; try (vm_compute; reflexivity).
  vm_compute. discriminate.
Qed.

(** ** Unvoiced input *)

(** C8.  When the detector reports unvoiced, the target ratio computed by
    the lead corrector is exactly 1, also after the humanisation step of
    its [process], and the ratio computed by a harmony voice is exactly
    1, also as the target ratio its [process] stores; [process] skips
    only a voice that is disabled and has faded out. *)
Theorem C8_unvoiced_ratio_is_one `{Libm} (detector : PitchDetector.t)
    (mapper : PitchMapper.t) (lc : LeadCorrection.t) (hv : HarmonyVoice.t)
    (numSamples : Z) :
  PitchDetector.isVoiced detector = false ->
  LeadCorrection.calculateTargetPitchRatio detector mapper = one /\
  LeadCorrection.targetPitchRatio
    (LeadCorrection.processRatio lc detector mapper numSamples) = one /\
  (HarmonyVoice.calculateHarmonyPitchRatio hv detector mapper).1 = one /\
  match HarmonyVoice.processRatio hv detector mapper numSamples with
  | Some hv' => HarmonyVoice.targetPitchRatio hv' = one
  | None => HarmonyVoice.enabled hv = false
  end.
Proof.
  intros Hu.
  assert (Hlead : LeadCorrection.calculateTargetPitchRatio detector mapper = one).
  { unfold LeadCorrection.calculateTargetPitchRatio. by rewrite Hu. }
  assert (Hharm : forall v,
             HarmonyVoice.calculateHarmonyPitchRatio v detector mapper = (one, v)).
  { intros v. unfold HarmonyVoice.calculateHarmonyPitchRatio. by rewrite Hu. }
  repeat split.
  - exact Hlead.
  - unfold LeadCorrection.processRatio.
    rewrite Hlead, Hu, andb_false_r. reflexivity.
  - by rewrite Hharm.
  - unfold HarmonyVoice.processRatio.
    destruct (HarmonyVoice.enabled hv); simpl.
    + rewrite Hharm. reflexivity.
    + destruct (negb (fgt (HarmonyVoice.currentGain hv) HarmonyVoice.fadeThreshold));
        [reflexivity |].
      rewrite Hharm. reflexivity.
Qed.

Lemma C8_unvoiced_ratio_is_one_witness :
  let detector := preparedDetector 44100 AltoTenor in
  let mapper := mapperFor C Major 9 in
  let lc := leadCorrector (of_int 50) in
  let hv := diatonicVoice 9 in
  PitchDetector.isVoiced detector = false /\
  (LeadCorrection.calculateTargetPitchRatio detector mapper = one /\
   LeadCorrection.targetPitchRatio
     (@LeadCorrection.processRatio saturatingLibm lc detector mapper 64) = one /\
   (@HarmonyVoice.calculateHarmonyPitchRatio saturatingLibm hv detector mapper).1 = one /\
   match @HarmonyVoice.processRatio saturatingLibm hv detector mapper 64 with
   | Some hv' => HarmonyVoice.targetPitchRatio hv' = one
   | None => HarmonyVoice.enabled hv = false
   end).
Proof.
  intros detector mapper lc hv.
  split; [reflexivity |].
  apply (@C8_unvoiced_ratio_is_one saturatingLibm detector mapper lc hv 64).
  reflexivity.
Defined.

(** ** Facts about binary32: integers below 2^24 are exact *)

Lemma digits2_pos_bounds (p : positive) :
  2 ^ (Zpos (digits2_pos p) - 1) <= Zpos p < 2 ^ Zpos (digits2_pos p).
Proof.
  induction p as [p IH | p IH |]; simpl digits2_pos.
  - rewrite Pos2Z.inj_succ.
    replace (Z.succ (Zpos (digits2_pos p)) - 1) with (Z.succ (Zpos (digits2_pos p) - 1)) by lia.
    rewrite !Z.pow_succ_r by lia. lia.
  - rewrite Pos2Z.inj_succ.
    replace (Z.succ (Zpos (digits2_pos p)) - 1) with (Z.succ (Zpos (digits2_pos p) - 1)) by lia.
    rewrite !Z.pow_succ_r by lia. lia.
  - simpl. lia.
Qed.

Lemma digits2_pos_le (p : positive) (k : Z) :
  0 <= k -> Zpos p < 2 ^ k -> Zpos (digits2_pos p) <= k.
Proof.
  intros Hk Hp. destruct (digits2_pos_bounds p) as [Hlo _].
  destruct (Z_le_gt_dec (Zpos (digits2_pos p)) k) as [|Hgt]; [done|].
  assert (2 ^ k <= 2 ^ (Zpos (digits2_pos p) - 1)) by (apply Z.pow_le_mono_r; lia).
  lia.
Qed.

Lemma iter_xO_value (p d : positive) :
  Zpos (Pos.iter xO p d) = Zpos p * 2 ^ Zpos d.
Proof.
  induction d as [|d IH] using Pos.peano_ind.
  - simpl. lia.
  - rewrite Pos.iter_succ, Pos2Z.inj_succ, Z.pow_succ_r by lia.
    rewrite Pos2Z.inj_xO, IH. lia.
Qed.

Lemma iter_xO_digits (p d : positive) :
  digits2_pos (Pos.iter xO p d) = (digits2_pos p + d)%positive.
Proof.
  induction d as [|d IH] using Pos.peano_ind.
  - simpl. lia.
  - rewrite Pos.iter_succ. simpl. rewrite IH. lia.
Qed.

Lemma round_aux_exact (s : bool) (m : positive) (e : Z) :
  Zpos (digits2_pos m) = 24 -> -149 <= e <= 104 ->
  binary_round_aux prec emax s (Zpos m) e loc_Exact = S754_finite s m e.
Proof.
  intros Hd He.
  unfold binary_round_aux, shr_fexp, fexp, emin, prec, emax. simpl Zdigits2.
  rewrite Hd.
  replace (Z.max (24 + e - 24) (3 - 128 - 24) - e) with 0 by lia.
  simpl. rewrite Hd.
  replace (Z.max (24 + e - 24) (3 - 128 - 24) - e) with 0 by lia.
  simpl.
  destruct (Z.leb_spec e (128 - 24)); [reflexivity | lia].
Qed.

Lemma binary_round_small (s : bool) (p : positive) :
  Zpos p < 2 ^ 24 ->
  exists (m : positive) (k : Z),
    binary_round prec emax s p 0 = S754_finite s m (- k) /\
    0 <= k <= 23 /\ Zpos m = Zpos p * 2 ^ k.
Proof.
  intros Hp.
  pose proof (digits2_pos_le p 24 ltac:(lia) Hp) as Hd.
  assert (0 < Zpos (digits2_pos p)) as Hd0 by lia.
  unfold binary_round, shl_align.
  replace (fexp prec emax (Zpos (digits2_pos p) + 0))
    with (Zpos (digits2_pos p) - 24) by (unfold fexp, emin, prec, emax; lia).
  destruct (Zpos (digits2_pos p) - 24 - 0) as [|k|k] eqn:Hk; try lia.
  - exists p, 0. rewrite round_aux_exact by lia.
    split; [reflexivity | split; lia].
  - exists (Pos.iter xO p k), (Zpos k).
    rewrite round_aux_exact.
    + replace (Z.pos (digits2_pos p) - 24) with (- Zpos k) by lia.
      split; [reflexivity | split; [lia | apply iter_xO_value]].
    + rewrite iter_xO_digits. lia.
    + lia.
Qed.

Lemma shiftl_neg_exact (p k : Z) : 0 <= k -> Z.shiftl (p * 2 ^ k) (- k) = p.
Proof.
  intros Hk. rewrite Z.shiftl_opp_r, Z.shiftr_div_pow2 by lia.
  apply Z.div_mul. apply Z.pow_nonzero; lia.
Qed.

Lemma testbit_low_zero (p k : Z) : 0 < k -> Z.testbit (p * 2 ^ k) (k - 1) = false.
Proof.
  intros Hk. apply Z.mul_pow2_bits_low. lia.
Qed.

Lemma of_int_form (n : Z) :
  n <> 0 -> Z.abs n < 2 ^ 24 ->
  exists (m : positive) (k : Z),
    of_int n = S754_finite (n <? 0) m (- k) /\
    0 <= k <= 23 /\ Zpos m = Z.abs n * 2 ^ k.
Proof.
  intros Hn0 Hn. unfold of_int, binary_normalize.
  destruct n as [|p|p]; [done | |].
  - destruct (binary_round_small false p Hn) as (m & k & -> & Hk & Hm).
    exists m, k. auto.
  - destruct (binary_round_small true p Hn) as (m & k & -> & Hk & Hm).
    exists m, k. auto.
Qed.

Lemma cond_Zopp_abs (n : Z) : cond_Zopp (n <? 0) (Z.abs n) = n.
Proof. unfold cond_Zopp. destruct (Z.ltb_spec n 0); lia. Qed.

Lemma to_int_of_int (n : Z) : Z.abs n < 2 ^ 24 -> to_int (of_int n) = Some n.
Proof.
  intros Hn. destruct (decide (n = 0)) as [-> | Hn0]; [reflexivity |].
  destruct (of_int_form n Hn0 Hn) as (m & k & -> & Hk & Hm).
  unfold to_int. rewrite Hm, shiftl_neg_exact, cond_Zopp_abs by lia.
  unfold int_min, int_max.
  destruct (Z.leb_spec (- 2 ^ 31) n); [| lia].
  destruct (Z.leb_spec n (2 ^ 31 - 1)); [reflexivity | lia].
Qed.

Lemma fround_of_int (n : Z) : Z.abs n < 2 ^ 24 -> fround (of_int n) = of_int n.
Proof.
  intros Hn. destruct (decide (n = 0)) as [-> | Hn0]; [reflexivity |].
  destruct (of_int_form n Hn0 Hn) as (m & k & Hof & Hk & Hm).
  rewrite Hof. unfold fround.
  destruct (Z.leb_spec 0 (- k)) as [|Hneg]; [reflexivity |].
  rewrite Hm, shiftl_neg_exact by lia.
  replace (- - k - 1) with (k - 1) by lia.
  rewrite testbit_low_zero by lia.
  destruct (Z.eqb_spec (Z.abs n) 0); [lia |].
  rewrite cond_Zopp_abs. exact Hof.
Qed.

(** ** The integer core of the scale mapper *)

Lemma pitchClassOf_mod (n : Z) : PitchMapper.pitchClassOf n = n mod 12.
Proof.
  unfold PitchMapper.pitchClassOf.
  pose proof (Z.quot_rem' n 12) as Hqr.
  pose proof (Z.rem_bound_abs n 12 ltac:(lia)) as Habs.
  destruct (Z.ltb_spec (Z.rem n 12) 0) as [Hneg | Hpos].
  - apply (Z.mod_unique_pos n 12 (Z.quot n 12 - 1)); lia.
  - apply (Z.mod_unique_pos n 12 (Z.quot n 12)); lia.
Qed.

Lemma relativePitchClassOf_mod (pm : PitchMapper.t) (n : Z) :
  0 <= PitchMapper.keyRootNote pm <= 12 ->
  PitchMapper.relativePitchClassOf pm n = (n - PitchMapper.keyRootNote pm) mod 12.
Proof.
  intros Hk. unfold PitchMapper.relativePitchClassOf.
  rewrite pitchClassOf_mod.
  pose proof (Z.mod_pos_bound n 12 ltac:(lia)).
  rewrite Z.rem_mod_nonneg by lia.
  replace (n mod 12 - PitchMapper.keyRootNote pm + 12)
    with (n mod 12 + (12 - PitchMapper.keyRootNote pm)) by lia.
  rewrite Zplus_mod_idemp_l.
  replace (n + (12 - PitchMapper.keyRootNote pm))
    with (n - PitchMapper.keyRootNote pm + 1 * 12) by lia.
  apply Z_mod_plus_full.
Qed.

Lemma relativePitchClassOf_range (pm : PitchMapper.t) (n : Z) :
  0 <= PitchMapper.keyRootNote pm <= 12 ->
  0 <= PitchMapper.relativePitchClassOf pm n <= 11.
Proof.
  intros Hk. rewrite relativePitchClassOf_mod by done.
  pose proof (Z.mod_pos_bound (n - PitchMapper.keyRootNote pm) 12 ltac:(lia)). lia.
Qed.

Lemma circularDistance_range (a b : Z) :
  0 <= a <= 11 -> 0 <= b <= 11 -> 0 <= PitchMapper.circularDistance a b <= 6.
Proof. unfold PitchMapper.circularDistance. lia. Qed.

(** The search loop keeps the first interval at the least distance seen,
    or its initial pair when no interval is nearer than that. *)
Lemma nearestSearch_fold (rel : Z) (intervals : list Z) (a da x d : Z) :
  fold_left (PitchMapper.nearestStep rel) intervals (a, da) = (x, d) ->
  (x = a /\ d = da /\
   forall y, y ∈ intervals -> da <= PitchMapper.circularDistance rel y) \/
  (d = PitchMapper.circularDistance rel x /\ d < da /\
   firstNearest rel x intervals).
Proof.
  revert a da. induction intervals as [| y rest IH]; intros a da Hfold.
  - simpl in Hfold. injection Hfold as <- <-. left.
    repeat split. intros y Hy. by apply elem_of_nil in Hy.
  - simpl in Hfold. unfold PitchMapper.nearestStep at 2 in Hfold. simpl in Hfold.
    destruct (Z.ltb_spec (PitchMapper.circularDistance rel y) da) as [Hlt | Hge].
    + apply IH in Hfold as [(-> & -> & Hall) | (-> & Hd & (pre & post & -> & Hpre & Hpost))].
      * right. repeat split; [done |].
        exists [], rest. repeat split; [| done].
        intros z Hz. by apply elem_of_nil in Hz.
      * right. repeat split; [lia |].
        exists (y :: pre), post. repeat split; [| done].
        intros z [-> | Hz]%elem_of_cons; [lia | by apply Hpre].
    + apply IH in Hfold as [(-> & -> & Hall) | (-> & Hd & (pre & post & -> & Hpre & Hpost))].
      * left. repeat split.
        intros z [-> | Hz]%elem_of_cons; [lia | by apply Hall].
      * right. repeat split; [done |].
        exists (y :: pre), post. repeat split; [| done].
        intros z [-> | Hz]%elem_of_cons; [lia | by apply Hpre].
Qed.

Lemma nearestSearch_first (rel : Z) (intervals : list Z) :
  0 <= rel <= 11 -> intervals <> [] ->
  Forall (fun x => 0 <= x <= 11) intervals ->
  firstNearest rel (PitchMapper.nearestSearch rel intervals).1 intervals.
Proof.
  intros Hrel Hne Hall. unfold PitchMapper.nearestSearch.
  destruct (fold_left (PitchMapper.nearestStep rel) intervals (0, 12)) as [x d] eqn:Hfold.
  apply nearestSearch_fold in Hfold as [(_ & _ & Hfar) | (_ & _ & Hfirst)]; [| done].
  destruct intervals as [| y rest]; [done |].
  apply Forall_cons in Hall as [Hy _].
  pose proof (circularDistance_range rel y Hrel Hy).
  specialize (Hfar y ltac:(left)). lia.
Qed.

Lemma firstNearest_elem (rel target : Z) (intervals : list Z) :
  firstNearest rel target intervals -> target ∈ intervals.
Proof.
  intros (pre & post & -> & _). apply elem_of_app. right. left.
Qed.

Lemma firstNearest_least (rel target : Z) (intervals : list Z) (y : Z) :
  firstNearest rel target intervals -> y ∈ intervals ->
  PitchMapper.circularDistance rel target <= PitchMapper.circularDistance rel y.
Proof.
  intros (pre & post & -> & Hpre & Hpost) [Hy | [-> | Hy]%elem_of_cons]%elem_of_app.
  - specialize (Hpre y Hy). lia.
  - lia.
  - by apply Hpost.
Qed.

Lemma shortestAdjustment_spec (target rel : Z) :
  0 <= target <= 11 -> 0 <= rel <= 11 ->
  Z.abs (PitchMapper.shortestAdjustment target rel)
    = PitchMapper.circularDistance rel target /\
  (rel + PitchMapper.shortestAdjustment target rel) mod 12 = target.
Proof.
  intros Ht Hr. unfold PitchMapper.shortestAdjustment, PitchMapper.circularDistance.
  destruct (Z.ltb_spec 6 (target - rel)) as [H1 | H1].
  - destruct (Z.ltb_spec (target - rel - 12) (-6)); [lia |].
    split; [lia |].
    replace (rel + (target - rel - 12)) with (target + (-1) * 12) by lia.
    rewrite Z_mod_plus_full. apply Z.mod_small. lia.
  - destruct (Z.ltb_spec (target - rel) (-6)).
    + split; [lia |].
      replace (rel + (target - rel + 12)) with (target + 1 * 12) by lia.
      rewrite Z_mod_plus_full. apply Z.mod_small. lia.
    + split; [lia |].
      replace (rel + (target - rel)) with target by lia.
      apply Z.mod_small. lia.
Qed.

Lemma updateFromParameters_wellFormed (pm0 : PitchMapper.t) (key : Key)
    (scale : Scale) (voices : list PitchMapper.HarmonySettings) :
  wellFormed (PitchMapper.updateFromParameters pm0 key scale voices).
Proof.
  unfold wellFormed. simpl. repeat split.
  - destruct key; simpl; lia.
  - destruct key; simpl; lia.
  - destruct scale; discriminate.
  - destruct scale; simpl; repeat constructor; lia.
Qed.

Lemma existsb_eqb_elem (x : Z) (l : list Z) : existsb (Z.eqb x) l = true <-> x ∈ l.
Proof.
  rewrite existsb_exists. split.
  - intros (y & Hy & ->%Z.eqb_eq). by apply list_elem_of_In.
  - intros Hx%list_elem_of_In. exists x. split; [done | apply Z.eqb_refl].
Qed.

Lemma isNoteInScale_shift (pm : PitchMapper.t) (n a target : Z) :
  0 <= PitchMapper.keyRootNote pm <= 12 ->
  (PitchMapper.relativePitchClassOf pm n + a) mod 12 = target ->
  PitchMapper.relativePitchClassOf pm (n + a) = target.
Proof.
  intros Hk <-. rewrite !relativePitchClassOf_mod by done.
  rewrite Zplus_mod_idemp_l. f_equal. lia.
Qed.

(** The adjustment chosen for a note outside the scale. *)
Lemma quantizedNote_outside (pm : PitchMapper.t) (n : Z) :
  wellFormed pm -> PitchMapper.isNoteInScale pm n = false ->
  exists target,
    quantizedNote pm n
      = n + PitchMapper.shortestAdjustment target (PitchMapper.relativePitchClassOf pm n) /\
    firstNearest (PitchMapper.relativePitchClassOf pm n) target
      (PitchMapper.scaleIntervals pm) /\
    Z.abs (PitchMapper.shortestAdjustment target (PitchMapper.relativePitchClassOf pm n))
      = PitchMapper.circularDistance (PitchMapper.relativePitchClassOf pm n) target /\
    PitchMapper.relativePitchClassOf pm (quantizedNote pm n) = target.
Proof.
  intros (Hk & Hne & Hall) Hout.
  pose proof (relativePitchClassOf_range pm n Hk) as Hrel.
  pose proof (nearestSearch_first _ _ Hrel Hne Hall) as Hfirst.
  set (rel := PitchMapper.relativePitchClassOf pm n) in *.
  set (target := (PitchMapper.nearestSearch rel (PitchMapper.scaleIntervals pm)).1) in *.
  assert (0 <= target <= 11) as Ht.
  { pose proof (firstNearest_elem _ _ _ Hfirst) as Hin.
    rewrite Forall_forall in Hall. by apply Hall. }
  destruct (shortestAdjustment_spec target rel Ht Hrel) as [Habs Hmod].
  assert (quantizedNote pm n = n + PitchMapper.shortestAdjustment target rel) as Hq.
  { unfold quantizedNote. fold rel. unfold PitchMapper.isNoteInScale in Hout.
    fold rel in Hout. by rewrite Hout. }
  exists target. repeat split; [done | done | done |].
  rewrite Hq. by apply isNoteInScale_shift.
Qed.

Lemma quantizedNote_inside (pm : PitchMapper.t) (n : Z) :
  PitchMapper.isNoteInScale pm n = true -> quantizedNote pm n = n.
Proof.
  unfold PitchMapper.isNoteInScale, quantizedNote. by intros ->.
Qed.

Lemma quantizedNote_in_scale (pm : PitchMapper.t) (n : Z) :
  wellFormed pm -> PitchMapper.isNoteInScale pm (quantizedNote pm n) = true.
Proof.
  intros Hwf.
  destruct (PitchMapper.isNoteInScale pm n) eqn:Hin.
  - by rewrite quantizedNote_inside.
  - destruct (quantizedNote_outside pm n Hwf Hin) as (target & _ & Hfirst & _ & Hrel).
    unfold PitchMapper.isNoteInScale. rewrite Hrel.
    apply existsb_eqb_elem. by eapply firstNearest_elem.
Qed.

Lemma quantizedNote_near (pm : PitchMapper.t) (n : Z) :
  wellFormed pm -> Z.abs (quantizedNote pm n - n) <= 6.
Proof.
  intros Hwf.
  destruct (PitchMapper.isNoteInScale pm n) eqn:Hin.
  - rewrite quantizedNote_inside by done. lia.
  - destruct (quantizedNote_outside pm n Hwf Hin) as (target & -> & Hfirst & Habs & _).
    destruct Hwf as (Hk & _ & Hall).
    pose proof (relativePitchClassOf_range pm n Hk) as Hrel.
    assert (0 <= target <= 11) as Ht.
    { rewrite Forall_forall in Hall. apply Hall. by eapply firstNearest_elem. }
    pose proof (circularDistance_range _ _ Hrel Ht). lia.
Qed.

Lemma quantizeToScale_unfold (pm : PitchMapper.t) (m : f32) :
  PitchMapper.quantizeToScale pm m =
    if Scale_eqb (PitchMapper.currentScale pm) Chromatic then Some (fround m)
    else n ← to_int (fround m); Some (of_int (quantizedNote pm n)).
Proof.
  unfold PitchMapper.quantizeToScale, quantizedNote.
  destruct (Scale_eqb _ _); [done |].
  destruct (to_int (fround m)) as [n |]; simpl; [| done].
  by destruct (existsb _ _).
Qed.

(** ** Rounding a note to an integer *)

Lemma valid_finite (s : bool) (m : positive) (e : Z) :
  valid (S754_finite s m e) = true ->
  Zpos m < 2 ^ 24 /\ -149 <= e <= 104 /\
  (Zpos (digits2_pos m) = 24 \/ e = -149).
Proof.
  unfold valid, valid_binary, bounded, canonical_mantissa, fexp, emin, prec, emax.
  intros [Hc He]%andb_true_iff.
  apply Z.eqb_eq in Hc. apply Z.leb_le in He.
  assert (Zpos (digits2_pos m) <= 24) as Hd by lia.
  destruct (digits2_pos_bounds m) as [_ Hhi].
  assert (2 ^ Zpos (digits2_pos m) <= 2 ^ 24) by (apply Z.pow_le_mono_r; lia).
  lia.
Qed.

Lemma binary_round_full (s : bool) (p : positive) :
  Zpos (digits2_pos p) = 24 ->
  binary_round prec emax s p 0 = S754_finite s p 0.
Proof.
  intros Hd. unfold binary_round, shl_align.
  replace (fexp prec emax (Zpos (digits2_pos p) + 0)) with 0
    by (unfold fexp, emin, prec, emax; lia).
  simpl. apply round_aux_exact; lia.
Qed.

Lemma of_int_signed (s : bool) (p : positive) :
  of_int (cond_Zopp s (Zpos p)) = binary_round prec emax s p 0.
Proof. by destruct s. Qed.

Lemma shiftl_neg_le (a e : Z) : 0 <= a -> e < 0 -> 2 * Z.shiftl a e <= a.
Proof.
  intros Ha He. replace e with (- (- e)) by lia.
  rewrite Z.shiftl_opp_r, Z.shiftr_div_pow2 by lia.
  assert (2 <= 2 ^ (- e)) as Hp.
  { replace 2 with (2 ^ 1) at 1 by done. apply Z.pow_le_mono_r; lia. }
  pose proof (Z.mul_div_le a (2 ^ (- e)) ltac:(lia)) as Hm.
  assert (0 <= a / 2 ^ (- e)) by (apply Z.div_pos; lia).
  nia.
Qed.

Lemma cond_Zopp_abs_le (s : bool) (a : Z) : Z.abs (cond_Zopp s a) = Z.abs a.
Proof. destruct s; simpl; lia. Qed.

(** On a binary32 value whose rounded value converts to an [int] below
    2^24, [std::round] gives the float of that integer (or a zero). *)
Lemma fround_repr (m : f32) (n : Z) :
  valid m = true -> to_int (fround m) = Some n -> Z.abs n < 2 ^ 24 ->
  fround m = of_int n \/ (n = 0 /\ exists s, fround m = S754_zero s).
Proof.
  intros Hv Hn Hlt. destruct m as [s | s | | s mm e]; try discriminate.
  - right. simpl in Hn. injection Hn as <-. eauto.
  - destruct (valid_finite s mm e Hv) as (Hmm & He & Hd).
    unfold fround in *.
    destruct (Z.leb_spec 0 e) as [Hpos | Hneg].
    + left. destruct Hd as [Hd | ->]; [| lia].
      unfold to_int in Hn.
      destruct (_ && _); [| discriminate]. injection Hn as <-.
      rewrite cond_Zopp_abs_le, Z.shiftl_mul_pow2, Z.abs_mul in Hlt by lia.
      destruct (digits2_pos_bounds mm) as [Hlo _]. rewrite Hd in Hlo.
      assert (e = 0) as ->.
      { destruct (Z.eq_dec e 0); [done |].
        assert (2 ^ 1 <= 2 ^ e) by (apply Z.pow_le_mono_r; lia).
        rewrite (Z.abs_eq (2 ^ e)) in Hlt by lia. nia. }
      rewrite Z.shiftl_0_r, of_int_signed. symmetry. by apply binary_round_full.
    + pose proof (shiftl_neg_le (Zpos mm) e ltac:(lia) Hneg) as Hq.
      assert (0 <= Z.shiftl (Zpos mm) e) as Hq0 by (apply Z.shiftl_nonneg; lia).
      set (mag := if Z.testbit (Zpos mm) (- e - 1)
                  then Z.shiftl (Zpos mm) e + 1 else Z.shiftl (Zpos mm) e) in *.
      assert (0 <= mag < 2 ^ 24) as Hmag by (unfold mag; destruct (Z.testbit _ _); lia).
      destruct (Z.eqb_spec mag 0) as [Hz | Hnz].
      * right. simpl in Hn. injection Hn as <-. eauto.
      * left. fold (of_int (cond_Zopp s mag)) in *.
        rewrite to_int_of_int in Hn by (rewrite cond_Zopp_abs_le; lia).
        by injection Hn as <-.
Qed.

Lemma fround_idempotent (m : f32) (n : Z) :
  valid m = true -> to_int (fround m) = Some n -> Z.abs n < 2 ^ 24 ->
  fround (fround m) = fround m.
Proof.
  intros Hv Hn Hlt.
  destruct (fround_repr m n Hv Hn Hlt) as [-> | (_ & s & ->)]; [| done].
  by apply fround_of_int.
Qed.

Lemma feq_refl (x : f32) : is_nan x = false -> feq x x = true.
Proof.
  unfold feq, SFeqb. destruct x as [s | s | | s m e]; simpl; try done.
  - by destruct s.
  - intros _. destruct s; by rewrite Z.compare_refl, Pos.compare_cont_refl.
Qed.

Lemma of_int_not_nan (n : Z) : Z.abs n < 2 ^ 24 -> is_nan (of_int n) = false.
Proof.
  intros Hn. destruct (decide (n = 0)) as [-> | Hn0]; [done |].
  by destruct (of_int_form n Hn0 Hn) as (m & k & -> & _).
Qed.

Lemma feq_of_int_fround (m : f32) (n : Z) :
  valid m = true -> to_int (fround m) = Some n -> Z.abs n < 2 ^ 24 ->
  feq (of_int n) (fround m) = true.
Proof.
  intros Hv Hn Hlt.
  destruct (fround_repr m n Hv Hn Hlt) as [-> | (-> & s & ->)].
  - apply feq_refl. by apply of_int_not_nan.
  - done.
Qed.

(** ** Quantisation to the scale *)

(** C6.  [quantizeToScale] is idempotent for every key and every scale, on
    every note whose rounded value binary32 holds exactly with room for
    the adjustment (below 2^24 - 6 in magnitude): quantising the
    quantised note returns it.  A note whose rounded pitch class is in
    the scale is returned as that rounded note. *)
Theorem C6_quantizeToScale_idempotent (pm0 : PitchMapper.t) (key : Key)
    (scale : Scale) (voices : list PitchMapper.HarmonySettings) (m : f32) (n : Z) :
  let pm := PitchMapper.updateFromParameters pm0 key scale voices in
  valid m = true ->
  to_int (fround m) = Some n ->
  Z.abs n < 2 ^ 24 - 6 ->
  (exists r,
      PitchMapper.quantizeToScale pm m = Some r /\
      PitchMapper.quantizeToScale pm r = Some r) /\
  (PitchMapper.isNoteInScale pm n = true ->
   exists r,
      PitchMapper.quantizeToScale pm m = Some r /\
      feq r (fround m) = true /\ to_int r = Some n).
Proof.
  intros pm Hv Hn Hlt.
  pose proof (updateFromParameters_wellFormed pm0 key scale voices) as Hwf.
  fold pm in Hwf.
  rewrite !quantizeToScale_unfold.
  destruct (Scale_eqb (PitchMapper.currentScale pm) Chromatic) eqn:Hchr.
  - split.
    + exists (fround m). split; [done |].
      rewrite quantizeToScale_unfold, Hchr.
      f_equal. apply (fround_idempotent m n); [done | done | lia].
    + intros _. exists (fround m). repeat split; [| done].
      destruct (fround_repr m n Hv Hn ltac:(lia)) as [-> | (-> & s & ->)]; [| done].
      apply feq_refl, of_int_not_nan. lia.
  - rewrite Hn. simpl.
    pose proof (quantizedNote_near pm n Hwf) as Hnear.
    pose proof (quantizedNote_in_scale pm n Hwf) as Hin.
    split.
    + exists (of_int (quantizedNote pm n)). split; [done |].
      rewrite quantizeToScale_unfold, Hchr.
      rewrite fround_of_int, to_int_of_int by lia. simpl.
      by rewrite (quantizedNote_inside pm _ Hin).
    + intros Hscale. rewrite (quantizedNote_inside pm n Hscale).
      exists (of_int n). repeat split.
      * apply feq_of_int_fround; [done | done | lia].
      * apply to_int_of_int. lia.
Qed.

Lemma C6_quantizeToScale_idempotent_witness :
  let pm := PitchMapper.updateFromParameters PitchMapper.init G HarmonicMinor [] in
  let m := ratio 661 10 in
  valid m = true /\
  to_int (fround m) = Some 66 /\
  Z.abs 66 < 2 ^ 24 - 6 /\
  (exists r,
      PitchMapper.quantizeToScale pm m = Some r /\
      PitchMapper.quantizeToScale pm r = Some r) /\
  (PitchMapper.isNoteInScale pm 66 = true ->
   exists r,
      PitchMapper.quantizeToScale pm m = Some r /\
      feq r (fround m) = true /\ to_int r = Some 66).
Proof.
  intros pm m.
  assert (valid m = true) as Hv by reflexivity.
  assert (to_int (fround m) = Some 66) as Hn by reflexivity.
  assert (Z.abs 66 < 2 ^ 24 - 6) as Hlt by reflexivity.
  repeat split; try assumption;
    apply (C6_quantizeToScale_idempotent PitchMapper.init G HarmonicMinor [] m 66
             Hv Hn Hlt).
Defined.

(** For a note whose rounded pitch class is not in the scale,
    [quantizeToScale] adds to the rounded note the signed adjustment of
    least magnitude that reaches the interval at the least circular
    distance, and of the intervals at that distance it takes the one that
    comes first in the interval table: every interval before it in the
    table is strictly farther.  (For notes that binary32 holds exactly
    with room for the adjustment.) *)
Lemma quantizeToScale_nearest_first_in_table (pm0 : PitchMapper.t)
    (key : Key) (scale : Scale) (voices : list PitchMapper.HarmonySettings)
    (m : f32) (n : Z) :
  let pm := PitchMapper.updateFromParameters pm0 key scale voices in
  let rel := PitchMapper.relativePitchClassOf pm n in
  to_int (fround m) = Some n ->
  Z.abs n < 2 ^ 24 - 6 ->
  PitchMapper.isNoteInScale pm n = false ->
  exists target adjustment,
    PitchMapper.quantizeToScale pm m = Some (of_int (n + adjustment)) /\
    firstNearest rel target (PitchMapper.scaleIntervals pm) /\
    Z.abs adjustment = PitchMapper.circularDistance rel target /\
    PitchMapper.relativePitchClassOf pm (n + adjustment) = target.
Proof.
  intros pm rel Hn Hlt Hout.
  pose proof (updateFromParameters_wellFormed pm0 key scale voices) as Hwf.
  fold pm in Hwf.
  destruct (quantizedNote_outside pm n Hwf Hout) as (target & Hq & Hfirst & Habs & Hrel).
  fold rel in Hq, Hfirst, Habs.
  exists target, (PitchMapper.shortestAdjustment target rel).
  rewrite <- Hq. repeat split; try done.
  rewrite quantizeToScale_unfold.
  destruct (Scale_eqb (PitchMapper.currentScale pm) Chromatic) eqn:Hchr.
  - exfalso. destruct scale; try discriminate Hchr.
    destruct Hwf as (Hk & _).
    pose proof (relativePitchClassOf_range pm n Hk) as Hr.
    fold rel in Hr. unfold PitchMapper.isNoteInScale in Hout. fold rel in Hout.
    clearbody rel.
    assert (existsb (Z.eqb rel) (PitchMapper.scaleIntervals pm) = true) as Hall.
    { apply existsb_eqb_elem. simpl. unfold chromatic.
      assert (rel = 0 \/ rel = 1 \/ rel = 2 \/ rel = 3 \/ rel = 4 \/ rel = 5 \/
              rel = 6 \/ rel = 7 \/ rel = 8 \/ rel = 9 \/ rel = 10 \/ rel = 11)
        as Hcases by lia.
      repeat (destruct Hcases as [-> | Hcases]; [repeat constructor |]).
      subst rel. repeat constructor. }
    congruence.
  - by rewrite Hn.
Qed.

(** C5.  The tie of the nearest-interval search, on the example of the
    architecture guide: in C Major, E flat (MIDI 63, relative pitch class
    3) lies at circular distance 1 from both D (interval 2, below) and E
    (interval 4, above), no interval is nearer, and [quantizeToScale]
    returns D (MIDI 62): the result is adjusted downward, toward the
    interval that comes first in the table.  F sharp (MIDI 66) goes to F
    (MIDI 65) in the same way.  The result goes up only where the tie is
    between the last interval of the table and the root, which comes
    first: B (MIDI 71) in C Natural Minor goes to C (MIDI 72). *)
Theorem C5_tie_resolves_to_first_in_table :
  let cMajor := PitchMapper.updateFromParameters PitchMapper.init C Major [] in
  let cMinor := PitchMapper.updateFromParameters PitchMapper.init C NaturalMinor [] in
  (PitchMapper.isNoteInScale cMajor 63 = false /\
   PitchMapper.relativePitchClassOf cMajor 63 = 3 /\
   2 ∈ PitchMapper.scaleIntervals cMajor /\ 4 ∈ PitchMapper.scaleIntervals cMajor /\
   PitchMapper.circularDistance 3 2 = 1 /\ PitchMapper.circularDistance 3 4 = 1 /\
   forallb (fun y => 1 <=? PitchMapper.circularDistance 3 y)
     (PitchMapper.scaleIntervals cMajor) = true /\
   PitchMapper.quantizeToScale cMajor (of_int 63) = Some (of_int 62) /\
   flt (of_int 62) (of_int 63) = true) /\
  (PitchMapper.isNoteInScale cMajor 66 = false /\
   PitchMapper.relativePitchClassOf cMajor 66 = 6 /\
   5 ∈ PitchMapper.scaleIntervals cMajor /\ 7 ∈ PitchMapper.scaleIntervals cMajor /\
   PitchMapper.circularDistance 6 5 = 1 /\ PitchMapper.circularDistance 6 7 = 1 /\
   forallb (fun y => 1 <=? PitchMapper.circularDistance 6 y)
     (PitchMapper.scaleIntervals cMajor) = true /\
   PitchMapper.quantizeToScale cMajor (of_int 66) = Some (of_int 65) /\
   flt (of_int 65) (of_int 66) = true) /\
  (PitchMapper.isNoteInScale cMinor 71 = false /\
   PitchMapper.relativePitchClassOf cMinor 71 = 11 /\
   10 ∈ PitchMapper.scaleIntervals cMinor /\ 0 ∈ PitchMapper.scaleIntervals cMinor /\
   PitchMapper.circularDistance 11 10 = 1 /\ PitchMapper.circularDistance 11 0 = 1 /\
   forallb (fun y => 1 <=? PitchMapper.circularDistance 11 y)
     (PitchMapper.scaleIntervals cMinor) = true /\
   PitchMapper.quantizeToScale cMinor (of_int 71) = Some (of_int 72) /\
   flt (of_int 71) (of_int 72) = true).
Proof.
  intros cMajor cMinor.
  repeat split; try reflexivity; simpl; unfold major, naturalMinor; repeat constructor.
Qed.

(** ** Loops over buffers *)

Lemma for_range_snoc {S : Type} (n : nat) (lo : Z) (body : Z -> S -> S) (s : S) :
  for_range (Datatypes.S n) lo body s = body (lo + Z.of_nat n) (for_range n lo body s).
Proof.
  revert lo s. induction n as [| n IH]; intros lo s.
  - simpl. by rewrite Z.add_0_r.
  - change (for_range (Datatypes.S (Datatypes.S n)) lo body s)
      with (for_range (Datatypes.S n) (lo + 1) body (body lo s)).
    rewrite IH. simpl for_range. f_equal. lia.
Qed.

Lemma for_range_sumTo (n : nat) (f : Z -> f32) :
  for_range n 0 (fun j sum => fadd sum (f j)) zero = sumTo n f.
Proof.
  induction n as [| n IH]; [done |].
  rewrite for_range_snoc, IH. done.
Qed.

Lemma length_wr (v : list f32) (i : Z) (x : f32) : length (wr v i x) = length v.
Proof. unfold wr. destruct (i <? 0); [done | apply length_insert]. Qed.

Lemma rd_wr_same (v : list f32) (i : Z) (x : f32) :
  0 <= i < Z.of_nat (length v) -> rd (wr v i x) i = x.
Proof.
  intros Hi. unfold rd, wr. destruct (Z.ltb_spec i 0); [lia |].
  rewrite list_lookup_insert_eq by lia. done.
Qed.

Lemma rd_wr_other (v : list f32) (i j : Z) (x : f32) :
  i <> j -> rd (wr v i x) j = rd v j.
Proof.
  intros Hij. unfold rd, wr.
  destruct (Z.ltb_spec i 0); [done |].
  destruct (Z.ltb_spec j 0); [done |].
  rewrite list_lookup_insert_ne by lia. done.
Qed.

Lemma rd_outside (v : list f32) (i : Z) :
  Z.of_nat (length v) <= i -> rd v i = zero.
Proof.
  intros Hi. unfold rd. destruct (Z.ltb_spec i 0); [done |].
  rewrite lookup_ge_None_2 by lia. done.
Qed.

Lemma wr_outside (v : list f32) (i : Z) (x : f32) :
  Z.of_nat (length v) <= i -> wr v i x = v.
Proof.
  intros Hi. unfold wr. destruct (Z.ltb_spec i 0); [done |].
  apply list_insert_ge. lia.
Qed.

(** A loop that rewrites element [i] from its own old value leaves, at
    every index it visits inside the buffer, the rewritten value, and
    leaves the others as they were. *)
Lemma for_range_pointwise (F : Z -> f32 -> f32) (n : nat) (lo : Z) (v : list f32) (i : Z) :
  0 <= lo ->
  length (for_range n lo (fun i v => wr v i (F i (rd v i))) v) = length v /\
  rd (for_range n lo (fun i v => wr v i (F i (rd v i))) v) i =
    if (lo <=? i) && (i <? lo + Z.of_nat n) && (i <? Z.of_nat (length v))
    then F i (rd v i) else rd v i.
Proof.
  revert lo v. induction n as [| n IH]; intros lo v Hlo.
  - simpl. split; [done |].
    destruct (Z.leb_spec lo i), (Z.ltb_spec i (lo + Z.of_nat 0)); simpl; try done; lia.
  - simpl for_range.
    destruct (IH (lo + 1) (wr v lo (F lo (rd v lo))) ltac:(lia)) as [Hlen Hrd].
    rewrite Hlen, Hrd, !length_wr. split; [done |].
    destruct (Z.eq_dec i lo) as [-> | Hne].
    + destruct (Z.leb_spec (lo + 1) lo); [lia |]. simpl.
      destruct (Z.leb_spec lo lo); [| lia].
      destruct (Z.ltb_spec lo (lo + Z.of_nat (Datatypes.S n))); [| lia]. simpl.
      destruct (Z.ltb_spec lo (Z.of_nat (length v))).
      * by apply rd_wr_same.
      * by rewrite wr_outside.
    + rewrite rd_wr_other by done.
      destruct (Z.leb_spec (lo + 1) i), (Z.leb_spec lo i),
        (Z.ltb_spec i (lo + 1 + Z.of_nat n)),
        (Z.ltb_spec i (lo + Z.of_nat (Datatypes.S n))); simpl; try done; lia.
Qed.

(** ** The YIN difference function *)

Lemma differenceSum_sumTo (x : list f32) (yinSize tau : Z) :
  PitchDetector.differenceSum x yinSize tau
    = sumTo (Z.to_nat yinSize) (squaredDifference x tau).
Proof.
  unfold PitchDetector.differenceSum, for_loop. rewrite Z.sub_0_r.
  apply (for_range_sumTo (Z.to_nat yinSize) (squaredDifference x tau)).
Qed.

Lemma computeDifferenceFunction_read (x : list f32) (W : Z) (yb : list f32) (tau : Z) :
  length (PitchDetector.computeDifferenceFunction x W yb) = length yb /\
  rd (PitchDetector.computeDifferenceFunction x W yb) tau =
    if (1 <=? tau) && (tau <? Z.quot W 2) && (tau <? Z.of_nat (length yb))
    then PitchDetector.differenceSum x (Z.quot W 2) tau
    else rd (wr yb 0 zero) tau.
Proof.
  unfold PitchDetector.computeDifferenceFunction, for_loop.
  destruct (for_range_pointwise
              (fun tau _ => PitchDetector.differenceSum x (Z.quot W 2) tau)
              (Z.to_nat (Z.quot W 2 - 1)) 1 (wr yb 0 zero) tau ltac:(lia))
    as [Hlen Hrd].
  rewrite Hlen, Hrd, length_wr. split; [done |].
  destruct (Z.leb_spec 1 tau); [| done]. simpl.
  destruct (Z.ltb_spec tau (1 + Z.of_nat (Z.to_nat (Z.quot W 2 - 1)))),
    (Z.ltb_spec tau (Z.quot W 2)); try done; lia.
Qed.

(** For a frame [x] of size [W] and a lag [tau] in 1..W/2-1, the
    difference function stored by the estimator is the sum of
    [(x[j] - x[j + tau])^2] over the [W/2] indices [j < W/2]: the inner sum
    has the same length for every lag. *)
Lemma computeDifferenceFunction_fixed_window (x : list f32) (W : Z)
    (yb : list f32) (tau : Z) :
  Z.of_nat (length yb) = Z.quot W 2 ->
  1 <= tau < Z.quot W 2 ->
  rd (PitchDetector.computeDifferenceFunction x W yb) tau
    = differenceOverHalfFrame x W tau.
Proof.
  intros Hlen Htau.
  destruct (computeDifferenceFunction_read x W yb tau) as [_ ->].
  destruct (Z.leb_spec 1 tau); [| lia].
  destruct (Z.ltb_spec tau (Z.quot W 2)); [| lia].
  destruct (Z.ltb_spec tau (Z.of_nat (length yb))); [| lia]. simpl.
  apply differenceSum_sumTo.
Qed.

(** C4.  The frame 0, 1, 0, 1, 0, 1, 0, 1 of size 8, in which every
    term [(x[j] - x[j + tau])^2] of an odd lag is 1.  At lag 1 and at lag
    3 alike the estimator adds the 4 terms [j < 4] and stores 4: the
    length of its sum does not depend on the lag.  The sum over
    [j < W - tau] has 7 terms at lag 1 and 5 at lag 3, and the sum that
    the comment of the function writes, to [W' - tau - 1] with [W'] the
    half frame, has 3 terms and 1 term. *)
Theorem C4_difference_sum_length_ignores_lag :
  let x := [zero; one; zero; one; zero; one; zero; one] in
  let yinBuffer := PitchDetector.computeDifferenceFunction x 8 (replicate 4 zero) in
  (rd yinBuffer 1 = of_int 4 /\
   differenceOverFrame x 8 1 = of_int 7 /\
   differenceOverShrinkingWindow x 8 1 = of_int 3 /\
   feq (rd yinBuffer 1) (differenceOverFrame x 8 1) = false) /\
  (rd yinBuffer 3 = of_int 4 /\
   differenceOverFrame x 8 3 = of_int 5 /\
   differenceOverShrinkingWindow x 8 3 = of_int 1 /\
   feq (rd yinBuffer 3) (differenceOverFrame x 8 3) = false).
Proof. repeat split; vm_compute; reflexivity. Qed.

(** ** The estimator on a silent frame *)

Lemma rd_all_zero (x : list f32) (i : Z) :
  Forall (fun s => isZero s = true) x -> isZero (rd x i) = true.
Proof.
  intros Hall. unfold rd. destruct (i <? 0); [done |].
  destruct (x !! Z.to_nat i) as [s |] eqn:Hs; [| done].
  rewrite Forall_forall in Hall. apply Hall. by eapply list_elem_of_lookup_2.
Qed.

Lemma squaredDifference_silent (x : list f32) (tau j : Z) :
  Forall (fun s => isZero s = true) x -> squaredDifference x tau j = zero.
Proof.
  intros Hall. unfold squaredDifference.
  pose proof (rd_all_zero x j Hall) as H1.
  pose proof (rd_all_zero x (j + tau) Hall) as H2.
  destruct (rd x j) as [[] | | |]; try discriminate;
    destruct (rd x (j + tau)) as [[] | | |]; try discriminate; reflexivity.
Qed.

Lemma differenceSum_silent (x : list f32) (yinSize tau : Z) :
  Forall (fun s => isZero s = true) x ->
  PitchDetector.differenceSum x yinSize tau = zero.
Proof.
  intros Hall. rewrite differenceSum_sumTo.
  induction (Z.to_nat yinSize) as [| k IH]; [done |].
  simpl. by rewrite IH, squaredDifference_silent.
Qed.

Lemma rd_negative (v : list f32) (i : Z) : i < 0 -> rd v i = zero.
Proof. intros Hi. unfold rd. destruct (Z.ltb_spec i 0); [done | lia]. Qed.

Lemma computeDifferenceFunction_silent (x : list f32) (W : Z) (yb : list f32) (i : Z) :
  Forall (fun s => isZero s = true) x ->
  Z.of_nat (length yb) = Z.quot W 2 ->
  rd (PitchDetector.computeDifferenceFunction x W yb) i = zero.
Proof.
  intros Hall Hlen.
  destruct (computeDifferenceFunction_read x W yb i) as [_ ->].
  destruct (Z.leb_spec 1 i) as [H1 | H1]; simpl.
  - destruct (Z.ltb_spec i (Z.quot W 2)) as [H2 | H2]; simpl.
    + destruct (Z.ltb_spec i (Z.of_nat (length yb))); [| lia].
      by apply differenceSum_silent.
    + apply rd_outside. rewrite length_wr. lia.
  - destruct (Z.eq_dec i 0) as [-> | Hne].
    + destruct (Z.ltb_spec 0 (Z.of_nat (length yb))).
      * apply rd_wr_same. lia.
      * apply rd_outside. rewrite length_wr. lia.
    + apply rd_negative. lia.
Qed.

(** On a buffer that is zero from [lo] on, the normalisation loop keeps
    the running sum at zero and stores 1 at every index it visits. *)
Lemma cmnd_silent (n : nat) (lo : Z) (yb : list f32) :
  0 <= lo ->
  (forall i, lo <= i -> rd yb i = zero) ->
  exists yb',
    for_range n lo PitchDetector.cmnd_body (yb, zero) = (yb', zero) /\
    length yb' = length yb /\
    forall i, rd yb' i =
      if (lo <=? i) && (i <? lo + Z.of_nat n) && (i <? Z.of_nat (length yb))
      then one else rd yb i.
Proof.
  revert lo yb. induction n as [| n IH]; intros lo yb Hlo Hzero.
  - exists yb. repeat split. intros i.
    destruct (Z.leb_spec lo i), (Z.ltb_spec i (lo + Z.of_nat 0)); simpl; try done; lia.
  - simpl for_range.
    set (scaled := wr yb lo (fmul zero (fdiv (of_int lo) zero))).
    assert (PitchDetector.cmnd_body lo (yb, zero) = (wr scaled lo one, zero)) as ->.
    { unfold PitchDetector.cmnd_body, PitchDetector.cmnd_accumulate.
      cbn [fst snd]. rewrite (Hzero lo) by lia.
      change (fadd zero zero) with zero.
      unfold PitchDetector.cmnd_scale. cbn [fst snd].
      unfold PitchDetector.cmnd_guard. cbn [fst snd].
      change (fgt zero zero) with false. cbn iota.
      rewrite (Hzero lo) by lia. reflexivity. }
    destruct (IH (lo + 1) (wr scaled lo one) ltac:(lia)) as (yb' & -> & Hlen & Hrd).
    { intros i Hi. unfold scaled. rewrite !rd_wr_other by lia. apply Hzero. lia. }
    exists yb'. split; [done |].
    unfold scaled in *. rewrite !length_wr in Hlen, Hrd. split; [done |].
    intros i. rewrite Hrd.
    destruct (Z.eq_dec i lo) as [-> | Hne].
    + destruct (Z.leb_spec (lo + 1) lo); [lia |]. simpl.
      destruct (Z.leb_spec lo lo); [| lia].
      destruct (Z.ltb_spec lo (lo + Z.of_nat (S n))); [| lia]. simpl.
      destruct (Z.ltb_spec lo (Z.of_nat (length yb))).
      * apply rd_wr_same. rewrite length_wr. lia.
      * rewrite !wr_outside by (rewrite ?length_wr; lia). done.
    + rewrite !rd_wr_other by done.
      destruct (Z.leb_spec (lo + 1) i), (Z.leb_spec lo i),
        (Z.ltb_spec i (lo + 1 + Z.of_nat n)),
        (Z.ltb_spec i (lo + Z.of_nat (S n))); simpl; try done; lia.
Qed.

Lemma cmnd_silent_buffer (yb : list f32) :
  (forall i, rd yb i = zero) ->
  length (PitchDetector.computeCumulativeMeanNormalizedDifference yb) = length yb /\
  forall i, 0 <= i < Z.of_nat (length yb) ->
    rd (PitchDetector.computeCumulativeMeanNormalizedDifference yb) i = one.
Proof.
  intros Hzero. unfold PitchDetector.computeCumulativeMeanNormalizedDifference, for_loop.
  destruct (cmnd_silent (Z.to_nat (Z.of_nat (length (wr yb 0 one)) - 1)) 1 (wr yb 0 one)
              ltac:(lia)) as (yb' & -> & Hlen & Hrd).
  { intros i Hi. rewrite rd_wr_other by lia. apply Hzero. }
  simpl. rewrite length_wr in Hlen, Hrd. split; [done |].
  intros i Hi. rewrite Hrd.
  destruct (Z.eq_dec i 0) as [-> | Hne].
  - simpl. apply rd_wr_same. lia.
  - destruct (Z.leb_spec 1 i); [| lia].
    destruct (Z.ltb_spec i (1 + Z.of_nat (Z.to_nat (Z.of_nat (length yb) - 1)))); [| lia].
    destruct (Z.ltb_spec i (Z.of_nat (length yb))); [done | lia].
Qed.

Lemma firstDip_ones (n : nat) (yb : list f32) (maxTau tau : Z) :
  (forall i, tau <= i < tau + Z.of_nat n -> rd yb i = one) ->
  PitchDetector.firstDip n yb maxTau tau = None.
Proof.
  revert tau. induction n as [| n IH]; intros tau Hones; [done |].
  simpl. rewrite (Hones tau) by lia.
  change (flt one DSPConfig.yinThreshold) with false. cbn iota.
  apply IH. intros i Hi. apply Hones. lia.
Qed.

Lemma globalMinimum_ones (yb : list f32) (minTau maxTau : Z) :
  rd yb minTau = one ->
  (forall i, minTau + 1 <= i < maxTau -> rd yb i = one) ->
  PitchDetector.globalMinimum yb minTau maxTau = (one, minTau).
Proof.
  intros Hfirst Hones. unfold PitchDetector.globalMinimum, for_loop. rewrite Hfirst.
  assert (forall (n : nat) (t : Z),
             (forall i, t <= i < t + Z.of_nat n -> rd yb i = one) ->
             for_range n t
               (fun t acc => if flt (rd yb t) acc.1 then (rd yb t, t) else acc)
               (one, minTau) = (one, minTau)) as Hloop.
  { induction n as [| n IH]; intros t Ht; [done |].
    simpl for_range. rewrite (Ht t) by lia.
    change (flt one (one, minTau).1) with false. cbn iota.
    apply IH. intros i Hi. apply Ht. lia. }
  apply Hloop. intros i Hi. apply Hones. lia.
Qed.

Lemma tauBounds_range (d : PitchDetector.t) (lo hi : Z) :
  PitchDetector.tauBounds d = Some (lo, hi) ->
  2 <= lo /\ hi <= Z.of_nat (length (PitchDetector.yinBuffer d)) - 1.
Proof.
  unfold PitchDetector.tauBounds.
  destruct (Float64.to_int _) as [b |];
    destruct (Float64.to_int _) as [a |]; simpl; try discriminate.
  intros [= <- <-]. lia.
Qed.

Lemma tauBounds_set_yinBuffer (d : PitchDetector.t) (yb : list f32) :
  length yb = length (PitchDetector.yinBuffer d) ->
  PitchDetector.tauBounds (PitchDetector.set_yinBuffer d yb) = PitchDetector.tauBounds d.
Proof.
  intros Hlen. unfold PitchDetector.tauBounds. simpl. by rewrite Hlen.
Qed.

Lemma absoluteThreshold_ones (d : PitchDetector.t) (lo hi : Z) :
  PitchDetector.tauBounds d = Some (lo, hi) ->
  lo < Z.of_nat (length (PitchDetector.yinBuffer d)) ->
  (forall i, 0 <= i < Z.of_nat (length (PitchDetector.yinBuffer d)) ->
             rd (PitchDetector.yinBuffer d) i = one) ->
  PitchDetector.absoluteThreshold d = Some zero.
Proof.
  intros Hb Hlo Hones.
  destruct (tauBounds_range d lo hi Hb) as [Hlo2 Hhi].
  unfold PitchDetector.absoluteThreshold. rewrite Hb. simpl.
  rewrite firstDip_ones by (intros i Hi; apply Hones; lia).
  rewrite globalMinimum_ones by (try (intros i Hi); apply Hones; lia).
  reflexivity.
Qed.

(** The analysis of a silent frame, with the state of the detector
    spelled out: the YIN buffer has half the frame's length, the lag
    bounds are [lo] and [hi], and [lo] is an index of the buffer. *)
Lemma analyse_silent_frame `{Libm} (d : PitchDetector.t)
    (frame : list f32) (lo hi : Z) :
  Forall (fun s => isZero s = true) frame ->
  Z.of_nat (length (PitchDetector.yinBuffer d)) = Z.quot (PitchDetector.frameSize d) 2 ->
  PitchDetector.tauBounds d = Some (lo, hi) ->
  lo < Z.of_nat (length (PitchDetector.yinBuffer d)) ->
  exists d',
    PitchDetector.analyse d frame = Some d' /\
    PitchDetector.isVoiced d' = false /\
    PitchDetector.getConfidence d' = zero /\
    PitchDetector.getFrequencyHz d' = zero /\
    PitchDetector.getMidiNote d' = zero.
Proof.
  intros Hsilent Hprep Hb Hlo.
  unfold PitchDetector.analyse.
  set (yb1 := PitchDetector.computeDifferenceFunction frame (PitchDetector.frameSize d)
                (PitchDetector.yinBuffer d)).
  assert (length yb1 = length (PitchDetector.yinBuffer d)) as Hlen1
    by apply (computeDifferenceFunction_read frame _ _ 0).
  assert (forall i, rd yb1 i = zero) as Hzero
    by (intros i; by apply computeDifferenceFunction_silent).
  cbn [PitchDetector.yinBuffer PitchDetector.set_yinBuffer].
  set (yb2 := PitchDetector.computeCumulativeMeanNormalizedDifference yb1).
  destruct (cmnd_silent_buffer yb1 Hzero) as [Hlen2 Hones]. fold yb2 in Hlen2, Hones.
  set (d2 := PitchDetector.set_yinBuffer (PitchDetector.set_yinBuffer d yb1) yb2).
  assert (PitchDetector.absoluteThreshold d2 = Some zero) as Habs.
  { apply (absoluteThreshold_ones d2 lo hi).
    - unfold d2. rewrite !tauBounds_set_yinBuffer; simpl; congruence.
    - simpl. lia.
    - simpl. intros i Hi. apply Hones. lia. }
  rewrite Habs. simpl.
  change (fgt zero zero) with false. cbn iota.
  eexists. split; [reflexivity |]. done.
Qed.

Lemma readyForAnalysis_spec (d : PitchDetector.t) :
  readyForAnalysis d = true ->
  Z.of_nat (length (PitchDetector.yinBuffer d)) = Z.quot (PitchDetector.frameSize d) 2 /\
  exists lo hi,
    PitchDetector.tauBounds d = Some (lo, hi) /\
    lo < Z.of_nat (length (PitchDetector.yinBuffer d)).
Proof.
  unfold readyForAnalysis. intros [Hlen Hb]%andb_true_iff.
  apply Z.eqb_eq in Hlen. split; [done |].
  destruct (PitchDetector.tauBounds d) as [[lo hi] |]; [| done].
  apply Z.ltb_lt in Hb. eauto.
Qed.

(** [prepare] and [setInputType] leave the detector ready for analysis
    at every standard sample rate and for every voice type. *)
Lemma standard_configurations_ready :
  forallb (fun sr => forallb (fun ty => readyForAnalysis (preparedDetector sr ty)) inputTypes)
    standardRates = true.
Proof. vm_compute. reflexivity. Qed.

(** C3.  On an analysis frame of zero samples the estimator ends the
    analysis with [voiced = false] and [confidence = 0] (and with
    frequency and note reset to 0): the analysis returns a state, that
    is, it does not fail, for every detector that is ready for
    analysis. *)
Theorem C3_silent_frame_is_unvoiced `{Libm} (d : PitchDetector.t) (frame : list f32) :
  Forall (fun s => isZero s = true) frame ->
  readyForAnalysis d = true ->
  exists d',
    PitchDetector.analyse d frame = Some d' /\
    PitchDetector.isVoiced d' = false /\
    PitchDetector.getConfidence d' = zero /\
    PitchDetector.getFrequencyHz d' = zero /\
    PitchDetector.getMidiNote d' = zero.
Proof.
  intros Hsilent Hready.
  destruct (readyForAnalysis_spec d Hready) as (Hprep & lo & hi & Hb & Hlo).
  exact (analyse_silent_frame d frame lo hi Hsilent Hprep Hb Hlo).
Qed.

Lemma C3_silent_frame_is_unvoiced_witness :
  let d := preparedDetector 8000 Instrument in
  let frame := replicate 512 zero in
  Forall (fun s => isZero s = true) frame /\
  readyForAnalysis d = true /\
  exists d',
    @PitchDetector.analyse saturatingLibm d frame = Some d' /\
    PitchDetector.isVoiced d' = false /\
    PitchDetector.getConfidence d' = zero /\
    PitchDetector.getFrequencyHz d' = zero /\
    PitchDetector.getMidiNote d' = zero.
Proof.
  intros d frame.
  assert (Forall (fun s => isZero s = true) frame) as Hsilent
    by (apply Forall_replicate; reflexivity).
  assert (readyForAnalysis d = true) as Hready by (vm_compute; reflexivity).
  split; [exact Hsilent |]. split; [exact Hready |].
  exact (@C3_silent_frame_is_unvoiced saturatingLibm d frame Hsilent Hready).
Defined.

(** A silent frame at every standard sample rate and for every voice
    type, on the detector as [prepare] leaves it. *)
Lemma silent_frame_unvoiced_at_standard_rates `{Libm} (sr : Z) (ty : InputType)
    (frame : list f32) :
  sr ∈ standardRates -> ty ∈ inputTypes ->
  Forall (fun s => isZero s = true) frame ->
  exists d',
    PitchDetector.analyse (preparedDetector sr ty) frame = Some d' /\
    PitchDetector.isVoiced d' = false /\
    PitchDetector.getConfidence d' = zero.
Proof.
  intros Hsr Hty Hsilent.
  pose proof standard_configurations_ready as Hall.
  rewrite forallb_forall in Hall. specialize (Hall sr).
  rewrite <- list_elem_of_In in Hall. specialize (Hall Hsr).
  rewrite forallb_forall in Hall. specialize (Hall ty).
  rewrite <- list_elem_of_In in Hall. specialize (Hall Hty).
  destruct (readyForAnalysis_spec _ Hall) as (Hprep & lo & hi & Hb & Hlo).
  destruct (analyse_silent_frame _ frame lo hi Hsilent Hprep Hb Hlo)
    as (d' & Hd' & Hv & Hc & _).
  eauto.
Qed.

(** ** Division by a zero cumulative sum *)

(** C2 on the silent frame of 8 samples.  The cumulative sum of the
    difference function is zero at every lag.  At lag 1 the statement
    [yinBuffer[tau] *= tau / cumulativeSum] runs before the test
    [cumulativeSum > 0]: it divides by zero and stores a NaN in
    [yinBuffer[1]]; the test then overwrites it with 1, the value the
    whole buffer holds when the function returns. *)
Theorem C2_normalisation_divides_by_zero_sum :
  let frame := replicate 8 zero in
  let yb := PitchDetector.computeDifferenceFunction frame 8 (replicate 4 zero) in
  let entry := (wr yb 0 one, zero) in
  yb = [zero; zero; zero; zero] /\
  PitchDetector.cmnd_accumulate 1 entry = ([one; zero; zero; zero], zero) /\
  fdiv (of_int 1) zero = S754_infinity false /\
  PitchDetector.cmnd_scale 1 (PitchDetector.cmnd_accumulate 1 entry)
    = ([one; S754_nan; zero; zero], zero) /\
  PitchDetector.cmnd_body 1 entry = ([one; one; zero; zero], zero) /\
  PitchDetector.computeCumulativeMeanNormalizedDifference yb = [one; one; one; one].
Proof. repeat split; vm_compute; reflexivity. Qed.

(** ** The similarity score of the grain search *)

(** When the norm of the score is not above [1e-10f], and so when it is
    zero or a NaN, the score is 0. *)
Lemma correlationScore_guard (grain output : list f32) (windowSize pos : Z) :
  let '(correlation, normGrain, normOutput) :=
    PitchShifter.correlationSums grain output windowSize pos in
  fgt (fsqrt (fmul normGrain normOutput)) PitchDetector.tiny = false ->
  PitchShifter.correlationScore grain output windowSize pos = zero.
Proof.
  unfold PitchShifter.correlationScore.
  destruct (PitchShifter.correlationSums grain output windowSize pos)
    as [[correlation normGrain] normOutput].
  by intros ->.
Qed.

Lemma correlationSums_silent_output (grain output : list f32) (windowSize pos : Z) :
  Forall (fun s => isZero s = true) output ->
  (PitchShifter.correlationSums grain output windowSize pos).2 = zero.
Proof.
  intros Hsilent. unfold PitchShifter.correlationSums, for_loop.
  match goal with |- context [for_range ?k _ ?b _] => set (body := b); generalize k end.
  assert (forall i c ng, exists c' ng', body i (c, ng, zero) = (c', ng', zero)) as Hstep.
  { intros i c ng. unfold body.
    match goal with
    | |- context [rd output ?p] =>
        pose proof (rd_all_zero output p Hsilent) as Hz;
        destruct (rd output p) as [s | | |]; try discriminate
    end.
    replace (fadd zero (fmul (S754_zero s) (S754_zero s))) with zero by (by destruct s).
    eauto. }
  clearbody body.
  assert (forall n lo c ng, (for_range n lo body (c, ng, zero)).2 = zero) as Hloop.
  { induction n as [| n IH]; intros lo c ng; [done |].
    simpl for_range. destruct (Hstep lo c ng) as (c' & ng' & ->). apply IH. }
  intros n. apply Hloop.
Qed.

(** On an output buffer of zero samples the norm of the score is zero (or
    a NaN when the grain's energy overflows) and the score is 0 for every
    grain and every candidate position. *)
Lemma correlationScore_silent_output (grain output : list f32) (windowSize pos : Z) :
  Forall (fun s => isZero s = true) output ->
  PitchShifter.correlationScore grain output windowSize pos = zero.
Proof.
  intros Hsilent.
  pose proof (correlationSums_silent_output grain output windowSize pos Hsilent) as Hno.
  pose proof (correlationScore_guard grain output windowSize pos) as Hguard.
  destruct (PitchShifter.correlationSums grain output windowSize pos)
    as [[correlation normGrain] normOutput].
  simpl in Hno. subst normOutput. apply Hguard.
  destruct normGrain as [[] | [] | | [] m e]; reflexivity.
Qed.

(** ** Rounding a quotient to binary32 *)

Lemma digits2_pos_ge (p : positive) (k : Z) :
  0 <= k -> 2 ^ k <= Zpos p -> k + 1 <= Zpos (digits2_pos p).
Proof.
  intros Hk Hp. destruct (digits2_pos_bounds p) as [_ Hhi].
  destruct (Z_le_gt_dec (k + 1) (Zpos (digits2_pos p))) as [| Hgt]; [done |].
  assert (2 ^ Zpos (digits2_pos p) <= 2 ^ k) by (apply Z.pow_le_mono_r; lia).
  lia.
Qed.

Lemma round_nearest_even_range (m : Z) (l : location) :
  m <= round_nearest_even m l <= m + 1.
Proof.
  unfold round_nearest_even.
  destruct l as [| []]; try lia. destruct (Z.even m); lia.
Qed.

Lemma loc_of_shr_record_of_loc (m : Z) (l : location) :
  loc_of_shr_record (shr_record_of_loc m l) = l.
Proof. by destruct l as [| []]. Qed.

Lemma shr_m_of_loc (m : Z) (l : location) : shr_m (shr_record_of_loc m l) = m.
Proof. by destruct l as [| []]. Qed.

Lemma shr_1_half (p : positive) (l : location) :
  shr_m (shr_1 (shr_record_of_loc (Zpos p) l)) = Zpos p / 2.
Proof.
  destruct l as [| []]; destruct p as [p | p |]; simpl shr_m;
    first [ reflexivity
          | apply Z.div_unique with 1; lia
          | apply Z.div_unique with 0; lia ].
Qed.

(** The last step of [binary_round_aux] on a mantissa of at most 24 bits,
    or on 2^24. *)
Lemma round_aux_finish (sx : bool) (q : positive) (e : Z) :
  Zpos q <= 2 ^ 24 -> -149 <= e <= 103 ->
  (let '(mrs, e') := shr_fexp prec emax (Zpos q) e loc_Exact in
   match shr_m mrs with
   | Z0 => S754_zero sx
   | Zpos m => if e' <=? emax - prec then S754_finite sx m e' else S754_infinity sx
   | Zneg _ => S754_nan
   end)
  = if Zpos q <? 2 ^ 24 then S754_finite sx q e
    else S754_finite sx 8388608 (e + 1).
Proof.
  intros Hq He. unfold shr_fexp, fexp, emin, prec, emax. simpl Zdigits2.
  destruct (Z.ltb_spec (Zpos q) (2 ^ 24)) as [Hlt | Hge].
  - pose proof (digits2_pos_le q 24 ltac:(lia) Hlt) as Hd.
    assert (Z.max (Zpos (digits2_pos q) + e - 24) (3 - 128 - 24) - e <= 0) as Hn by lia.
    destruct (Z.max (Zpos (digits2_pos q) + e - 24) (3 - 128 - 24) - e) as [| n | n];
      try lia; simpl; destruct (Z.leb_spec e (128 - 24)); try done; lia.
  - assert (q = 16777216%positive) as -> by lia.
    change (Zpos (digits2_pos 16777216)) with 25.
    replace (Z.max (25 + e - 24) (3 - 128 - 24) - e) with 1 by lia.
    simpl. destruct (Z.leb_spec (e + 1) (128 - 24)); [done | lia].
Qed.

(** The result of [binary_round_aux] on a quotient of 24 or 25 bits (or
    fewer): the mantissa is the quotient, or its half, rounded up by at
    most one, and a carry into bit 24 moves the exponent up by one. *)
Lemma round_aux_form (sx : bool) (q : positive) (e : Z) (l : location) :
  Zpos q < 2 ^ 25 -> -149 <= e <= 101 ->
  exists m' e',
    binary_round_aux prec emax sx (Zpos q) e l = S754_finite sx m' e' /\
    ((Zpos q < 2 ^ 24 /\
      ((e' = e /\ Zpos m' <= Zpos q + 1) \/
       (e' = e + 1 /\ m' = 8388608%positive))) \/
     (2 ^ 24 <= Zpos q /\
      ((e' = e + 1 /\ Zpos m' <= Zpos q / 2 + 1) \/
       (e' = e + 2 /\ m' = 8388608%positive /\ 2 ^ 24 <= Zpos q / 2 + 1)))).
Proof.
  intros Hq He. unfold binary_round_aux.
  destruct (Z_lt_le_dec (Zpos q) (2 ^ 24)) as [Hlt | Hge].
  - assert (shr_fexp prec emax (Zpos q) e l = (shr_record_of_loc (Zpos q) l, e)) as ->.
    { unfold shr_fexp, fexp, emin, prec, emax. simpl Zdigits2.
      pose proof (digits2_pos_le q 24 ltac:(lia) Hlt) as Hd.
      assert (Z.max (Zpos (digits2_pos q) + e - 24) (3 - 128 - 24) - e <= 0) as Hn by lia.
      destruct (Z.max (Zpos (digits2_pos q) + e - 24) (3 - 128 - 24) - e); try lia; done. }
    rewrite shr_m_of_loc, loc_of_shr_record_of_loc.
    pose proof (round_nearest_even_range (Zpos q) l) as Hr.
    destruct (round_nearest_even (Zpos q) l) as [| q' | q'] eqn:Hq'; try lia.
    rewrite (round_aux_finish sx q' e) by lia.
    destruct (Z.ltb_spec (Zpos q') (2 ^ 24)).
    + exists q', e. split; [done |]. left. split; [done |]. left. lia.
    + exists 8388608%positive, (e + 1). split; [done |]. left. split; [done |]. by right.
  - assert (Zpos (digits2_pos q) = 25) as Hd.
    { pose proof (digits2_pos_le q 25 ltac:(lia) Hq).
      pose proof (digits2_pos_ge q 24 ltac:(lia) Hge). lia. }
    assert (shr_fexp prec emax (Zpos q) e l
            = (shr_1 (shr_record_of_loc (Zpos q) l), e + 1)) as ->.
    { unfold shr_fexp, fexp, emin, prec, emax. simpl Zdigits2. rewrite Hd.
      replace (Z.max (25 + e - 24) (3 - 128 - 24) - e) with 1 by lia. done. }
    rewrite shr_1_half.
    assert (2 ^ 23 <= Zpos q / 2 < 2 ^ 24) as Hhalf.
    { split.
      - apply Z.div_le_lower_bound; lia.
      - apply Z.div_lt_upper_bound; lia. }
    pose proof (round_nearest_even_range (Zpos q / 2)
                  (loc_of_shr_record (shr_1 (shr_record_of_loc (Zpos q) l)))) as Hr.
    destruct (round_nearest_even _ _) as [| q' | q'] eqn:Hq'; try lia.
    rewrite (round_aux_finish sx q' (e + 1)) by lia.
    destruct (Z.ltb_spec (Zpos q') (2 ^ 24)).
    + exists q', (e + 1). split; [done |]. right. split; [done |]. left. lia.
    + exists 8388608%positive, (e + 1 + 1). split; [done |]. right. split; [done |].
      right. repeat split; lia.
Qed.

Lemma valid_canonical (s : bool) (m : positive) (e : Z) :
  valid (S754_finite s m e) = true ->
  fexp prec emax (Zpos (digits2_pos m) + e) = e.
Proof.
  unfold valid, valid_binary, bounded, canonical_mantissa.
  intros [Hc _]%andb_true_iff. by apply Z.eqb_eq in Hc.
Qed.

(** The quotient of a binary32 value of magnitude below 1 by [0.9f]: a
    float of the same sign, at most [1.0f / 0.9f] in magnitude. *)
Lemma fdiv_drive_finite (s : bool) (m : positive) (e : Z) :
  valid (S754_finite s m e) = true -> e <= -24 ->
  exists m' e',
    fdiv (S754_finite s m e) TunerEngine.drive = S754_finite s m' e' /\
    (e' < -23 \/ (e' = -23 /\ Zpos m' <= 9320676)).
Proof.
  intros Hv He.
  destruct (valid_finite s m e Hv) as (Hm & Hrange & _).
  pose proof (valid_canonical s m e Hv) as Hcanon.
  unfold fdiv, TunerEngine.drive, SFdiv, SFdiv_core_binary.
  change (Zdigits2 (Zpos m)) with (Zpos (digits2_pos m)).
  change (Zdigits2 15099494) with 24.
  replace (Zpos (digits2_pos m) + e - (24 + -24)) with (Zpos (digits2_pos m) + e) by lia.
  rewrite Hcanon.
  replace (Z.min e (e - -24)) with e by lia.
  replace (e - -24 - e) with 24 by lia.
  rewrite Z.shiftl_mul_pow2 by lia.
  pose proof (Z_div_mod (Zpos m * 2 ^ 24) 15099494 ltac:(lia)) as Hdm.
  destruct (Z.div_eucl (Zpos m * 2 ^ 24) 15099494) as [q r].
  destruct Hdm as [Heq Hr].
  assert (1 <= q <= 18641350) as Hq by nia.
  destruct q as [| q | q]; try lia.
  destruct (round_aux_form (xorb s false) q e (new_location 15099494 r))
    as (m' & e' & -> & Hform); [lia | lia |].
  rewrite xorb_false_r. exists m', e'. split; [done |].
  assert (Zpos q / 2 <= 9320675) as Hhalf by (apply Z.div_le_upper_bound; lia).
  lia.
Qed.

Lemma fle_ceiling (m : positive) (e : Z) :
  e < -23 \/ (e = -23 /\ Zpos m <= 9320676) ->
  fle (S754_finite false m e) TunerEngine.ceiling = true /\
  fgt (S754_finite false m e) TunerEngine.ceiling = false.
Proof.
  intros Hb. unfold fle, fgt, SFleb, SFltb, TunerEngine.ceiling, SFcompare.
  destruct Hb as [Hlt | [-> Hm]].
  - rewrite (proj2 (Z.compare_lt_iff e (-23))) by lia.
    rewrite (proj2 (Z.compare_gt_iff (-23) e)) by lia. done.
  - rewrite !Z.compare_refl, !Pos.compare_cont_spec.
    rewrite (Pos.compare_antisym m 9320676).
    destruct (Pos.compare_spec m 9320676) as [-> | Hlt | Hgt]; try done.
    apply Pos2Z.pos_lt_pos in Hgt. lia.
Qed.

(** The bound of the clipper on the value [tanh] returned. *)
Lemma fdiv_drive_bounded (t : f32) :
  valid t = true -> fgt (fabs t) one = false ->
  fgt (fabs (fdiv t TunerEngine.drive)) TunerEngine.ceiling = false /\
  (is_nan t = false -> fle (fabs (fdiv t TunerEngine.drive)) TunerEngine.ceiling = true).
Proof.
  intros Hv Hle. destruct t as [s | s | | s m e].
  - by destruct s.
  - by destruct s.
  - done.
  - destruct (valid_finite s m e Hv) as (Hm & Hrange & Hd).
    assert (e <= -24 \/ (e = -23 /\ m = 8388608%positive)) as [He | [-> ->]].
    { unfold fgt, SFltb, one, SFcompare in Hle. simpl fabs in Hle. cbv iota in Hle.
      destruct (Z.compare_spec (-23) e) as [<- | Hlt | Hgt]; [| done | lia].
      right. split; [done |].
      rewrite Pos.compare_cont_spec in Hle.
      destruct Hd as [Hd | ?]; [| lia].
      destruct (digits2_pos_bounds m) as [Hlo _]. rewrite Hd in Hlo.
      change (2 ^ (24 - 1)) with 8388608 in Hlo.
      destruct (Pos.compare_spec 8388608 m) as [Heq | Hlt | Hgt];
        [exact (eq_sym Heq) | discriminate Hle |].
      apply Pos2Z.pos_lt_pos in Hgt. lia. }
    + destruct (fdiv_drive_finite s m e Hv He) as (m' & e' & -> & Hb).
      simpl fabs. destruct (fle_ceiling m' e' Hb) as [H1 H2]. by split.
    + by destruct s.
Qed.

(** ** The soft clipper *)

Lemma shr_1_nonneg (mrs : shr_record) : 0 <= shr_m mrs -> 0 <= shr_m (shr_1 mrs).
Proof.
  destruct mrs as [m r s]. simpl. intros Hm.
  destruct m as [| [p | p |] | p]; simpl; lia.
Qed.

Lemma iter_shr_1_nonneg (n : positive) (mrs : shr_record) :
  0 <= shr_m mrs -> 0 <= shr_m (iter_pos shr_1 n mrs).
Proof.
  revert mrs. induction n as [n IH | n IH |]; intros mrs Hm; simpl.
  - apply IH, IH. by apply shr_1_nonneg.
  - by apply IH, IH.
  - by apply shr_1_nonneg.
Qed.

Lemma shr_fexp_nonneg (m e : Z) (l : location) :
  0 <= m -> 0 <= shr_m (shr_fexp prec emax m e l).1.
Proof.
  intros Hm. unfold shr_fexp, shr.
  destruct (fexp prec emax (Zdigits2 m + e) - e) as [| n | n]; simpl;
    rewrite ?shr_m_of_loc; try done.
  apply iter_shr_1_nonneg. by rewrite shr_m_of_loc.
Qed.

Lemma round_aux_not_nan (sx : bool) (p : positive) (e : Z) (l : location) :
  is_nan (binary_round_aux prec emax sx (Zpos p) e l) = false.
Proof.
  unfold binary_round_aux.
  pose proof (shr_fexp_nonneg (Zpos p) e l ltac:(lia)) as H1.
  destruct (shr_fexp prec emax (Zpos p) e l) as [mrs1 e1]. simpl in H1.
  pose proof (round_nearest_even_range (shr_m mrs1) (loc_of_shr_record mrs1)) as Hr.
  pose proof (shr_fexp_nonneg (round_nearest_even (shr_m mrs1) (loc_of_shr_record mrs1))
                e1 loc_Exact ltac:(lia)) as H2.
  destruct (shr_fexp prec emax _ e1 loc_Exact) as [mrs2 e2]. simpl in H2.
  destruct (shr_m mrs2) as [| m | m]; [done | | lia].
  by destruct (e2 <=? emax - prec).
Qed.

Lemma fmul_drive_not_nan (sample : f32) :
  is_nan sample = false -> is_nan (fmul sample TunerEngine.drive) = false.
Proof.
  destruct sample as [s | s | | s m e]; try done.
  intros _. apply round_aux_not_nan.
Qed.

(** One sample through the clipper. *)
Lemma softClip_bounded `{Libm} (sample : f32) :
  tanhRange ->
  fgt (fabs (TunerEngine.softClip sample)) TunerEngine.ceiling = false /\
  (is_nan sample = false ->
   fle (fabs (TunerEngine.softClip sample)) TunerEngine.ceiling = true).
Proof.
  intros Htanh. unfold TunerEngine.softClip.
  destruct (Htanh (fmul sample TunerEngine.drive)) as (Hv & Hle & Hnan).
  destruct (fdiv_drive_bounded _ Hv Hle) as [Hgt Hfle].
  split; [done |]. intros Hs. apply Hfle, Hnan. by apply fmul_drive_not_nan.
Qed.

Lemma softClipChannel_read `{Libm} (numSamples : Z) (data : list f32) (i : Z) :
  0 <= i < numSamples -> i < Z.of_nat (length data) ->
  rd (TunerEngine.softClipChannel numSamples data) i = TunerEngine.softClip (rd data i).
Proof.
  intros Hi Hlen. unfold TunerEngine.softClipChannel, for_loop.
  destruct (for_range_pointwise (fun _ x => TunerEngine.softClip x)
              (Z.to_nat (numSamples - 0)) 0 data i ltac:(lia)) as [_ ->].
  destruct (Z.leb_spec 0 i); [| lia].
  destruct (Z.ltb_spec i (0 + Z.of_nat (Z.to_nat (numSamples - 0)))); [| lia].
  destruct (Z.ltb_spec i (Z.of_nat (length data))); [done | lia].
Qed.

(** The loop over the channels, the body being the replacement of one
    channel by its image under [F]. *)
Lemma for_range_channels_before {A : Type} (F : A -> A) (n : nat) (lo : Z)
    (v : list A) (ch : Z) :
  0 <= ch < lo ->
  for_range n lo
    (fun ch buffer =>
       match buffer !! Z.to_nat ch with
       | Some data => <[Z.to_nat ch := F data]> buffer
       | None => buffer
       end) v !! Z.to_nat ch
  = v !! Z.to_nat ch.
Proof.
  revert lo v. induction n as [| n IH]; intros lo v Hch; [done |].
  simpl for_range. rewrite IH by lia.
  destruct (v !! Z.to_nat lo) as [data |]; [| done].
  apply list_lookup_insert_ne. lia.
Qed.

Lemma for_range_channels {A : Type} (F : A -> A) (n : nat) (lo : Z) (v : list A) (ch : Z) :
  0 <= lo -> lo <= ch < lo + Z.of_nat n ->
  for_range n lo
    (fun ch buffer =>
       match buffer !! Z.to_nat ch with
       | Some data => <[Z.to_nat ch := F data]> buffer
       | None => buffer
       end) v !! Z.to_nat ch
  = F <$> v !! Z.to_nat ch.
Proof.
  revert lo v. induction n as [| n IH]; intros lo v Hlo Hch; [lia |].
  simpl for_range.
  destruct (Z.eq_dec ch lo) as [-> | Hne].
  - rewrite for_range_channels_before by lia.
    destruct (v !! Z.to_nat lo) as [data |] eqn:Hd; simpl.
    + apply list_lookup_insert_eq. by eapply lookup_lt_Some.
    + done.
  - rewrite IH by lia.
    destruct (v !! Z.to_nat lo) as [data |]; [| done].
    rewrite list_lookup_insert_ne by lia. done.
Qed.

Lemma saturatingLibm_tanhRange : @tanhRange saturatingLibm.
Proof.
  intros x. simpl. destruct x as [[] | [] | | [] m e]; done.
Qed.

(** C10.  After the soft clipper that ends [process], every sample of
    every processed channel is [tanh(0.9 s) / 0.9] of the mixed sample
    [s] and never exceeds [1.0f / 0.9f] in magnitude; when the mixed
    sample is a number the result is a number of magnitude at most
    [1.0f / 0.9f].  That bound is below the quoted 1.1112. *)
Theorem C10_soft_clip_bounds_output `{Libm} (buffer : list (list f32))
    (numChannels numSamples ch i : Z) (data : list f32) :
  tanhRange ->
  0 <= ch < numChannels ->
  0 <= i < numSamples ->
  buffer !! Z.to_nat ch = Some data ->
  i < Z.of_nat (length data) ->
  exists out,
    TunerEngine.softClipStage numChannels numSamples buffer !! Z.to_nat ch = Some out /\
    rd out i = TunerEngine.softClip (rd data i) /\
    fgt (fabs (rd out i)) TunerEngine.ceiling = false /\
    (is_nan (rd data i) = false -> fle (fabs (rd out i)) TunerEngine.ceiling = true) /\
    TunerEngine.ceiling = fdiv one TunerEngine.drive /\
    flt TunerEngine.ceiling quotedCeiling = true.
Proof.
  intros Htanh Hch Hi Hdata Hlen.
  exists (TunerEngine.softClipChannel numSamples data).
  split.
  { unfold TunerEngine.softClipStage, for_loop.
    rewrite (for_range_channels (TunerEngine.softClipChannel numSamples)) by lia.
    by rewrite Hdata. }
  rewrite softClipChannel_read by done.
  destruct (softClip_bounded (rd data i) Htanh) as [Hgt Hle].
  repeat split; done.
Qed.

Lemma C10_soft_clip_bounds_output_witness :
  let buffer := [[of_int 3; ratio (-1) 4]; [S754_infinity false; zero]] in
  @tanhRange saturatingLibm /\
  0 <= 1 < 2 /\
  0 <= 0 < 2 /\
  buffer !! Z.to_nat 1 = Some [S754_infinity false; zero] /\
  0 < Z.of_nat (length [S754_infinity false; zero]) /\
  exists out,
    @TunerEngine.softClipStage saturatingLibm 2 2 buffer !! Z.to_nat 1 = Some out /\
    rd out 0 = @TunerEngine.softClip saturatingLibm (rd [S754_infinity false; zero] 0) /\
    fgt (fabs (rd out 0)) TunerEngine.ceiling = false /\
    (is_nan (rd [S754_infinity false; zero] 0) = false ->
     fle (fabs (rd out 0)) TunerEngine.ceiling = true) /\
    TunerEngine.ceiling = fdiv one TunerEngine.drive /\
    flt TunerEngine.ceiling quotedCeiling = true.
Proof.
  intros buffer.
  assert (0 <= 1 < 2) as Hch by lia.
  assert (0 <= 0 < 2) as Hi by lia.
  assert (buffer !! Z.to_nat 1 = Some [S754_infinity false; zero]) as Hdata by reflexivity.
  assert (0 < Z.of_nat (length [S754_infinity false; zero])) as Hlen by reflexivity.
  split; [exact saturatingLibm_tanhRange |].
  repeat (split; [assumption |]).
  exact (@C10_soft_clip_bounds_output saturatingLibm buffer 2 2 1 0
           [S754_infinity false; zero] saturatingLibm_tanhRange Hch Hi Hdata Hlen).
Defined.

(** Where the bound of C10 as the specification states it fails.  A mixed
    sample that is a NaN leaves the clipper as a NaN ([tanh] of a NaN is
    a NaN), and a NaN is not at most the bound.  A saturated sample (here
    +infinity, whose [tanh] is 1) leaves it as [1.0f / 0.9f], the
    binary32 number 9320676 * 2^-23, which is greater than 10/9. *)
Lemma C10_nan_sample_is_not_bounded :
  let buffer := [[S754_nan; S754_infinity false]] in
  let out := @TunerEngine.softClipStage saturatingLibm 1 2 buffer in
  @tanhRange saturatingLibm /\
  out = [[S754_nan; TunerEngine.ceiling]] /\
  fle (fabs S754_nan) TunerEngine.ceiling = false /\
  TunerEngine.ceiling = S754_finite false 9320676 (-23) /\
  aboveFraction (fabs TunerEngine.ceiling) 10 9 = true.
Proof.
  intros buffer out. split; [exact saturatingLibm_tanhRange |].
  repeat split; vm_compute; reflexivity.
Qed.

(** * Further properties of the code *)

(** ** The scale quantiser *)

Lemma chromatic_all_in_scale (pm : PitchMapper.t) (n : Z) :
  0 <= PitchMapper.keyRootNote pm <= 12 ->
  PitchMapper.scaleIntervals pm = chromatic ->
  PitchMapper.isNoteInScale pm n = true.
Proof.
  intros Hk Htab. unfold PitchMapper.isNoteInScale. rewrite Htab.
  pose proof (relativePitchClassOf_range pm n Hk) as Hrel.
  apply existsb_eqb_elem.
  set (rel := PitchMapper.relativePitchClassOf pm n) in *.
  assert (rel = 0 \/ rel = 1 \/ rel = 2 \/ rel = 3 \/ rel = 4 \/ rel = 5 \/
          rel = 6 \/ rel = 7 \/ rel = 8 \/ rel = 9 \/ rel = 10 \/ rel = 11)
    as Hcases by lia.
  unfold chromatic.
  repeat (destruct Hcases as [-> | Hcases]; [repeat constructor |]).
  subst rel. rewrite Hcases. repeat constructor.
Qed.

Lemma Scale_eqb_Chromatic (scale : Scale) :
  Scale_eqb scale Chromatic = true -> scale = Chromatic.
Proof. by destruct scale. Qed.

(** The note the quantiser returns, read back as an integer. *)
Lemma quantizeToScale_integer (pm0 : PitchMapper.t) (key : Key) (scale : Scale)
    (voices : list PitchMapper.HarmonySettings) (m : f32) (n : Z) :
  let pm := PitchMapper.updateFromParameters pm0 key scale voices in
  to_int (fround m) = Some n -> Z.abs n < 2 ^ 24 - 6 ->
  exists r,
    PitchMapper.quantizeToScale pm m = Some r /\
    to_int r = Some (quantizedNote pm n).
Proof.
  intros pm Hn Hlt.
  pose proof (updateFromParameters_wellFormed pm0 key scale voices) as Hwf.
  fold pm in Hwf.
  rewrite quantizeToScale_unfold.
  destruct (Scale_eqb (PitchMapper.currentScale pm) Chromatic) eqn:Hchr.
  - exists (fround m). split; [done |]. rewrite Hn. f_equal. symmetry.
    apply quantizedNote_inside, chromatic_all_in_scale; [apply Hwf |].
    apply Scale_eqb_Chromatic in Hchr. simpl in Hchr. subst scale. done.
  - rewrite Hn. simpl. eexists. split; [done |].
    pose proof (quantizedNote_near pm n Hwf).
    apply to_int_of_int. lia.
Qed.

(** X1.  Whatever the key and the scale, the note [quantizeToScale]
    returns is a note of the scale: [isNoteInScale] holds of it.  (For
    notes whose rounding binary32 holds exactly with room for the
    adjustment.) *)
Theorem quantizeToScale_lands_in_scale (pm0 : PitchMapper.t) (key : Key)
    (scale : Scale) (voices : list PitchMapper.HarmonySettings) (m : f32) (n : Z) :
  let pm := PitchMapper.updateFromParameters pm0 key scale voices in
  to_int (fround m) = Some n -> Z.abs n < 2 ^ 24 - 6 ->
  exists r q,
    PitchMapper.quantizeToScale pm m = Some r /\
    to_int r = Some q /\
    PitchMapper.isNoteInScale pm q = true.
Proof.
  intros pm Hn Hlt.
  destruct (quantizeToScale_integer pm0 key scale voices m n Hn Hlt) as (r & Hr & Hq).
  exists r, (quantizedNote pm n). repeat split; [done | done |].
  apply quantizedNote_in_scale, updateFromParameters_wellFormed.
Qed.

Lemma quantizeToScale_lands_in_scale_witness :
  let pm := PitchMapper.updateFromParameters PitchMapper.init Ds MelodicMinor [] in
  let m := ratio 614 10 in
  to_int (fround m) = Some 61 /\ Z.abs 61 < 2 ^ 24 - 6 /\
  exists r q,
    PitchMapper.quantizeToScale pm m = Some r /\
    to_int r = Some q /\
    PitchMapper.isNoteInScale pm q = true.
Proof.
  intros pm m.
  assert (to_int (fround m) = Some 61) as Hn by reflexivity.
  assert (Z.abs 61 < 2 ^ 24 - 6) as Hlt by reflexivity.
  split; [exact Hn | split; [exact Hlt |]].
  exact (quantizeToScale_lands_in_scale PitchMapper.init Ds MelodicMinor [] m 61 Hn Hlt).
Defined.

(** The adjustment of the quantiser as a function of the relative pitch
    class and the table. *)
Lemma quantizedNote_offset (pm : PitchMapper.t) (n : Z) :
  quantizedNote pm n - n =
    let rel := PitchMapper.relativePitchClassOf pm n in
    if existsb (Z.eqb rel) (PitchMapper.scaleIntervals pm) then 0
    else PitchMapper.shortestAdjustment
           (PitchMapper.nearestSearch rel (PitchMapper.scaleIntervals pm)).1 rel.
Proof.
  unfold quantizedNote. simpl. destruct (existsb _ _); lia.
Qed.




Lemma relativePitchClassOf_octaves (pm : PitchMapper.t) (n k : Z) :
  0 <= PitchMapper.keyRootNote pm <= 12 ->
  PitchMapper.relativePitchClassOf pm (n + 12 * k)
    = PitchMapper.relativePitchClassOf pm n.
Proof.
  intros Hk. rewrite !relativePitchClassOf_mod by done.
  replace (n + 12 * k - PitchMapper.keyRootNote pm)
    with (n - PitchMapper.keyRootNote pm + k * 12) by lia.
  apply Z_mod_plus_full.
Qed.

Lemma quantizedNote_octaves (pm : PitchMapper.t) (n k : Z) :
  0 <= PitchMapper.keyRootNote pm <= 12 ->
  quantizedNote pm (n + 12 * k) = quantizedNote pm n + 12 * k.
Proof.
  intros Hk. unfold quantizedNote.
  rewrite relativePitchClassOf_octaves by done.
  destruct (existsb _ _); lia.
Qed.

(** X3.  The quantiser treats every octave alike: two notes whose
    roundings lie a whole number of octaves apart are quantised to notes
    the same number of octaves apart. *)
Theorem quantizeToScale_octave_equivariant (pm0 : PitchMapper.t) (key : Key)
    (scale : Scale) (voices : list PitchMapper.HarmonySettings)
    (m m' : f32) (n k : Z) :
  let pm := PitchMapper.updateFromParameters pm0 key scale voices in
  to_int (fround m) = Some n -> Z.abs n < 2 ^ 24 - 6 ->
  to_int (fround m') = Some (n + 12 * k) -> Z.abs (n + 12 * k) < 2 ^ 24 - 6 ->
  exists r r' q,
    PitchMapper.quantizeToScale pm m = Some r /\ to_int r = Some q /\
    PitchMapper.quantizeToScale pm m' = Some r' /\ to_int r' = Some (q + 12 * k).
Proof.
  intros pm Hn Hlt Hn' Hlt'.
  destruct (quantizeToScale_integer pm0 key scale voices m n Hn Hlt) as (r & Hr & Hq).
  destruct (quantizeToScale_integer pm0 key scale voices m' _ Hn' Hlt')
    as (r' & Hr' & Hq').
  exists r, r', (quantizedNote pm n). repeat split; [done | done | done |].
  rewrite Hq'. f_equal. apply quantizedNote_octaves.
  apply (updateFromParameters_wellFormed pm0 key scale voices).
Qed.

Lemma quantizeToScale_octave_equivariant_witness :
  let pm := PitchMapper.updateFromParameters PitchMapper.init F NaturalMinor [] in
  let m := ratio 587 10 in
  let m' := ratio 347 10 in
  to_int (fround m) = Some 59 /\ Z.abs 59 < 2 ^ 24 - 6 /\
  to_int (fround m') = Some (59 + 12 * -2) /\ Z.abs (59 + 12 * -2) < 2 ^ 24 - 6 /\
  exists r r' q,
    PitchMapper.quantizeToScale pm m = Some r /\ to_int r = Some q /\
    PitchMapper.quantizeToScale pm m' = Some r' /\ to_int r' = Some (q + 12 * -2).
Proof.
  intros pm m m'.
  assert (to_int (fround m) = Some 59) as Hn by reflexivity.
  assert (Z.abs 59 < 2 ^ 24 - 6) as Hlt by reflexivity.
  assert (to_int (fround m') = Some (59 + 12 * -2)) as Hn' by reflexivity.
  assert (Z.abs (59 + 12 * -2) < 2 ^ 24 - 6) as Hlt' by reflexivity.
  split; [exact Hn | split; [exact Hlt | split; [exact Hn' | split; [exact Hlt' |]]]].
  exact (quantizeToScale_octave_equivariant PitchMapper.init F NaturalMinor []
           m m' 59 (-2) Hn Hlt Hn' Hlt').
Defined.

(** X4.  Membership in the scale depends on the pitch class only
    ([isNoteInScale] is the same in every octave), and the notes of the
    scale are exactly the notes [quantizeToScale] leaves where they are. *)
Theorem isNoteInScale_fixed_points (pm0 : PitchMapper.t) (key : Key)
    (scale : Scale) (voices : list PitchMapper.HarmonySettings) (n k : Z) :
  let pm := PitchMapper.updateFromParameters pm0 key scale voices in
  Z.abs n < 2 ^ 24 - 6 ->
  PitchMapper.isNoteInScale pm (n + 12 * k) = PitchMapper.isNoteInScale pm n /\
  (PitchMapper.isNoteInScale pm n = true <->
   PitchMapper.quantizeToScale pm (of_int n) = Some (of_int n)).
Proof.
  intros pm Hlt.
  pose proof (updateFromParameters_wellFormed pm0 key scale voices) as Hwf.
  fold pm in Hwf. split.
  - unfold PitchMapper.isNoteInScale.
    rewrite relativePitchClassOf_octaves; [done | apply Hwf].
  - assert (to_int (fround (of_int n)) = Some n) as Hn
      by (rewrite fround_of_int, to_int_of_int by lia; done).
    destruct (quantizeToScale_integer pm0 key scale voices (of_int n) n Hn Hlt)
      as (r & Hr & Hq).
    fold pm in Hr, Hq. rewrite Hr. split.
    + intros Hin. rewrite (quantizedNote_inside pm n Hin) in Hq.
      rewrite quantizeToScale_unfold in Hr.
      destruct (Scale_eqb _ _).
      * injection Hr as <-. f_equal. apply fround_of_int. lia.
      * rewrite Hn in Hr. simpl in Hr. injection Hr as <-.
        by rewrite (quantizedNote_inside pm n Hin).
    + intros [= ->]. rewrite to_int_of_int in Hq by lia.
      injection Hq as Hq. rewrite Hq. by apply quantizedNote_in_scale.
Qed.

Lemma isNoteInScale_fixed_points_witness :
  let pm := PitchMapper.updateFromParameters PitchMapper.init B Major [] in
  Z.abs 70 < 2 ^ 24 - 6 /\
  PitchMapper.isNoteInScale pm (70 + 12 * 3) = PitchMapper.isNoteInScale pm 70 /\
  (PitchMapper.isNoteInScale pm 70 = true <->
   PitchMapper.quantizeToScale pm (of_int 70) = Some (of_int 70)).
Proof.
  intros pm.
  assert (Z.abs 70 < 2 ^ 24 - 6) as Hlt by reflexivity.
  split; [exact Hlt |].
  exact (isNoteInScale_fixed_points PitchMapper.init B Major [] 70 3 Hlt).
Defined.

(** ** The two quantisers *)

(** X5.  Outside the chromatic scale the quantiser of the utilities and
    the quantiser of the mapper return the same note, for every key,
    scale and input (and are undefined together). *)
Theorem quantizers_agree (pm0 : PitchMapper.t) (key : Key) (scale : Scale)
    (voices : list PitchMapper.HarmonySettings) (m : f32) :
  let pm := PitchMapper.updateFromParameters pm0 key scale voices in
  scale <> Chromatic ->
  NovaTuneUtils.quantizeToScale m (PitchMapper.keyRootNote pm)
    (PitchMapper.scaleIntervals pm)
  = PitchMapper.quantizeToScale pm m.
Proof.
  intros pm Hscale.
  rewrite quantizeToScale_unfold.
  assert (Scale_eqb (PitchMapper.currentScale pm) Chromatic = false) as ->
    by (simpl; by destruct scale).
  unfold NovaTuneUtils.quantizeToScale.
  destruct (to_int (fround m)) as [n |]; [| done].
  cbn [mbind option_bind].
  do 2 f_equal.
  replace (quantizedNote pm n) with (n + (quantizedNote pm n - n)) by lia.
  rewrite quantizedNote_offset. f_equal.
  unfold PitchMapper.relativePitchClassOf, PitchMapper.pitchClassOf,
    PitchMapper.nearestSearch, PitchMapper.nearestStep, PitchMapper.circularDistance.
  cbv zeta.
  pose proof (pitchClassOf_mod n) as Hpc. unfold PitchMapper.pitchClassOf in Hpc.
  cbv zeta in Hpc.
  pose proof (Z.mod_pos_bound n 12 ltac:(lia)) as Hrange. rewrite <- Hpc in Hrange.
  clear Hpc.
  set (pc := if Z.rem n 12 <? 0 then Z.rem n 12 + 12 else Z.rem n 12) in *.
  clearbody pc. subst pm. simpl PitchMapper.keyRootNote. simpl PitchMapper.scaleIntervals.
  assert (pc = 0 \/ pc = 1 \/ pc = 2 \/ pc = 3 \/ pc = 4 \/ pc = 5 \/
          pc = 6 \/ pc = 7 \/ pc = 8 \/ pc = 9 \/ pc = 10 \/ pc = 11)
    as Hcases by lia.
  clear Hrange.
  destruct scale; try done; destruct key;
    repeat (destruct Hcases as [-> | Hcases]; [vm_compute; reflexivity |]);
    subst pc; vm_compute; reflexivity.
Qed.

Lemma quantizers_agree_witness :
  let pm := PitchMapper.updateFromParameters PitchMapper.init Fs MelodicMinor [] in
  let m := ratio 5849 100 in
  MelodicMinor <> Chromatic /\
  NovaTuneUtils.quantizeToScale m (PitchMapper.keyRootNote pm)
    (PitchMapper.scaleIntervals pm)
  = PitchMapper.quantizeToScale pm m.
Proof.
  intros pm m.
  assert (MelodicMinor <> Chromatic) as Hscale by discriminate.
  split; [exact Hscale |].
  exact (quantizers_agree PitchMapper.init Fs MelodicMinor [] m Hscale).
Defined.

(** ** The diatonic conversion of the mapper *)

Lemma findStartDegree_range (intervals : list Z) (i rel acc : Z) :
  PitchMapper.findStartDegree intervals i rel acc = acc \/
  i <= PitchMapper.findStartDegree intervals i rel acc < i + Z.of_nat (length intervals).
Proof.
  revert i acc. induction intervals as [| x rest IH]; intros i acc; simpl.
  - by left.
  - destruct (x =? rel); [right; lia |].
    destruct (IH (i + 1) (if x <? rel then i else acc)) as [-> | H].
    + destruct (x <? rel); [right; lia | by left].
    + right. lia.
Qed.

Lemma findStartDegree_index (intervals : list Z) (rel : Z) :
  intervals <> [] ->
  0 <= PitchMapper.findStartDegree intervals 0 rel 0 < Z.of_nat (length intervals).
Proof.
  intros Hne.
  destruct (findStartDegree_range intervals 0 rel 0) as [-> | H]; [| lia].
  destruct intervals; [done | simpl; lia].
Qed.

(** When the starting note is in the scale the scan stops on its
    interval. *)
Lemma findStartDegree_exact (intervals : list Z) (i rel acc : Z) :
  rel ∈ intervals -> 0 <= i ->
  intervals !! Z.to_nat (PitchMapper.findStartDegree intervals i rel acc - i) = Some rel.
Proof.
  revert i acc. induction intervals as [| x rest IH]; intros i acc Hin Hi.
  - by apply elem_of_nil in Hin.
  - simpl. destruct (Z.eqb_spec x rel) as [-> | Hne].
    + by replace (i - i) with 0 by lia.
    + apply elem_of_cons in Hin as [-> | Hin]; [done |].
      specialize (IH (i + 1) (if x <? rel then i else acc) Hin ltac:(lia)).
      assert (i + 1 <= PitchMapper.findStartDegree rest (i + 1) rel
                         (if x <? rel then i else acc)) as Hlo.
      { clear IH. revert Hin. generalize (i + 1) (if x <? rel then i else acc).
        induction rest as [| y rest' IHr]; intros j a Hin.
        - by apply elem_of_nil in Hin.
        - simpl. destruct (Z.eqb_spec y rel) as [-> | Hy]; [lia |].
          apply elem_of_cons in Hin as [-> | Hin]; [done |].
          specialize (IHr (j + 1) (if y <? rel then j else a) Hin). lia. }
      set (r := PitchMapper.findStartDegree rest (i + 1) rel _) in *.
      replace (Z.to_nat (r - i)) with (S (Z.to_nat (r - (i + 1)))) by lia.
      exact IH.
Qed.

(** The two wrapping loops compute the floor quotient and remainder of
    the target degree by the number of scale notes. *)
Lemma wrapAbove_spec (k : nat) (n t shift : Z) :
  0 < n -> t < (Z.of_nat k + 1) * n ->
  PitchMapper.wrapAbove (S k) n (t, shift) =
    Some (if t <? 0 then (t, shift) else (t mod n, shift + 12 * (t / n))).
Proof.
  intros Hn. revert t shift. induction k as [| k IH]; intros t shift Ht.
  - simpl. destruct (Z.leb_spec n t); [lia |].
    destruct (Z.ltb_spec t 0); [done |].
    rewrite Z.mod_small, Z.div_small by lia. do 2 f_equal; lia.
  - change (PitchMapper.wrapAbove (S (S k)) n (t, shift))
      with (if n <=? t then PitchMapper.wrapAbove (S k) n (t - n, shift + 12)
            else Some (t, shift)).
    destruct (Z.leb_spec n t).
    + rewrite IH by lia.
      destruct (Z.ltb_spec (t - n) 0); [lia |].
      destruct (Z.ltb_spec t 0); [lia |].
      assert (t mod n = (t - n) mod n) as ->.
      { replace t with (t - n + 1 * n) at 1 by lia. apply Z_mod_plus_full. }
      assert (t / n = (t - n) / n + 1) as ->.
      { replace t with (t - n + 1 * n) at 1 by lia. apply Z.div_add. lia. }
      do 2 f_equal; lia.
    + destruct (Z.ltb_spec t 0); [done |].
      rewrite Z.mod_small, Z.div_small by lia. do 2 f_equal; lia.
Qed.

Lemma wrapBelow_spec (k : nat) (n t shift : Z) :
  0 < n -> - (Z.of_nat k * n) <= t < 0 ->
  PitchMapper.wrapBelow (S k) n (t, shift) = Some (t mod n, shift + 12 * (t / n)).
Proof.
  intros Hn. revert t shift. induction k as [| k IH]; intros t shift Ht; [lia |].
  change (PitchMapper.wrapBelow (S (S k)) n (t, shift))
    with (if t <? 0 then PitchMapper.wrapBelow (S k) n (t + n, shift - 12)
          else Some (t, shift)).
  destruct (Z.ltb_spec t 0); [| lia].
  assert (t mod n = (t + n) mod n) as ->.
  { replace t with (t + n + (-1) * n) at 1 by lia. apply Z_mod_plus_full. }
  assert (t / n = (t + n) / n + -1) as ->.
  { replace t with (t + n + (-1) * n) at 1 by lia. apply Z.div_add. lia. }
  destruct (Z.ltb_spec (t + n) 0).
  - rewrite IH by lia. do 2 f_equal; lia.
  - destruct k; simpl.
    + destruct (Z.ltb_spec (t + n) 0); [lia |].
      rewrite Z.mod_small, Z.div_small by lia. do 2 f_equal; lia.
    + destruct (Z.ltb_spec (t + n) 0); [lia |].
      rewrite Z.mod_small, Z.div_small by lia. do 2 f_equal; lia.
Qed.

Lemma wrap_spec (n target : Z) :
  0 < n ->
  (st ← PitchMapper.wrapAbove (PitchMapper.wrapFuel target) n (target, 0);
   PitchMapper.wrapBelow (PitchMapper.wrapFuel target) n st)
  = Some (target mod n, 12 * (target / n)).
Proof.
  intros Hn. unfold PitchMapper.wrapFuel.
  rewrite wrapAbove_spec by nia.
  cbn -[PitchMapper.wrapBelow Z.mul Z.div Z.modulo].
  destruct (Z.ltb_spec target 0).
  - rewrite wrapBelow_spec by nia. done.
  - pose proof (Z.mod_pos_bound target n Hn).
    cbn [PitchMapper.wrapBelow fst snd].
    destruct (Z.ltb_spec (target mod n) 0); [lia | done].
Qed.

(** The octave wrapping of [diatonicToSemitones] as a division with
    remainder: from the scale degree [s] of the starting note, [d] degrees
    lead to the interval of degree [(s + d) mod N], [(s + d) / N] octaves
    away, for every [d] of either sign ([N] the number of notes of the
    scale, the quotient rounded down). *)
Lemma diatonicToSemitones_wrapped (pm : PitchMapper.t) (d : Z)
    (m : f32) (n : Z) :
  let N := Z.of_nat (length (PitchMapper.scaleIntervals pm)) in
  let s := PitchMapper.findStartDegree (PitchMapper.scaleIntervals pm) 0
             (PitchMapper.relativePitchClassOf pm n) 0 in
  PitchMapper.scaleIntervals pm <> [] ->
  to_int (fround m) = Some n ->
  0 <= s < N /\
  PitchMapper.diatonicToSemitones pm d m =
    Some (vec_at (PitchMapper.scaleIntervals pm) ((s + d) mod N)
          - vec_at (PitchMapper.scaleIntervals pm) s
          + 12 * ((s + d) / N)).
Proof.
  intros N s Hne Hn.
  pose proof (findStartDegree_index _ (PitchMapper.relativePitchClassOf pm n) Hne)
    as Hs.
  fold s N in Hs. split; [exact Hs |].
  unfold PitchMapper.diatonicToSemitones.
  destruct (Z.eqb_spec d 0) as [-> | Hd].
  - rewrite Z.add_0_r, Z.mod_small, Z.div_small by lia. f_equal. lia.
  - rewrite Hn.
    cbn -[PitchMapper.wrapAbove PitchMapper.wrapBelow PitchMapper.wrapFuel
          Z.mul Z.div Z.modulo].
    fold s N.
    pose proof (wrap_spec N (s + d) ltac:(lia)) as Hw.
    destruct (PitchMapper.wrapAbove _ _ _) as [st |]; [| discriminate].
    cbn -[PitchMapper.wrapBelow PitchMapper.wrapFuel Z.mul Z.div Z.modulo] in Hw |- *.
    rewrite Hw. done.
Qed.

(** X6.  The octave wrapping of [diatonicToSemitones] is a division with
    remainder: from the scale degree [s] of the starting note, [d] degrees
    lead to the interval of degree [(s + d) mod N], [(s + d) / N] octaves
    away, for every [d] of either sign ([N] the number of notes of the
    scale, the quotient rounded down). *)
Theorem diatonicToSemitones_closed_form (pm : PitchMapper.t) (d : Z)
    (m : f32) (n : Z) :
  let N := Z.of_nat (length (PitchMapper.scaleIntervals pm)) in
  let s := PitchMapper.findStartDegree (PitchMapper.scaleIntervals pm) 0
             (PitchMapper.relativePitchClassOf pm n) 0 in
  PitchMapper.scaleIntervals pm <> [] ->
  to_int (fround m) = Some n ->
  0 <= s < N /\
  PitchMapper.diatonicToSemitones pm d m =
    Some (vec_at (PitchMapper.scaleIntervals pm) ((s + d) mod N)
          - vec_at (PitchMapper.scaleIntervals pm) s
          + 12 * ((s + d) / N)).
Proof. exact (diatonicToSemitones_wrapped pm d m n). Qed.

Lemma diatonicToSemitones_closed_form_witness :
  let pm := PitchMapper.updateFromParameters PitchMapper.init D Major [] in
  let m := of_int 66 in
  let N := Z.of_nat (length (PitchMapper.scaleIntervals pm)) in
  let s := PitchMapper.findStartDegree (PitchMapper.scaleIntervals pm) 0
             (PitchMapper.relativePitchClassOf pm 66) 0 in
  PitchMapper.scaleIntervals pm <> [] /\
  to_int (fround m) = Some 66 /\
  0 <= s < N /\
  PitchMapper.diatonicToSemitones pm (-10) m =
    Some (vec_at (PitchMapper.scaleIntervals pm) ((s + -10) mod N)
          - vec_at (PitchMapper.scaleIntervals pm) s
          + 12 * ((s + -10) / N)).
Proof.
  intros pm m N s.
  assert (PitchMapper.scaleIntervals pm <> []) as Hne by discriminate.
  assert (to_int (fround m) = Some 66) as Hn by reflexivity.
  split; [exact Hne | split; [exact Hn |]].
  exact (diatonicToSemitones_closed_form pm (-10) m 66 Hne Hn).
Defined.

Lemma vec_at_lookup (v : list Z) (i x : Z) :
  v !! Z.to_nat i = Some x -> vec_at v i = x.
Proof. unfold vec_at. by intros ->. Qed.

Lemma vec_at_elem (v : list Z) (i : Z) :
  0 <= i < Z.of_nat (length v) -> vec_at v i ∈ v.
Proof.
  intros Hi. unfold vec_at.
  destruct (v !! Z.to_nat i) as [x |] eqn:Hx.
  - simpl. by eapply list_elem_of_lookup_2.
  - apply lookup_ge_None in Hx. lia.
Qed.

(** X7.  A diatonic interval taken from a note of the scale ends on a
    note of the scale, for every number of degrees, key and scale. *)
Theorem diatonic_interval_stays_in_scale (pm0 : PitchMapper.t) (key : Key)
    (scale : Scale) (voices : list PitchMapper.HarmonySettings)
    (d : Z) (m : f32) (n : Z) :
  let pm := PitchMapper.updateFromParameters pm0 key scale voices in
  to_int (fround m) = Some n ->
  PitchMapper.isNoteInScale pm n = true ->
  exists semitones,
    PitchMapper.diatonicToSemitones pm d m = Some semitones /\
    PitchMapper.isNoteInScale pm (n + semitones) = true.
Proof.
  intros pm Hn Hin.
  pose proof (updateFromParameters_wellFormed pm0 key scale voices) as Hwf.
  fold pm in Hwf. destruct Hwf as (Hk & Hne & Hall).
  destruct (diatonicToSemitones_wrapped pm d m n Hne Hn) as [Hs ->].
  eexists. split; [done |].
  set (tab := PitchMapper.scaleIntervals pm) in *.
  set (rel := PitchMapper.relativePitchClassOf pm n) in *.
  set (s := PitchMapper.findStartDegree tab 0 rel 0) in *.
  set (N := Z.of_nat (length tab)) in *.
  assert (rel ∈ tab) as Hrel by (by apply existsb_eqb_elem).
  assert (vec_at tab s = rel) as ->.
  { apply vec_at_lookup.
    pose proof (findStartDegree_exact tab 0 rel 0 Hrel ltac:(lia)) as Hex.
    by rewrite Z.sub_0_r in Hex. }
  pose proof (Z.mod_pos_bound (s + d) N ltac:(lia)) as Ht.
  pose proof (vec_at_elem tab _ Ht) as HT.
  assert (0 <= vec_at tab ((s + d) mod N) <= 11) as Hrange.
  { rewrite Forall_forall in Hall. by apply Hall. }
  unfold PitchMapper.isNoteInScale.
  rewrite (isNoteInScale_shift pm n _ (vec_at tab ((s + d) mod N)) Hk).
  - by apply existsb_eqb_elem.
  - fold rel.
    replace (rel + (vec_at tab ((s + d) mod N) - rel + 12 * ((s + d) / N)))
      with (vec_at tab ((s + d) mod N) + ((s + d) / N) * 12) by lia.
    rewrite Z_mod_plus_full. apply Z.mod_small. lia.
Qed.

Lemma diatonic_interval_stays_in_scale_witness :
  let pm := PitchMapper.updateFromParameters PitchMapper.init E HarmonicMinor [] in
  let m := of_int 71 in
  to_int (fround m) = Some 71 /\
  PitchMapper.isNoteInScale pm 71 = true /\
  exists semitones,
    PitchMapper.diatonicToSemitones pm (-5) m = Some semitones /\
    PitchMapper.isNoteInScale pm (71 + semitones) = true.
Proof.
  intros pm m.
  assert (to_int (fround m) = Some 71) as Hn by reflexivity.
  assert (PitchMapper.isNoteInScale pm 71 = true) as Hin by reflexivity.
  split; [exact Hn | split; [exact Hin |]].
  exact (diatonic_interval_stays_in_scale PitchMapper.init E HarmonicMinor []
           (-5) m 71 Hn Hin).
Defined.

(** X8.  A whole turn of the scale is an octave: [k] times the number of
    scale notes more degrees give [12 * k] more semitones, from every
    starting note. *)
Theorem diatonicToSemitones_octaves (pm : PitchMapper.t) (d k : Z)
    (m : f32) (n : Z) :
  let N := Z.of_nat (length (PitchMapper.scaleIntervals pm)) in
  PitchMapper.scaleIntervals pm <> [] ->
  to_int (fround m) = Some n ->
  exists semitones,
    PitchMapper.diatonicToSemitones pm d m = Some semitones /\
    PitchMapper.diatonicToSemitones pm (d + k * N) m = Some (semitones + 12 * k).
Proof.
  intros N Hne Hn.
  destruct (diatonicToSemitones_wrapped pm d m n Hne Hn) as [Hs ->].
  destruct (diatonicToSemitones_wrapped pm (d + k * N) m n Hne Hn) as [_ ->].
  eexists. split; [done |]. fold N.
  set (s := PitchMapper.findStartDegree _ _ _ _) in *.
  replace (s + (d + k * N)) with (s + d + k * N) by lia.
  rewrite Z_mod_plus_full, Z.div_add by lia.
  f_equal. lia.
Qed.

Lemma diatonicToSemitones_octaves_witness :
  let pm := PitchMapper.updateFromParameters PitchMapper.init G NaturalMinor [] in
  let m := of_int 62 in
  let N := Z.of_nat (length (PitchMapper.scaleIntervals pm)) in
  PitchMapper.scaleIntervals pm <> [] /\
  to_int (fround m) = Some 62 /\
  exists semitones,
    PitchMapper.diatonicToSemitones pm 3 m = Some semitones /\
    PitchMapper.diatonicToSemitones pm (3 + (-2) * N) m = Some (semitones + 12 * -2).
Proof.
  intros pm m N.
  assert (PitchMapper.scaleIntervals pm <> []) as Hne by discriminate.
  assert (to_int (fround m) = Some 62) as Hn by reflexivity.
  split; [exact Hne | split; [exact Hn |]].
  exact (diatonicToSemitones_octaves pm 3 (-2) m 62 Hne Hn).
Defined.

(** ** The diatonic conversion of the utilities *)

(** With the root at the head of the table, the conversion is a
    division with remainder, for negative degrees too. *)
Lemma utils_diatonicToSemitones_floor (d : Z) (intervals : list Z) :
  let N := Z.of_nat (length intervals) in
  0 < N -> vec_at intervals 0 = 0 ->
  NovaTuneUtils.diatonicToSemitones d intervals
    = 12 * (d / N) + vec_at intervals (d mod N).
Proof.
  intros N HN H0. unfold NovaTuneUtils.diatonicToSemitones. fold N.
  destruct (Z.eqb_spec d 0) as [-> | Hd].
  - rewrite Z.div_0_l, Z.mod_0_l by lia. lia.
  - destruct (Z.ltb_spec d 0) as [Hneg | Hpos].
    + rewrite Z.quot_div_nonneg, Z.rem_mod_nonneg by lia.
      pose proof (Z.div_mod (- d) N ltac:(lia)) as Hdm.
      pose proof (Z.mod_pos_bound (- d) N HN) as Hr.
      destruct (Z.eqb_spec ((- d) mod N) 0) as [Hz | Hnz].
      * assert (d / N = - ((- d) / N)) as ->
          by (symmetry; apply (Z.div_unique d N _ 0); lia).
        assert (d mod N = 0) as ->
          by (symmetry; apply (Z.mod_unique d N (- ((- d) / N)) 0); lia).
        lia.
      * assert (d / N = - ((- d) / N + 1)) as ->
          by (symmetry; apply (Z.div_unique d N _ (N - (- d) mod N)); lia).
        assert (d mod N = N - (- d) mod N) as ->
          by (symmetry; apply (Z.mod_unique d N (- ((- d) / N + 1))); lia).
        lia.
    + rewrite Z.quot_div_nonneg, Z.rem_mod_nonneg by lia. done.
Qed.

Lemma scale_table_head (scale : Scale) : vec_at (getScaleIntervals scale) 0 = 0.
Proof. by destruct scale. Qed.

Lemma scale_table_length (scale : Scale) : 0 < Z.of_nat (length (getScaleIntervals scale)).
Proof. destruct scale; simpl; lia. Qed.

(** X9.  The utility [diatonicToSemitones] counts from the root of the
    scale: [d] degrees are [d / N] octaves plus the interval of degree
    [d mod N], with the quotient rounded down, so that degrees below the
    root are reached from the octave underneath. *)
Theorem utils_diatonicToSemitones_closed_form (scale : Scale) (d : Z) :
  let intervals := getScaleIntervals scale in
  let N := Z.of_nat (length intervals) in
  NovaTuneUtils.diatonicToSemitones d intervals
    = 12 * (d / N) + vec_at intervals (d mod N).
Proof.
  intros intervals N.
  apply utils_diatonicToSemitones_floor; [apply scale_table_length | apply scale_table_head].
Qed.

Lemma scale_table_ascending (scale : Scale) (i j : Z) :
  0 <= i -> i < j -> j < Z.of_nat (length (getScaleIntervals scale)) ->
  0 <= vec_at (getScaleIntervals scale) i < vec_at (getScaleIntervals scale) j /\
  vec_at (getScaleIntervals scale) j <= 11.
Proof.
  intros Hi Hij Hj.
  set (tab := getScaleIntervals scale) in *.
  assert (forallb (fun i => forallb (fun j =>
            (j <=? i) ||
            ((0 <=? vec_at tab i) && (vec_at tab i <? vec_at tab j)
             && (vec_at tab j <=? 11)))
            (seqZ 0 (Z.of_nat (length tab)))) (seqZ 0 (Z.of_nat (length tab))) = true)
    as Hall by (subst tab; destruct scale; vm_compute; reflexivity).
  rewrite forallb_forall in Hall.
  specialize (Hall i ltac:(apply list_elem_of_In, elem_of_seqZ; lia)).
  rewrite forallb_forall in Hall.
  specialize (Hall j ltac:(apply list_elem_of_In, elem_of_seqZ; lia)).
  apply orb_true_iff in Hall as [Hle%Z.leb_le | Hok]; [lia |].
  apply andb_true_iff in Hok as [[H1%Z.leb_le H2%Z.ltb_lt]%andb_true_iff H3%Z.leb_le].
  lia.
Qed.

Lemma scale_table_range (scale : Scale) (i : Z) :
  0 <= i < Z.of_nat (length (getScaleIntervals scale)) ->
  0 <= vec_at (getScaleIntervals scale) i <= 11.
Proof.
  intros Hi.
  assert (Forall (fun x => 0 <= x <= 11) (getScaleIntervals scale)) as Hall
    by (destruct scale; simpl; repeat constructor; lia).
  rewrite Forall_forall in Hall. apply Hall, vec_at_elem. exact Hi.
Qed.

(** X10.  In every scale of the plugin a larger number of degrees is a
    strictly larger number of semitones, over the whole range of degrees,
    negative ones included. *)
Theorem utils_diatonicToSemitones_increasing (scale : Scale) (d1 d2 : Z) :
  d1 < d2 ->
  NovaTuneUtils.diatonicToSemitones d1 (getScaleIntervals scale)
    < NovaTuneUtils.diatonicToSemitones d2 (getScaleIntervals scale).
Proof.
  intros Hlt.
  rewrite !utils_diatonicToSemitones_floor
    by (first [apply scale_table_length | apply scale_table_head]).
  pose proof (scale_table_length scale) as HN.
  set (N := Z.of_nat (length (getScaleIntervals scale))) in *.
  pose proof (Z.mod_pos_bound d1 N HN) as Hr1.
  pose proof (Z.mod_pos_bound d2 N HN) as Hr2.
  pose proof (Z.div_mod d1 N ltac:(lia)) as Hd1.
  pose proof (Z.div_mod d2 N ltac:(lia)) as Hd2.
  pose proof (scale_table_range scale (d1 mod N) Hr1) as Ht1.
  pose proof (scale_table_range scale (d2 mod N) Hr2) as Ht2.
  assert (d1 / N <= d2 / N) as Hq by (apply Z.div_le_mono; lia).
  destruct (Z.eq_dec (d1 / N) (d2 / N)) as [Heq | Hne].
  - rewrite Heq in *.
    pose proof (scale_table_ascending scale (d1 mod N) (d2 mod N)
                  ltac:(lia) ltac:(lia) ltac:(lia)).
    lia.
  - lia.
Qed.

Lemma utils_diatonicToSemitones_increasing_witness :
  -3 < 2 /\
  NovaTuneUtils.diatonicToSemitones (-3) (getScaleIntervals HarmonicMinor)
    < NovaTuneUtils.diatonicToSemitones 2 (getScaleIntervals HarmonicMinor).
Proof.
  assert (-3 < 2) as Hlt by reflexivity.
  split; [exact Hlt |].
  exact (utils_diatonicToSemitones_increasing HarmonicMinor (-3) 2 Hlt).
Defined.

(** ** The harmony voice and the mapper on the root of the key *)

Lemma findStartDegree_root (scale : Scale) :
  PitchMapper.findStartDegree (getScaleIntervals scale) 0 0 0 = 0.
Proof. by destruct scale. Qed.

Lemma diatonic_conversions_agree_on_root (pm0 : PitchMapper.t) (key : Key)
    (scale : Scale) (voices : list PitchMapper.HarmonySettings)
    (d : Z) (m : f32) (n : Z) :
  let pm := PitchMapper.updateFromParameters pm0 key scale voices in
  to_int (fround m) = Some n ->
  PitchMapper.relativePitchClassOf pm n = 0 ->
  PitchMapper.diatonicToSemitones pm d m
    = Some (NovaTuneUtils.diatonicToSemitones d (getScaleIntervals scale)).
Proof.
  intros pm Hn Hroot.
  assert (PitchMapper.scaleIntervals pm <> []) as Hne
    by apply (updateFromParameters_wellFormed pm0 key scale voices).
  destruct (diatonicToSemitones_wrapped pm d m n Hne Hn) as [_ ->].
  rewrite Hroot. simpl PitchMapper.scaleIntervals.
  rewrite findStartDegree_root, scale_table_head.
  rewrite utils_diatonicToSemitones_floor
    by (first [apply scale_table_length | apply scale_table_head]).
  f_equal. rewrite Z.add_0_l. lia.
Qed.

(** X11.  When the lead is on the root of the key, a diatonic harmony
    voice and the mapper compute the same harmony note, for every
    interval setting, key and scale: the conversion of the voice, which
    counts from the root, then counts from the lead. *)
Theorem harmony_voice_agrees_with_mapper_on_root (pm0 : PitchMapper.t)
    (key : Key) (scale : Scale) (voices : list PitchMapper.HarmonySettings)
    (i : Z) (settings : PitchMapper.HarmonySettings) (hv : HarmonyVoice.t)
    (m : f32) (n : Z) :
  let pm := PitchMapper.updateFromParameters pm0 key scale voices in
  0 <= i < DSPConfig.maxHarmonyVoices ->
  voices !! Z.to_nat i = Some settings ->
  PitchMapper.enabled settings = true ->
  PitchMapper.mode settings = Diatonic ->
  HarmonyVoice.mode hv = Diatonic ->
  HarmonyVoice.diatonicIntervalIndex hv = PitchMapper.diatonicIntervalIndex settings ->
  to_int (fround m) = Some n ->
  PitchMapper.relativePitchClassOf pm n = 0 ->
  PitchMapper.calculateHarmonyTarget pm i m
    = Some (HarmonyVoice.harmonyTargetMidi hv pm m).
Proof.
  intros pm Hi Hst Hen Hmode Hhv Hidx Hn Hroot.
  unfold PitchMapper.calculateHarmonyTarget, HarmonyVoice.harmonyTargetMidi.
  destruct (Z.ltb_spec i 0); [lia |].
  destruct (Z.leb_spec DSPConfig.maxHarmonyVoices i); [lia |].
  cbn [orb]. simpl PitchMapper.harmonySettings. rewrite Hst.
  change (default PitchMapper.defaultSettings (Some settings)) with settings.
  rewrite Hen, Hmode, Hhv, Hidx. cbn [negb].
  rewrite (diatonic_conversions_agree_on_root pm0 key scale voices _ m n Hn Hroot).
  done.
Qed.

Lemma harmony_voice_agrees_with_mapper_on_root_witness :
  let voices := [PitchMapper.defaultSettings; voiceSettings Diatonic 2] in
  let pm := PitchMapper.updateFromParameters PitchMapper.init A NaturalMinor voices in
  let m := ratio 572 10 in
  0 <= 1 < DSPConfig.maxHarmonyVoices /\
  voices !! Z.to_nat 1 = Some (voiceSettings Diatonic 2) /\
  PitchMapper.enabled (voiceSettings Diatonic 2) = true /\
  PitchMapper.mode (voiceSettings Diatonic 2) = Diatonic /\
  HarmonyVoice.mode (diatonicVoice 2) = Diatonic /\
  HarmonyVoice.diatonicIntervalIndex (diatonicVoice 2)
    = PitchMapper.diatonicIntervalIndex (voiceSettings Diatonic 2) /\
  to_int (fround m) = Some 57 /\
  PitchMapper.relativePitchClassOf pm 57 = 0 /\
  PitchMapper.calculateHarmonyTarget pm 1 m
    = Some (HarmonyVoice.harmonyTargetMidi (diatonicVoice 2) pm m).
Proof.
  intros voices pm m.
  assert (0 <= 1 < DSPConfig.maxHarmonyVoices) as Hi by (unfold DSPConfig.maxHarmonyVoices; lia).
  assert (to_int (fround m) = Some 57) as Hn by reflexivity.
  assert (PitchMapper.relativePitchClassOf pm 57 = 0) as Hroot by reflexivity.
  repeat (split; [first [exact Hi | exact Hn | exact Hroot | reflexivity] |]).
  exact (harmony_voice_agrees_with_mapper_on_root PitchMapper.init A NaturalMinor
           voices 1 (voiceSettings Diatonic 2) (diatonicVoice 2) m 57
           Hi eq_refl eq_refl eq_refl eq_refl eq_refl Hn Hroot).
Defined.

(** ** The mapping of one block *)

Lemma calculateHarmonyTarget_defined (pm : PitchMapper.t) (i : Z) (base : f32) (q : Z) :
  PitchMapper.scaleIntervals pm <> [] ->
  to_int (fround base) = Some q ->
  is_Some (PitchMapper.calculateHarmonyTarget pm i base).
Proof.
  intros Hne Hq. unfold PitchMapper.calculateHarmonyTarget.
  destruct (_ || _); [by eexists |].
  destruct (negb _); [by eexists |].
  destruct (PitchMapper.mode _); try by eexists.
  destruct (diatonicToSemitones_total pm
              (diatonicIndexToScaleDegree
                 (PitchMapper.diatonicIntervalIndex
                    (default PitchMapper.defaultSettings
                       (PitchMapper.harmonySettings pm !! Z.to_nat i))))
              base q Hne Hq) as [sem ->].
  by eexists.
Qed.

(** X12.  For a voiced detector whose note rounds to an integer that
    binary32 holds exactly, [map] returns a result (every conversion to
    [int] on its way is defined, the octave loops of the harmony targets
    end), stores it as the last result, and the lead target in it is a
    note of the scale. *)
Theorem map_voiced_defined `{Libm} (pm0 : PitchMapper.t) (key : Key) (scale : Scale)
    (voices : list PitchMapper.HarmonySettings) (detector : PitchDetector.t) (n : Z) :
  let pm := PitchMapper.updateFromParameters pm0 key scale voices in
  PitchDetector.isVoiced detector = true ->
  valid (PitchDetector.getMidiNote detector) = true ->
  to_int (fround (PitchDetector.getMidiNote detector)) = Some n ->
  Z.abs n < 2 ^ 24 - 6 ->
  exists result pm' q,
    PitchMapper.map pm detector = Some (result, pm') /\
    PitchMapper.getLastResult pm' = result /\
    PitchMapper.isVoiced result = true /\
    PitchMapper.detectedMidiNote result = PitchDetector.getMidiNote detector /\
    to_int (PitchMapper.leadTargetMidiNote result) = Some q /\
    PitchMapper.isNoteInScale pm q = true /\
    length (PitchMapper.harmonyTargetMidiNotes result) = 3%nat.
Proof.
  intros pm Hv Hvalid Hn Hlt.
  pose proof (updateFromParameters_wellFormed pm0 key scale voices) as Hwf.
  fold pm in Hwf.
  destruct (quantizeToScale_integer pm0 key scale voices _ n Hn Hlt) as (r & Hr & Hq).
  fold pm in Hr, Hq.
  assert (to_int (fround r) = Some (quantizedNote pm n)) as Hround.
  { rewrite quantizeToScale_unfold in Hr.
    destruct (Scale_eqb _ _).
    - injection Hr as <-.
      rewrite (fround_idempotent _ n Hvalid Hn) by lia. exact Hq.
    - rewrite Hn in Hr. simpl in Hr. injection Hr as <-.
      pose proof (quantizedNote_near pm n Hwf).
      rewrite fround_of_int, to_int_of_int by lia. done. }
  unfold PitchMapper.map. rewrite Hv. cbn [negb]. rewrite Hr.
  cbn [mbind option_bind].
  assert (forall i, is_Some
            (if PitchMapper.enabled
                  (default PitchMapper.defaultSettings
                     (PitchMapper.harmonySettings pm !! Z.to_nat i))
             then PitchMapper.calculateHarmonyTarget pm i r else Some zero)) as Hh.
  { intros i. destruct (PitchMapper.enabled _); [| by eexists].
    eapply calculateHarmonyTarget_defined; [apply Hwf | exact Hround]. }
  destruct (Hh 0) as [h0 ->]. destruct (Hh 1) as [h1 ->]. destruct (Hh 2) as [h2 ->].
  cbn [mbind option_bind].
  eexists _, _, (quantizedNote pm n). split; [done |].
  cbn [PitchMapper.getLastResult PitchMapper.set_lastResult PitchMapper.lastResult
       PitchMapper.isVoiced PitchMapper.detectedMidiNote PitchMapper.leadTargetMidiNote
       PitchMapper.harmonyTargetMidiNotes].
  repeat split; [done |].
  by apply quantizedNote_in_scale.
Qed.

Lemma map_voiced_defined_witness :
  let detector := voicedDetector (of_int 445) (ratio 692 10) in
  let pm := PitchMapper.updateFromParameters PitchMapper.init C Major
              [voiceSettings Diatonic 9; voiceSettings Semitone 0;
               PitchMapper.defaultSettings] in
  PitchDetector.isVoiced detector = true /\
  valid (PitchDetector.getMidiNote detector) = true /\
  to_int (fround (PitchDetector.getMidiNote detector)) = Some 69 /\
  Z.abs 69 < 2 ^ 24 - 6 /\
  exists result pm' q,
    @PitchMapper.map saturatingLibm pm detector = Some (result, pm') /\
    PitchMapper.getLastResult pm' = result /\
    PitchMapper.isVoiced result = true /\
    PitchMapper.detectedMidiNote result = PitchDetector.getMidiNote detector /\
    to_int (PitchMapper.leadTargetMidiNote result) = Some q /\
    PitchMapper.isNoteInScale pm q = true /\
    length (PitchMapper.harmonyTargetMidiNotes result) = 3%nat.
Proof.
  intros detector pm.
  assert (PitchDetector.isVoiced detector = true) as Hv by reflexivity.
  assert (valid (PitchDetector.getMidiNote detector) = true) as Hvalid by reflexivity.
  assert (to_int (fround (PitchDetector.getMidiNote detector)) = Some 69) as Hn
    by reflexivity.
  assert (Z.abs 69 < 2 ^ 24 - 6) as Hlt by reflexivity.
  do 4 (split; [assumption |]).
  exact (@map_voiced_defined saturatingLibm PitchMapper.init C Major _ detector 69
           Hv Hvalid Hn Hlt).
Defined.

(** ** The difference function at the period of the frame *)

Lemma fsub_self (x : f32) : is_finite x = true -> fsub x x = zero.
Proof.
  destruct x as [[] | | | s m e]; try done. intros _.
  unfold fsub, SFsub. rewrite Z.min_id, Z.sub_diag. done.
Qed.

Lemma sumTo_zero (n : nat) (f : Z -> f32) :
  (forall k, 0 <= k < Z.of_nat n -> f k = zero) -> sumTo n f = zero.
Proof.
  induction n as [| n IH]; intros Hf; [done |].
  cbn [sumTo]. rewrite IH by (intros k Hk; apply Hf; lia).
  rewrite Hf by lia. done.
Qed.

(** X13.  For a frame of numbers that repeats with period [tau] over the
    summation window (x[j + tau] = x[j] for j below W / 2), the
    difference function is exactly 0 at lag [tau]. *)
Theorem difference_is_zero_at_the_period (x : list f32) (W : Z) (yb : list f32)
    (tau : Z) :
  1 <= tau < Z.quot W 2 ->
  tau < Z.of_nat (length yb) ->
  (forall j, 0 <= j < Z.quot W 2 ->
     is_finite (rd x j) = true /\ rd x (j + tau) = rd x j) ->
  rd (PitchDetector.computeDifferenceFunction x W yb) tau = zero.
Proof.
  intros Htau Hlen Hperiodic.
  destruct (computeDifferenceFunction_read x W yb tau) as [_ ->].
  destruct (Z.leb_spec 1 tau); [| lia].
  destruct (Z.ltb_spec tau (Z.quot W 2)); [| lia].
  destruct (Z.ltb_spec tau (Z.of_nat (length yb))); [| lia].
  cbn [andb]. rewrite differenceSum_sumTo.
  apply sumTo_zero. intros k Hk.
  destruct (Hperiodic k ltac:(lia)) as [Hfin Heq].
  unfold squaredDifference. rewrite Heq, fsub_self by done. done.
Qed.

Lemma difference_is_zero_at_the_period_witness :
  let x := concat (replicate 4 [one; zero; fneg one; half]) in
  let yb := replicate 8 one in
  1 <= 4 < Z.quot 16 2 /\
  4 < Z.of_nat (length yb) /\
  (forall j, 0 <= j < Z.quot 16 2 ->
     is_finite (rd x j) = true /\ rd x (j + 4) = rd x j) /\
  rd (PitchDetector.computeDifferenceFunction x 16 yb) 4 = zero.
Proof.
  intros x yb.
  assert (1 <= 4 < Z.quot 16 2) as Htau by (change (Z.quot 16 2) with 8; lia).
  assert (4 < Z.of_nat (length yb)) as Hlen by (simpl; lia).
  assert (forall j, 0 <= j < Z.quot 16 2 ->
            is_finite (rd x j) = true /\ rd x (j + 4) = rd x j) as Hperiodic.
  { intros j Hj. change (Z.quot 16 2) with 8 in Hj.
    assert (j = 0 \/ j = 1 \/ j = 2 \/ j = 3 \/ j = 4 \/ j = 5 \/ j = 6 \/ j = 7)
      as Hcases by lia.
    repeat (destruct Hcases as [-> | Hcases]; [by split |]).
    subst j. by split. }
  split; [exact Htau | split; [exact Hlen | split; [exact Hperiodic |]]].
  exact (difference_is_zero_at_the_period x 16 yb 4 Htau Hlen Hperiodic).
Defined.

(** ** The values of the normalised difference *)

Lemma cmnd_body_value (tau : Z) (yb : list f32) (c : f32) :
  0 <= tau < Z.of_nat (length yb) ->
  let c' := fadd c (rd yb tau) in
  exists yb',
    PitchDetector.cmnd_body tau (yb, c) = (yb', c') /\
    length yb' = length yb /\
    rd yb' tau = (if fgt c' zero then fmul (rd yb tau) (fdiv (of_int tau) c') else one) /\
    forall i, i <> tau -> rd yb' i = rd yb i.
Proof.
  intros Htau c'.
  unfold PitchDetector.cmnd_body, PitchDetector.cmnd_accumulate,
    PitchDetector.cmnd_scale, PitchDetector.cmnd_guard.
  cbn [fst snd]. fold c'.
  destruct (fgt c' zero).
  - eexists. split; [done |]. rewrite length_wr. repeat split.
    + by apply rd_wr_same.
    + intros i Hi. by apply rd_wr_other.
  - eexists. split; [done |]. rewrite !length_wr. repeat split.
    + apply rd_wr_same. by rewrite length_wr.
    + intros i Hi. by rewrite !rd_wr_other.
Qed.

Lemma cmnd_loop_values (yb : list f32) (n : nat) :
  (Z.of_nat n < Z.of_nat (length yb)) ->
  let f := fun k => rd yb (k + 1) in
  exists yb',
    for_range n 1 PitchDetector.cmnd_body (wr yb 0 one, zero) = (yb', sumTo n f) /\
    length yb' = length yb /\
    rd yb' 0 = one /\
    (forall i, 1 <= i <= Z.of_nat n ->
       rd yb' i = if fgt (sumTo (Z.to_nat i) f) zero
                  then fmul (rd yb i) (fdiv (of_int i) (sumTo (Z.to_nat i) f))
                  else one) /\
    (forall i, Z.of_nat n < i -> rd yb' i = rd yb i).
Proof.
  intros Hn f. induction n as [| n IH].
  - exists (wr yb 0 one). split; [done |]. rewrite length_wr. repeat split.
    + apply rd_wr_same. lia.
    + intros i Hi. lia.
    + intros i Hi. apply rd_wr_other. lia.
  - destruct (IH ltac:(lia)) as (ybn & Hrun & Hlen & H0 & Hval & Hrest).
    rewrite for_range_snoc, Hrun.
    destruct (cmnd_body_value (1 + Z.of_nat n) ybn (sumTo n f))
      as (yb' & -> & Hlen' & Hnew & Hold); [lia |].
    assert (fadd (sumTo n f) (rd ybn (1 + Z.of_nat n)) = sumTo (S n) f) as Hsum.
    { cbn [sumTo]. f_equal. rewrite Hrest by lia. unfold f. f_equal. lia. }
    rewrite Hsum in Hnew |- *.
    exists yb'. split; [done |]. repeat split.
    + congruence.
    + rewrite Hold by lia. exact H0.
    + intros i Hi. destruct (Z.eq_dec i (1 + Z.of_nat n)) as [-> | Hne].
      * rewrite Hnew, Hrest by lia.
        replace (Z.to_nat (1 + Z.of_nat n)) with (S n) by lia. done.
      * rewrite Hold by done. apply Hval. lia.
    + intros i Hi. rewrite Hold by lia. apply Hrest. lia.
Qed.

(** X14.  The buffer [computeCumulativeMeanNormalizedDifference] leaves
    is the function its comment defines: 1 at lag 0 and, at every other
    lag, the difference times the lag over the running sum of the
    differences up to the lag, or 1 when that sum is not positive (so for
    a zero or NaN sum as well). *)
Theorem cmnd_values (yb : list f32) (tau : Z) :
  let normalized := PitchDetector.computeCumulativeMeanNormalizedDifference yb in
  let cumulativeSum := sumTo (Z.to_nat tau) (fun k => rd yb (k + 1)) in
  1 <= tau < Z.of_nat (length yb) ->
  length normalized = length yb /\
  rd normalized 0 = one /\
  rd normalized tau =
    if fgt cumulativeSum zero
    then fmul (rd yb tau) (fdiv (of_int tau) cumulativeSum)
    else one.
Proof.
  intros normalized cumulativeSum Htau.
  subst normalized cumulativeSum.
  unfold PitchDetector.computeCumulativeMeanNormalizedDifference, for_loop.
  rewrite length_wr.
  destruct (cmnd_loop_values yb (Z.to_nat (Z.of_nat (length yb) - 1)) ltac:(lia))
    as (yb' & -> & Hlen & H0 & Hval & _).
  cbn [fst]. repeat split; [done | done |].
  apply Hval. lia.
Qed.

Lemma cmnd_values_witness :
  let yb := [zero; of_int 8; of_int 16; of_int 8; zero; of_int 8] in
  let normalized := PitchDetector.computeCumulativeMeanNormalizedDifference yb in
  let cumulativeSum := sumTo (Z.to_nat 3) (fun k => rd yb (k + 1)) in
  1 <= 3 < Z.of_nat (length yb) /\
  length normalized = length yb /\
  rd normalized 0 = one /\
  rd normalized 3 =
    if fgt cumulativeSum zero
    then fmul (rd yb 3) (fdiv (of_int 3) cumulativeSum)
    else one.
Proof.
  intros yb normalized cumulativeSum.
  assert (1 <= 3 < Z.of_nat (length yb)) as Htau by (simpl; lia).
  split; [exact Htau |].
  exact (cmnd_values yb 3 Htau).
Defined.

(** ** The lag chosen by the threshold step *)

Lemma flt_trans (x y z : f32) : flt x y = true -> flt y z = true -> flt x z = true.
Proof.
  unfold flt, SFltb.
  destruct x as [sx | sx | | sx mx ex], y as [sy | sy | | sy my ey],
    z as [sz | sz | | sz mz ez]; simpl;
    try done;
    try (destruct sx; done); try (destruct sy; done); try (destruct sz; done);
    try (destruct sx, sy; done); try (destruct sx, sz; done);
    try (destruct sy, sz; done); try (destruct sx, sy, sz; done).
  change (Pos.compare_cont Eq mx my) with (Pos.compare mx my).
  change (Pos.compare_cont Eq my mz) with (Pos.compare my mz).
  change (Pos.compare_cont Eq mx mz) with (Pos.compare mx mz).
  destruct sx, sy, sz; try done;
    destruct (Z.compare_spec ex ey), (Z.compare_spec ey ez), (Z.compare_spec ex ez);
    try done; try lia;
    destruct (Pos.compare_spec mx my), (Pos.compare_spec my mz),
      (Pos.compare_spec mx mz); simpl; try done; lia.
Qed.

Lemma descend_range (n : nat) (yb : list f32) (maxTau tau : Z) :
  tau <= PitchDetector.descend n yb maxTau tau /\
  (tau < maxTau -> PitchDetector.descend n yb maxTau tau < maxTau).
Proof.
  revert tau. induction n as [| n IH]; intros tau; simpl; [lia |].
  destruct (Z.ltb_spec (tau + 1) maxTau) as [Hlt | Hge]; simpl; [| lia].
  destruct (flt _ _); [| lia].
  specialize (IH (tau + 1)). lia.
Qed.

(** The descent to the local minimum only moves to smaller values. *)
Lemma descend_below (n : nat) (yb : list f32) (maxTau tau : Z) (bound : f32) :
  flt (rd yb tau) bound = true ->
  flt (rd yb (PitchDetector.descend n yb maxTau tau)) bound = true.
Proof.
  revert tau. induction n as [| n IH]; intros tau Hb; simpl; [done |].
  destruct (tau + 1 <? maxTau); simpl; [| done].
  destruct (flt (rd yb (tau + 1)) (rd yb tau)) eqn:Hstep; [| done].
  apply IH. by eapply flt_trans.
Qed.

Lemma firstDip_range (n : nat) (yb : list f32) (maxTau tau found : Z) :
  tau + Z.of_nat n <= maxTau ->
  PitchDetector.firstDip n yb maxTau tau = Some found ->
  tau <= found < maxTau /\ flt (rd yb found) DSPConfig.yinThreshold = true.
Proof.
  revert tau. induction n as [| n IH]; intros tau Hfuel; simpl; [done |].
  destruct (flt (rd yb tau) DSPConfig.yinThreshold) eqn:Hdip.
  - intros [= <-]. pose proof (descend_range n yb maxTau tau).
    split; [lia | by apply descend_below].
  - intros Hrest. apply IH in Hrest as [Hin Hv]; [split; [lia | done] | lia].
Qed.

Lemma globalMinimum_range (yb : list f32) (minTau maxTau : Z) :
  minTau < maxTau ->
  minTau <= (PitchDetector.globalMinimum yb minTau maxTau).2 < maxTau /\
  (PitchDetector.globalMinimum yb minTau maxTau).1
    = rd yb (PitchDetector.globalMinimum yb minTau maxTau).2.
Proof.
  intros Hlt. unfold PitchDetector.globalMinimum, for_loop.
  assert (forall n lo (acc : f32 * Z),
            minTau <= acc.2 < lo -> acc.1 = rd yb acc.2 ->
            lo + Z.of_nat n <= maxTau ->
            let res := for_range n lo
                         (fun t acc => if flt (rd yb t) acc.1 then (rd yb t, t) else acc)
                         acc in
            minTau <= res.2 < maxTau /\ res.1 = rd yb res.2) as Hloop.
  { induction n as [| n IH]; intros lo acc Hacc Hval Hfuel; simpl; [split; [lia | done] |].
    apply IH; [| | lia]; destruct (flt _ _); simpl; try done; lia. }
  apply Hloop; simpl; [lia | done | lia].
Qed.

(** X15.  When the search window of [absoluteThreshold] is not empty the
    step returns either 0 (unvoiced) or a lag inside the window, which
    starts at 2 or above and ends before the last entry of the YIN
    buffer, so that the lag has both its neighbours in the buffer; and
    the normalised difference at a lag it returns is below 0.5. *)
Theorem absoluteThreshold_lag_in_window (d : PitchDetector.t) (minTau maxTau : Z) :
  PitchDetector.tauBounds d = Some (minTau, maxTau) ->
  minTau < maxTau ->
  exists rawPeriod,
    PitchDetector.absoluteThreshold d = Some rawPeriod /\
    (rawPeriod = zero \/
     exists tau,
       rawPeriod = of_int tau /\ minTau <= tau < maxTau /\
       2 <= tau /\ tau + 1 < Z.of_nat (length (PitchDetector.yinBuffer d)) /\
       flt (rd (PitchDetector.yinBuffer d) tau) half = true).
Proof.
  intros Hb Hlt.
  destruct (tauBounds_range d minTau maxTau Hb) as [Hlo Hhi].
  unfold PitchDetector.absoluteThreshold. rewrite Hb.
  cbn [mbind option_bind].
  destruct (PitchDetector.firstDip _ _ _ _) as [tau |] eqn:Hdip.
  - apply firstDip_range in Hdip as [Hin Hval]; [| lia].
    eexists. split; [done |]. right. exists tau.
    repeat split; try lia. by eapply flt_trans.
  - pose proof (globalMinimum_range (PitchDetector.yinBuffer d) minTau maxTau Hlt)
      as [Hg Hval].
    destruct (PitchDetector.globalMinimum _ _ _) as [minValue minIndex].
    simpl in Hg, Hval.
    destruct (flt minValue half) eqn:Hmin.
    + eexists. split; [done |]. right. exists minIndex.
      repeat split; try lia. by rewrite <- Hval.
    + eexists. split; [done |]. by left.
Qed.

Lemma absoluteThreshold_lag_in_window_witness :
  let d := preparedDetector 44100 LowMale in
  PitchDetector.tauBounds d = Some (98, 678) /\
  98 < 678 /\
  exists rawPeriod,
    PitchDetector.absoluteThreshold d = Some rawPeriod /\
    (rawPeriod = zero \/
     exists tau,
       rawPeriod = of_int tau /\ 98 <= tau < 678 /\
       2 <= tau /\ tau + 1 < Z.of_nat (length (PitchDetector.yinBuffer d)) /\
       flt (rd (PitchDetector.yinBuffer d) tau) half = true).
Proof.
  intros d.
  assert (PitchDetector.tauBounds d = Some (98, 678)) as Hb by (vm_compute; reflexivity).
  assert (98 < 678) as Hlt by reflexivity.
  split; [exact Hb | split; [exact Hlt |]].
  exact (absoluteThreshold_lag_in_window d 98 678 Hb Hlt).
Defined.

(** ** What one analysis leaves behind *)

Lemma cmnd_body_length (tau : Z) (st : list f32 * f32) :
  length (PitchDetector.cmnd_body tau st).1 = length st.1.
Proof.
  unfold PitchDetector.cmnd_body, PitchDetector.cmnd_guard, PitchDetector.cmnd_scale,
    PitchDetector.cmnd_accumulate.
  simpl. destruct (fgt _ _); simpl; by rewrite ?length_wr.
Qed.

Lemma cmnd_length (yb : list f32) :
  length (PitchDetector.computeCumulativeMeanNormalizedDifference yb) = length yb.
Proof.
  unfold PitchDetector.computeCumulativeMeanNormalizedDifference, for_loop.
  assert (forall n lo (st : list f32 * f32),
            length (for_range n lo PitchDetector.cmnd_body st).1 = length st.1) as Hloop.
  { induction n as [| n IH]; intros lo st; simpl; [done |].
    by rewrite IH, cmnd_body_length. }
  rewrite Hloop. simpl. apply length_wr.
Qed.

(** An analysis changes the YIN buffer and the detection results only:
    the configuration and the size of the buffer stay. *)
Lemma analyse_configuration `{Libm} (d d' : PitchDetector.t) (frame : list f32) :
  PitchDetector.analyse d frame = Some d' ->
  PitchDetector.sampleRate d' = PitchDetector.sampleRate d /\
  PitchDetector.frameSize d' = PitchDetector.frameSize d /\
  PitchDetector.hopSize d' = PitchDetector.hopSize d /\
  PitchDetector.minFreqHz d' = PitchDetector.minFreqHz d /\
  PitchDetector.maxFreqHz d' = PitchDetector.maxFreqHz d /\
  length (PitchDetector.yinBuffer d') = length (PitchDetector.yinBuffer d).
Proof.
  unfold PitchDetector.analyse.
  cbn [PitchDetector.yinBuffer PitchDetector.set_yinBuffer].
  set (yb1 := PitchDetector.computeDifferenceFunction _ _ _).
  set (yb2 := PitchDetector.computeCumulativeMeanNormalizedDifference yb1).
  assert (length yb2 = length (PitchDetector.yinBuffer d)) as Hlen.
  { unfold yb2. rewrite cmnd_length. unfold yb1.
    apply (computeDifferenceFunction_read frame _ _ 0). }
  destruct (PitchDetector.absoluteThreshold _) as [rawPeriod |]; [| discriminate].
  cbn [mbind option_bind].
  destruct (fgt rawPeriod zero).
  - destruct (to_int rawPeriod) as [tauInt |]; [| discriminate].
    cbn [mbind option_bind].
    destruct (_ && _); intros [= <-]; simpl; repeat split; exact Hlen.
  - intros [= <-]. simpl. repeat split; exact Hlen.
Qed.

Lemma analyse_keeps_ready `{Libm} (d d' : PitchDetector.t) (frame : list f32) :
  PitchDetector.analyse d frame = Some d' ->
  readyForAnalysis d' = readyForAnalysis d.
Proof.
  intros (Hsr & Hfs & _ & Hlo & Hhi & Hlen)%analyse_configuration.
  unfold readyForAnalysis, PitchDetector.tauBounds.
  by rewrite Hsr, Hfs, Hlo, Hhi, Hlen.
Qed.

(** X16.  After an analysis the detector reports voiced only with a
    frequency inside the range of the selected voice type (so never with
    a NaN), and whenever it reports unvoiced its confidence is 0; the
    analysis leaves the detector ready for the next one. *)
Theorem analyse_voiced_only_in_range `{Libm} (d d' : PitchDetector.t)
    (frame : list f32) :
  PitchDetector.analyse d frame = Some d' ->
  (PitchDetector.isVoiced d' = true ->
   fge (PitchDetector.getFrequencyHz d') (PitchDetector.minFreqHz d)
   && fle (PitchDetector.getFrequencyHz d') (PitchDetector.maxFreqHz d) = true /\
   is_nan (PitchDetector.getFrequencyHz d') = false) /\
  (PitchDetector.isVoiced d' = false -> PitchDetector.getConfidence d' = zero) /\
  readyForAnalysis d' = readyForAnalysis d.
Proof.
  intros Han. repeat split; [| | | by eapply analyse_keeps_ready].
  all: revert Han; unfold PitchDetector.analyse;
    cbn [PitchDetector.yinBuffer PitchDetector.set_yinBuffer
         PitchDetector.minFreqHz PitchDetector.maxFreqHz];
    destruct (PitchDetector.absoluteThreshold _) as [rawPeriod |]; [| discriminate];
    cbn [mbind option_bind];
    destruct (fgt rawPeriod zero);
    [ destruct (to_int rawPeriod) as [tauInt |]; [| discriminate];
      cbn [mbind option_bind];
      match goal with
      | |- context [if ?c then _ else _] => destruct c eqn:Hrange
      end
    | ];
    intros [= <-]; simpl; try done.
  apply andb_true_iff in Hrange as [Hge _].
  unfold fge, SFleb in Hge.
  match goal with
  | |- is_nan ?f = false =>
      destruct f; [done | done | | done];
      by destruct (PitchDetector.minFreqHz d)
  end.
Qed.

Lemma analyse_voiced_only_in_range_witness :
  let d := preparedDetector 8000 Instrument in
  let d' := default d (@PitchDetector.analyse saturatingLibm d tone8) in
  @PitchDetector.analyse saturatingLibm d tone8 = Some d' /\
  PitchDetector.isVoiced d' = true /\
  (PitchDetector.isVoiced d' = true ->
   fge (PitchDetector.getFrequencyHz d') (PitchDetector.minFreqHz d)
   && fle (PitchDetector.getFrequencyHz d') (PitchDetector.maxFreqHz d) = true /\
   is_nan (PitchDetector.getFrequencyHz d') = false) /\
  (PitchDetector.isVoiced d' = false -> PitchDetector.getConfidence d' = zero) /\
  readyForAnalysis d' = readyForAnalysis d.
Proof.
  intros d d'.
  assert (@PitchDetector.analyse saturatingLibm d tone8 = Some d') as Han
    by (vm_compute; reflexivity).
  split; [exact Han |]. split; [vm_compute; reflexivity |].
  exact (@analyse_voiced_only_in_range saturatingLibm d d' tone8 Han).
Defined.

(** ** The ring buffer of the detector *)

Lemma rd_cons_succ (x : f32) (xs : list f32) (i : Z) :
  1 <= i -> rd (x :: xs) i = rd xs (i - 1).
Proof.
  intros Hi. unfold rd.
  destruct (Z.ltb_spec i 0); [lia |]. destruct (Z.ltb_spec (i - 1) 0); [lia |].
  replace (Z.to_nat i) with (S (Z.to_nat (i - 1))) by lia. done.
Qed.

Lemma ring_position_distinct (R p k : Z) :
  0 <= p < R -> 1 <= k < R -> (p + k) mod R <> p.
Proof.
  intros Hp Hk Heq.
  pose proof (Z.div_mod (p + k) R ltac:(lia)) as Hdm. rewrite Heq in Hdm.
  assert (k = R * ((p + k) / R)) as Hmul by lia.
  destruct (Z_le_gt_dec ((p + k) / R) 0); nia.
Qed.

(** Feeding a run of samples into the ring: they sit at the positions
    after the old write position, in order, and the other cells keep
    their contents. *)
Lemma ring_feed (xs ring : list f32) (p : Z) :
  let R := Z.of_nat (length ring) in
  let st := fold_left PitchDetector.ringWrite xs (ring, p) in
  0 <= p < R -> Z.of_nat (length xs) <= R ->
  length st.1 = length ring /\
  st.2 = (p + Z.of_nat (length xs)) mod R /\
  (forall i, 0 <= i < Z.of_nat (length xs) -> rd st.1 ((p + i) mod R) = rd xs i) /\
  (forall j, (forall i, 0 <= i < Z.of_nat (length xs) -> j <> (p + i) mod R) ->
             rd st.1 j = rd ring j).
Proof.
  revert ring p. induction xs as [| x xs IH]; intros ring p R st Hp Hlen.
  - subst st. simpl. repeat split; [| intros i Hi; simpl in Hi; lia].
    rewrite Z.add_0_r, Z.mod_small; lia.
  - assert (st = fold_left PitchDetector.ringWrite xs (wr ring p x, (p + 1) mod R)) as ->.
    { subst st. cbn [fold_left]. unfold PitchDetector.ringWrite at 2.
      cbn [fst snd]. fold R. by rewrite Z.rem_mod_nonneg by lia. }
    simpl length in Hlen.
    pose proof (Z.mod_pos_bound (p + 1) R ltac:(lia)) as Hp1.
    specialize (IH (wr ring p x) ((p + 1) mod R)).
    rewrite length_wr in IH. fold R in IH.
    destruct (IH Hp1 ltac:(lia)) as (Hl & Hpos & Hread & Hframe).
    repeat split.
    + exact Hl.
    + rewrite Hpos, Zplus_mod_idemp_l. f_equal. simpl length. lia.
    + intros i Hi. simpl length in Hi.
      destruct (Z.eq_dec i 0) as [-> | Hi0].
      * rewrite Z.add_0_r, (Z.mod_small p R) by lia.
        rewrite Hframe.
        -- rewrite rd_wr_same by (fold R; lia). done.
        -- intros i' Hi'. rewrite Zplus_mod_idemp_l.
           replace (p + 1 + i') with (p + (1 + i')) by lia.
           intros Heq. symmetry in Heq. revert Heq.
           apply ring_position_distinct; lia.
      * rewrite rd_cons_succ by lia.
        rewrite <- (Hread (i - 1)) by lia.
        rewrite Zplus_mod_idemp_l. do 2 f_equal. lia.
    + intros j Hj. simpl length in Hj.
      rewrite Hframe.
      * apply rd_wr_other. intros Hpj.
        apply (Hj 0); [lia |]. rewrite Z.add_0_r, (Z.mod_small p R); lia.
      * intros i' Hi'. rewrite Zplus_mod_idemp_l.
        replace (p + 1 + i') with (p + (1 + i')) by lia.
        apply Hj. lia.
Qed.

Lemma extractFrame_read (ring : list f32) (writePos frameSize j : Z) :
  let ringSize := Z.of_nat (length ring) in
  let readPos := Z.rem (writePos - frameSize + ringSize) ringSize in
  length (PitchDetector.extractFrame ring writePos frameSize) = Z.to_nat frameSize /\
  (0 <= j < frameSize ->
   rd (PitchDetector.extractFrame ring writePos frameSize) j
     = rd ring (Z.rem (readPos + j) ringSize)).
Proof.
  intros ringSize readPos. unfold PitchDetector.extractFrame, for_loop.
  fold ringSize readPos.
  pose proof (for_range_pointwise
                (fun j _ => rd ring (Z.rem (readPos + j) ringSize))
                (Z.to_nat (frameSize - 0)) 0
                (replicate (Z.to_nat frameSize) zero) j ltac:(lia)) as [Hl Hr].
  cbv beta in Hl, Hr. rewrite Hl, Hr, length_replicate. split; [done |].
  intros Hj.
  destruct (Z.leb_spec 0 j); [| lia].
  destruct (Z.ltb_spec j (0 + Z.of_nat (Z.to_nat (frameSize - 0)))); [| lia].
  destruct (Z.ltb_spec j (Z.of_nat (Z.to_nat frameSize))); [| lia].
  done.
Qed.

Lemma samples_eq (a b : list f32) :
  length a = length b ->
  (forall i, 0 <= i < Z.of_nat (length b) -> rd a i = rd b i) ->
  a = b.
Proof.
  intros Hlen Hrd. apply list_eq. intros i.
  destruct (decide (i < length b)%nat) as [Hi | Hi].
  - specialize (Hrd (Z.of_nat i) ltac:(lia)). unfold rd in Hrd.
    destruct (Z.ltb_spec (Z.of_nat i) 0); [lia |]. rewrite Nat2Z.id in Hrd.
    destruct (lookup_lt_is_Some_2 a i ltac:(lia)) as [x Hx].
    destruct (lookup_lt_is_Some_2 b i Hi) as [y Hy].
    rewrite Hx, Hy in Hrd |- *. simpl in Hrd. by subst.
  - rewrite !lookup_ge_None_2 by lia. done.
Qed.

(** X17.  The ring buffer gives back what was fed: after the samples of
    a frame have been written, one after the other, the frame extracted
    before the write position is that run of samples, oldest first,
    wherever in the ring the run started and also when it wraps round the
    end of the ring. *)
Theorem ring_buffer_returns_last_frame (ring xs : list f32) (writePos : Z) :
  let st := fold_left PitchDetector.ringWrite xs (ring, writePos) in
  0 <= writePos < Z.of_nat (length ring) ->
  (length xs <= length ring)%nat ->
  PitchDetector.extractFrame st.1 st.2 (Z.of_nat (length xs)) = xs.
Proof.
  intros st Hp Hlen.
  destruct (ring_feed xs ring writePos Hp ltac:(lia)) as (Hl & Hpos & Hread & _).
  fold st in Hl, Hpos, Hread.
  set (R := Z.of_nat (length ring)) in *.
  set (F := Z.of_nat (length xs)) in *.
  assert (Z.of_nat (length st.1) = R) as HR by (unfold R; lia).
  pose proof (Z.mod_pos_bound (writePos + F) R ltac:(lia)) as Hbound.
  assert (Z.rem (st.2 - F + R) R = writePos) as Hstart.
  { rewrite Hpos, Z.rem_mod_nonneg by lia.
    replace ((writePos + F) mod R - F + R) with ((writePos + F) mod R + (R - F)) by lia.
    rewrite Zplus_mod_idemp_l.
    replace (writePos + F + (R - F)) with (writePos + 1 * R) by lia.
    rewrite Z_mod_plus_full. apply Z.mod_small. lia. }
  apply samples_eq.
  - destruct (extractFrame_read st.1 st.2 F 0) as [-> _]. unfold F. lia.
  - intros i Hi.
    destruct (extractFrame_read st.1 st.2 F i) as [_ Hr].
    rewrite Hr by exact Hi.
    rewrite HR, Hstart, Z.rem_mod_nonneg by lia.
    apply Hread. exact Hi.
Qed.

Lemma ring_buffer_returns_last_frame_witness :
  let ring := replicate 8 (of_int 9) in
  let xs := [of_int 1; of_int 2; of_int 3; of_int 4; of_int 5] in
  let st := fold_left PitchDetector.ringWrite xs (ring, 6) in
  0 <= 6 < Z.of_nat (length ring) /\
  (length xs <= length ring)%nat /\
  PitchDetector.extractFrame st.1 st.2 (Z.of_nat (length xs)) = xs.
Proof.
  intros ring xs st.
  assert (0 <= 6 < Z.of_nat (length ring)) as Hp by (simpl; lia).
  assert (length xs <= length ring)%nat as Hlen by (simpl; lia).
  split; [exact Hp | split; [exact Hlen |]].
  exact (ring_buffer_returns_last_frame ring xs 6 Hp Hlen).
Defined.

(** ** Silence through [process] *)

Lemma wr_silent (v : list f32) (i : Z) (x : f32) :
  Forall (fun s => isZero s = true) v -> isZero x = true ->
  Forall (fun s => isZero s = true) (wr v i x).
Proof.
  intros Hv Hx. unfold wr. destruct (i <? 0); [done |]. by apply Forall_insert.
Qed.

Lemma for_range_invariant {S : Type} (Inv : S -> Prop) (body : Z -> S -> S)
    (n : nat) (lo : Z) (s : S) :
  (forall i s, Inv s -> Inv (body i s)) -> Inv s -> Inv (for_range n lo body s).
Proof.
  intros Hstep. revert lo s. induction n as [| n IH]; intros lo s Hs; simpl; [done |].
  apply IH, Hstep, Hs.
Qed.

Lemma for_range_silent (g : Z -> list f32 -> f32) (n : nat) (lo : Z) (v : list f32) :
  (forall i v, Forall (fun s => isZero s = true) v -> isZero (g i v) = true) ->
  Forall (fun s => isZero s = true) v ->
  Forall (fun s => isZero s = true) (for_range n lo (fun i v => wr v i (g i v)) v).
Proof.
  intros Hg. apply (for_range_invariant (Forall (fun s => isZero s = true))).
  intros i w Hw. apply wr_silent; [done | by apply Hg].
Qed.

Lemma fadd_zeros (a b : f32) :
  isZero a = true -> isZero b = true -> isZero (fadd a b) = true.
Proof. destruct a as [[] | | |], b as [[] | | |]; done. Qed.

Lemma fmul_zero_half (a : f32) : isZero a = true -> isZero (fmul a half) = true.
Proof. by destruct a. Qed.

Lemma replicate_silent (n : nat) : Forall (fun s => isZero s = true) (replicate n zero).
Proof. by apply Forall_replicate. Qed.

(** The mono mix of a silent block of one or two channels is silent. *)
Lemma downmix_silent (buffer : list (list f32)) (numSamples : Z) :
  (1 <= length buffer <= 2)%nat ->
  Forall (Forall (fun s => isZero s = true)) buffer ->
  Forall (fun s => isZero s = true) (PitchDetector.downmix buffer numSamples).
Proof.
  intros Hch Hsilent. unfold PitchDetector.downmix, for_loop.
  assert (forall ch, Forall (fun s => isZero s = true)
                       (default [] (buffer !! Z.to_nat ch))) as Hchan.
  { intros ch. destruct (buffer !! Z.to_nat ch) as [c |] eqn:Hc; simpl; [| done].
    rewrite Forall_forall in Hsilent. apply Hsilent.
    by eapply list_elem_of_lookup_2. }
  set (copy := for_range _ 0 _ (replicate _ zero)).
  assert (Forall (fun s => isZero s = true) copy) as Hcopy.
  { apply (for_range_silent (fun i _ => rd (default [] (buffer !! Z.to_nat 0)) i)).
    - intros i _ _. by apply rd_all_zero.
    - apply replicate_silent. }
  set (sum := for_range _ 1 _ copy).
  assert (Forall (fun s => isZero s = true) sum) as Hsum.
  { apply (for_range_invariant (Forall (fun s => isZero s = true))); [| done].
    intros ch w Hw.
    apply (for_range_silent
             (fun i v => fadd (rd v i) (rd (default [] (buffer !! Z.to_nat ch)) i)));
      [| done].
    intros i v Hv. apply fadd_zeros; by apply rd_all_zero. }
  destruct (Z.ltb_spec 1 (Z.of_nat (length buffer))) as [Hmany | Hone]; [| done].
  assert (Z.of_nat (length buffer) = 2) as -> by lia.
  change (fdiv one (of_int 2)) with half.
  apply (for_range_silent (fun i v => fmul (rd v i) half)); [| done].
  intros i v Hv. by apply fmul_zero_half, rd_all_zero.
Qed.

Lemma extractFrame_silent (ring : list f32) (writePos frameSize : Z) :
  Forall (fun s => isZero s = true) ring ->
  Forall (fun s => isZero s = true) (PitchDetector.extractFrame ring writePos frameSize).
Proof.
  intros Hring. unfold PitchDetector.extractFrame, for_loop.
  apply (for_range_silent
           (fun j _ => rd ring (Z.rem (Z.rem (writePos - frameSize
                          + Z.of_nat (length ring)) (Z.of_nat (length ring)) + j)
                          (Z.of_nat (length ring))))).
  - intros j _ _. by apply rd_all_zero.
  - apply replicate_silent.
Qed.

Lemma analyse_silent_frame_ready `{Libm} (d : PitchDetector.t) (frame : list f32) :
  Forall (fun s => isZero s = true) frame ->
  readyForAnalysis d = true ->
  exists d',
    PitchDetector.analyse d frame = Some d' /\
    PitchDetector.isVoiced d' = false /\
    PitchDetector.getConfidence d' = zero /\
    PitchDetector.hopSize d' = PitchDetector.hopSize d /\
    readyForAnalysis d' = true.
Proof.
  intros Hsilent Hready.
  destruct (readyForAnalysis_spec d Hready) as (Hprep & lo & hi & Hb & Hlo).
  destruct (analyse_silent_frame d frame lo hi Hsilent Hprep Hb Hlo)
    as (d' & Hd' & Hv & Hc & _).
  exists d'. repeat split; [done | done | done | |].
  - by apply analyse_configuration in Hd' as (_ & _ & -> & _).
  - by rewrite (analyse_keeps_ready d d' frame Hd').
Qed.

(** The state in which a silent block finds and leaves the detector. *)
Lemma processSample_silent `{Libm} (x : f32) (d : PitchDetector.t)
    (r : PitchDetector.input) :
  isZero x = true ->
  readyForAnalysis d = true ->
  PitchDetector.isVoiced d = false -> PitchDetector.getConfidence d = zero ->
  Forall (fun s => isZero s = true) (PitchDetector.inputRingBuffer r) ->
  0 <= PitchDetector.ringBufferWritePos r
    < Z.of_nat (length (PitchDetector.inputRingBuffer r)) ->
  exists d' r',
    PitchDetector.processSample x (Some (d, r)) = Some (d', r') /\
    readyForAnalysis d' = true /\
    PitchDetector.isVoiced d' = false /\ PitchDetector.getConfidence d' = zero /\
    Forall (fun s => isZero s = true) (PitchDetector.inputRingBuffer r') /\
    0 <= PitchDetector.ringBufferWritePos r'
      < Z.of_nat (length (PitchDetector.inputRingBuffer r')).
Proof.
  intros Hx Hready Hv Hc Hring Hpos.
  unfold PitchDetector.processSample, PitchDetector.ringWrite.
  cbn [mbind option_bind fst snd].
  set (ring' := wr (PitchDetector.inputRingBuffer r) (PitchDetector.ringBufferWritePos r) x).
  set (R := Z.of_nat (length (PitchDetector.inputRingBuffer r))) in *.
  assert (Forall (fun s => isZero s = true) ring') as Hring' by by apply wr_silent.
  assert (Z.of_nat (length ring') = R) as HR by (unfold ring'; by rewrite length_wr).
  assert (0 <= Z.rem (PitchDetector.ringBufferWritePos r + 1) R < R) as Hpos'.
  { rewrite Z.rem_mod_nonneg by lia. apply Z.mod_pos_bound. lia. }
  destruct (Z.leb_spec (PitchDetector.samplesUntilNextAnalysis r - 1) 0).
  - destruct (analyse_silent_frame_ready d
                (PitchDetector.extractFrame ring'
                   (Z.rem (PitchDetector.ringBufferWritePos r + 1) R)
                   (PitchDetector.frameSize d)))
      as (d' & -> & Hv' & Hc' & _ & Hready'); [by apply extractFrame_silent | done |].
    cbn [mbind option_bind]. eexists _, _. split; [done |].
    cbn [PitchDetector.inputRingBuffer PitchDetector.ringBufferWritePos].
    rewrite HR. done.
  - eexists _, _. split; [done |].
    cbn [PitchDetector.inputRingBuffer PitchDetector.ringBufferWritePos].
    rewrite HR. done.
Qed.

(** X18.  A block of silence leaves a detector that is ready for
    analysis and unvoiced exactly so: for one or two channels of zeros of
    any length, [process] returns (no conversion it performs is
    undefined), the detector is still unvoiced with confidence 0 and
    ready, and the ring still holds zeros with the write position inside
    it, so that the next silent block finds the same state. *)
Theorem process_silent_block `{Libm} (d : PitchDetector.t) (r : PitchDetector.input)
    (buffer : list (list f32)) (numSamples : Z) :
  readyForAnalysis d = true ->
  PitchDetector.isVoiced d = false -> PitchDetector.getConfidence d = zero ->
  Forall (fun s => isZero s = true) (PitchDetector.inputRingBuffer r) ->
  0 <= PitchDetector.ringBufferWritePos r
    < Z.of_nat (length (PitchDetector.inputRingBuffer r)) ->
  (1 <= length buffer <= 2)%nat ->
  Forall (fun channel => Z.of_nat (length channel) = numSamples /\
                         Forall (fun s => isZero s = true) channel) buffer ->
  exists d' r',
    PitchDetector.process d r buffer numSamples = Some (d', r') /\
    readyForAnalysis d' = true /\
    PitchDetector.isVoiced d' = false /\ PitchDetector.getConfidence d' = zero /\
    Forall (fun s => isZero s = true) (PitchDetector.inputRingBuffer r') /\
    0 <= PitchDetector.ringBufferWritePos r'
      < Z.of_nat (length (PitchDetector.inputRingBuffer r')).
Proof.
  intros Hready Hv Hc Hring Hpos Hch Hbuf.
  unfold PitchDetector.process.
  destruct (numSamples =? 0); [by eexists _, _ |].
  assert (Forall (fun s => isZero s = true) (PitchDetector.downmix buffer numSamples))
    as Hmono.
  { apply downmix_silent; [done |]. eapply Forall_impl; [exact Hbuf |]. by intros c [_ ?]. }
  unfold for_loop.
  apply (for_range_invariant
           (fun st => exists d' r',
              st = Some (d', r') /\
              readyForAnalysis d' = true /\
              PitchDetector.isVoiced d' = false /\ PitchDetector.getConfidence d' = zero /\
              Forall (fun s => isZero s = true) (PitchDetector.inputRingBuffer r') /\
              0 <= PitchDetector.ringBufferWritePos r'
                < Z.of_nat (length (PitchDetector.inputRingBuffer r')))).
  - intros i st (d1 & r1 & -> & Hr1 & Hv1 & Hc1 & Hring1 & Hpos1).
    apply processSample_silent; try done. by apply rd_all_zero.
  - by eexists _, _.
Qed.

Lemma process_silent_block_witness :
  let d := preparedDetector 44100 AltoTenor in
  let r := preparedInput (PitchDetector.frameSize d) in
  let buffer := [replicate 64 zero; replicate 64 (S754_zero true)] in
  readyForAnalysis d = true /\
  PitchDetector.isVoiced d = false /\ PitchDetector.getConfidence d = zero /\
  Forall (fun s => isZero s = true) (PitchDetector.inputRingBuffer r) /\
  0 <= PitchDetector.ringBufferWritePos r
    < Z.of_nat (length (PitchDetector.inputRingBuffer r)) /\
  (1 <= length buffer <= 2)%nat /\
  Forall (fun channel => Z.of_nat (length channel) = 64 /\
                         Forall (fun s => isZero s = true) channel) buffer /\
  exists d' r',
    @PitchDetector.process saturatingLibm d r buffer 64 = Some (d', r') /\
    readyForAnalysis d' = true /\
    PitchDetector.isVoiced d' = false /\ PitchDetector.getConfidence d' = zero /\
    Forall (fun s => isZero s = true) (PitchDetector.inputRingBuffer r') /\
    0 <= PitchDetector.ringBufferWritePos r'
      < Z.of_nat (length (PitchDetector.inputRingBuffer r')).
Proof.
  intros d r buffer.
  assert (readyForAnalysis d = true) as Hready by (vm_compute; reflexivity).
  assert (PitchDetector.isVoiced d = false) as Hv by reflexivity.
  assert (PitchDetector.getConfidence d = zero) as Hc by reflexivity.
  assert (Forall (fun s => isZero s = true) (PitchDetector.inputRingBuffer r)) as Hring
    by (apply Forall_replicate; reflexivity).
  assert (0 <= PitchDetector.ringBufferWritePos r
            < Z.of_nat (length (PitchDetector.inputRingBuffer r))) as Hpos
    by (vm_compute; split; [discriminate | reflexivity]).
  assert (1 <= length buffer <= 2)%nat as Hch by (simpl; lia).
  assert (Forall (fun channel => Z.of_nat (length channel) = 64 /\
                                 Forall (fun s => isZero s = true) channel) buffer) as Hbuf
    by (repeat constructor; apply Forall_replicate; reflexivity).
  do 7 (split; [assumption |]).
  exact (@process_silent_block saturatingLibm d r buffer 64
           Hready Hv Hc Hring Hpos Hch Hbuf).
Defined.

(** ** Pitch ratios stay in the range of the shifter *)

Lemma SFcompare_antisym (x y : f32) :
  SFcompare y x = option_map CompOpp (SFcompare x y).
Proof.
  destruct x as [sx | sx | | sx mx ex], y as [sy | sy | | sy my ey];
    try done; try (by destruct sx); try (by destruct sy); try (by destruct sx, sy).
  pose proof (Pos.compare_cont_antisym mx my Eq) as Hm. simpl in Hm.
  pose proof (Z.compare_antisym ex ey) as He.
  unfold SFcompare, option_map.
  destruct sx, sy; try done; f_equal; rewrite He;
    destruct (ex ?= ey); simpl; try done.
  by rewrite <- Hm, CompOpp_involutive.
Qed.

Lemma flt_irrefl (x : f32) : flt x x = false.
Proof.
  unfold flt, SFltb. pose proof (SFcompare_antisym x x) as H.
  destruct (SFcompare x x) as [[] |]; simpl in H; done.
Qed.

Lemma fle_refl (x : f32) : is_nan x = false -> fle x x = true.
Proof.
  unfold fle, SFleb. intros Hn. pose proof (SFcompare_antisym x x) as H.
  destruct (SFcompare x x) as [[] |] eqn:Hc; simpl in H; try done.
  by destruct x as [| | | []].
Qed.

Lemma fle_flt_false (x y : f32) : fle x y = true -> flt y x = false.
Proof.
  unfold fle, flt, SFleb, SFltb. rewrite (SFcompare_antisym x y).
  by destruct (SFcompare x y) as [[] |].
Qed.

Lemma flt_false_fle (x y : f32) :
  is_nan x = false -> is_nan y = false -> flt x y = false -> fle y x = true.
Proof.
  unfold fle, flt, SFleb, SFltb. intros Hx Hy. rewrite (SFcompare_antisym x y).
  destruct (SFcompare x y) as [[] |] eqn:Hc; simpl; try done.
  destruct x, y; done.
Qed.

(** [std::clamp] between two numbers in order: the result is never below
    the lower nor above the upper bound, and lies between them unless the
    value is a NaN, which the clamp returns as it is. *)
Lemma fclamp_range (v lo hi : f32) :
  is_nan lo = false -> is_nan hi = false -> fle lo hi = true ->
  flt (fclamp v lo hi) lo = false /\
  flt hi (fclamp v lo hi) = false /\
  (is_nan v = false ->
   fle lo (fclamp v lo hi) = true /\ fle (fclamp v lo hi) hi = true).
Proof.
  intros Hlo Hhi Hle. unfold fclamp.
  destruct (flt v lo) eqn:Hvlo.
  - repeat split; [apply flt_irrefl | by apply fle_flt_false | by apply fle_refl | done].
  - destruct (flt hi v) eqn:Hhiv.
    + repeat split; [by apply fle_flt_false | apply flt_irrefl | done | by apply fle_refl].
    + repeat split; [done | done | |]; by apply flt_false_fle.
Qed.

Lemma fclamp_withinShiftRange (v : f32) :
  withinShiftRange
    (fclamp v DSPConfig.minPitchShiftRatio DSPConfig.maxPitchShiftRatio).
Proof.
  destruct (fclamp_range v DSPConfig.minPitchShiftRatio DSPConfig.maxPitchShiftRatio)
    as (Hlo & Hhi & Hnum); [done | done | done |].
  split; [exact Hlo | split; [exact Hhi |]].
  intros Hn. apply Hnum. unfold fclamp in Hn. by destruct v.
Qed.

Lemma one_withinShiftRange : withinShiftRange one.
Proof. split; [done | split; [done | by intros _]]. Qed.

(** X19.  Every ratio the code hands to a pitch shifter is inside the
    range of the shifter: the target ratio of the lead, the ratio of a
    harmony voice, the ratio [setPitchRatio] stores and the combined
    formant ratio are never below 0.5 nor above 2, and lie between the
    two whenever they are numbers, whatever the detector, the mapper and
    the math library return. *)
Theorem pitch_ratios_within_shift_range `{Libm} (detector : PitchDetector.t)
    (mapper : PitchMapper.t) (hv : HarmonyVoice.t)
    (pitchRatio pitchCompensationRatio formantShiftSemitones : f32) :
  withinShiftRange (LeadCorrection.calculateTargetPitchRatio detector mapper) /\
  withinShiftRange (HarmonyVoice.calculateHarmonyPitchRatio hv detector mapper).1 /\
  withinShiftRange (PitchShifter.setPitchRatio pitchRatio) /\
  withinShiftRange
    (FormantProcessor.calculateEffectiveShiftRatio
       pitchCompensationRatio formantShiftSemitones).
Proof.
  repeat split_and.
  - unfold LeadCorrection.calculateTargetPitchRatio.
    destruct (negb _); [apply one_withinShiftRange |].
    destruct (_ || _); [apply one_withinShiftRange | apply fclamp_withinShiftRange].
  - unfold HarmonyVoice.calculateHarmonyPitchRatio.
    destruct (negb _); [apply one_withinShiftRange |].
    destruct (fle _ _); [apply one_withinShiftRange |].
    destruct (fle _ _); [apply one_withinShiftRange | apply fclamp_withinShiftRange].
  - apply fclamp_withinShiftRange.
  - apply fclamp_withinShiftRange.
Qed.

(** ** Unvoiced blocks leave the ratio at one *)

Lemma smoothing_step_at_unity (coeff : f32) :
  is_finite coeff = true -> fadd one (fmul coeff (fsub one one)) = one.
Proof. by destruct coeff as [[] | | | [] m e]. Qed.

Lemma smoothing_loop_at_unity (coeff : f32) (n : nat) (lo : Z) :
  is_finite coeff = true ->
  for_range n lo (fun _ cur => fadd cur (fmul coeff (fsub one cur))) one = one.
Proof.
  intros Hc. revert lo. induction n as [| n IH]; intros lo; [done |].
  cbn [for_range]. rewrite smoothing_step_at_unity by done. apply IH.
Qed.

(** X20.  From a ratio of exactly 1 (the state after [reset]) a block
    with an unvoiced detector leaves the target and the smoothed ratio of
    the lead corrector and of an enabled harmony voice at exactly 1,
    whatever the length of the block and the finite smoothing
    coefficient: the identity behaviour on unvoiced input is stable from
    block to block. *)
Theorem unvoiced_blocks_keep_unity_ratio `{Libm} (lc : LeadCorrection.t)
    (hv : HarmonyVoice.t) (detector : PitchDetector.t) (mapper : PitchMapper.t)
    (numSamples : Z) :
  PitchDetector.isVoiced detector = false ->
  is_finite (LeadCorrection.pitchRatioSmoothingCoeff lc) = true ->
  is_finite (HarmonyVoice.pitchRatioSmoothing hv) = true ->
  HarmonyVoice.enabled hv = true ->
  HarmonyVoice.currentPitchRatio hv = one ->
  let lc' := LeadCorrection.processRatio (LeadCorrection.reset lc) detector mapper
               numSamples in
  LeadCorrection.currentPitchRatio (LeadCorrection.reset lc) = one /\
  LeadCorrection.targetPitchRatio lc' = one /\
  LeadCorrection.currentPitchRatio lc' = one /\
  LeadCorrection.pitchRatioSmoothingCoeff lc' = LeadCorrection.pitchRatioSmoothingCoeff lc /\
  exists hv',
    HarmonyVoice.processRatio hv detector mapper numSamples = Some hv' /\
    HarmonyVoice.targetPitchRatio hv' = one /\
    HarmonyVoice.currentPitchRatio hv' = one /\
    HarmonyVoice.pitchRatioSmoothing hv' = HarmonyVoice.pitchRatioSmoothing hv /\
    HarmonyVoice.enabled hv' = true.
Proof.
  intros Hu Hlc Hhv Hen Hcur lc'.
  assert (LeadCorrection.calculateTargetPitchRatio detector mapper = one) as Hlead
    by (unfold LeadCorrection.calculateTargetPitchRatio; by rewrite Hu).
  assert (HarmonyVoice.calculateHarmonyPitchRatio hv detector mapper = (one, hv))
    as Hharm by (unfold HarmonyVoice.calculateHarmonyPitchRatio; by rewrite Hu).
  split; [done |].
  unfold lc', LeadCorrection.processRatio.
  rewrite Hlead, Hu, andb_false_r.
  cbn [LeadCorrection.targetPitchRatio LeadCorrection.currentPitchRatio
       LeadCorrection.pitchRatioSmoothingCoeff LeadCorrection.reset].
  unfold for_loop. rewrite smoothing_loop_at_unity by done.
  repeat split.
  unfold HarmonyVoice.processRatio. rewrite Hen. cbn [negb andb].
  rewrite Hharm. eexists. split; [done |].
  cbn [HarmonyVoice.targetPitchRatio HarmonyVoice.currentPitchRatio
       HarmonyVoice.pitchRatioSmoothing HarmonyVoice.enabled HarmonyVoice.set_ratios].
  rewrite Hcur. unfold for_loop. rewrite smoothing_loop_at_unity by done.
  done.
Qed.

Lemma unvoiced_blocks_keep_unity_ratio_witness :
  let detector := preparedDetector 48000 Soprano in
  let mapper := mapperFor D Major 9 in
  let lc := leadCorrector (of_int 30) in
  let hv := diatonicVoice 9 in
  let lc' := @LeadCorrection.processRatio saturatingLibm (LeadCorrection.reset lc)
               detector mapper 480 in
  PitchDetector.isVoiced detector = false /\
  is_finite (LeadCorrection.pitchRatioSmoothingCoeff lc) = true /\
  is_finite (HarmonyVoice.pitchRatioSmoothing hv) = true /\
  HarmonyVoice.enabled hv = true /\
  HarmonyVoice.currentPitchRatio hv = one /\
  LeadCorrection.currentPitchRatio (LeadCorrection.reset lc) = one /\
  LeadCorrection.targetPitchRatio lc' = one /\
  LeadCorrection.currentPitchRatio lc' = one /\
  LeadCorrection.pitchRatioSmoothingCoeff lc' = LeadCorrection.pitchRatioSmoothingCoeff lc /\
  exists hv',
    @HarmonyVoice.processRatio saturatingLibm hv detector mapper 480 = Some hv' /\
    HarmonyVoice.targetPitchRatio hv' = one /\
    HarmonyVoice.currentPitchRatio hv' = one /\
    HarmonyVoice.pitchRatioSmoothing hv' = HarmonyVoice.pitchRatioSmoothing hv /\
    HarmonyVoice.enabled hv' = true.
Proof.
  intros detector mapper lc hv lc'.
  assert (PitchDetector.isVoiced detector = false) as Hu by reflexivity.
  do 5 (split; [first [exact Hu | reflexivity] |]).
  exact (@unvoiced_blocks_keep_unity_ratio saturatingLibm lc hv detector mapper 480
           Hu eq_refl eq_refl eq_refl eq_refl).
Defined.

(** ** The grain search of the shifter *)

Lemma best_position_range (score : Z -> f32) (n : nat) (lo : Z) (best : Z * f32) :
  (for_range n lo
     (fun pos (best : Z * f32) =>
        if fgt (score pos) best.2 then (pos, score pos) else best) best).1 = best.1 \/
  lo <= (for_range n lo
           (fun pos (best : Z * f32) =>
              if fgt (score pos) best.2 then (pos, score pos) else best) best).1
     < lo + Z.of_nat n.
Proof.
  revert lo best. induction n as [| n IH]; intros lo best; [by left |].
  cbn [for_range].
  destruct (IH (lo + 1) (if fgt (score lo) best.2 then (lo, score lo) else best))
    as [-> | Hin].
  - destruct (fgt _ _); [right; simpl; lia | by left].
  - right. lia.
Qed.

Lemma best_position_ties (n : nat) (lo : Z) (best : Z * f32) :
  fgt zero best.2 = false ->
  for_range n lo
    (fun pos (best : Z * f32) => if fgt zero best.2 then (pos, zero) else best) best
  = best.
Proof.
  revert lo best. induction n as [| n IH]; intros lo best Hb; [done |].
  cbn [for_range]. rewrite Hb. by apply IH.
Qed.

(** X21.  The grain search returns a position within [searchRange] of
    the nominal position, and the nominal position itself for the first
    grain.  Against a silent output buffer every candidate scores 0, and
    the search settles on the first candidate, [searchRange] before the
    nominal position. *)
Theorem findBestGrainPosition_in_search_range (grainBuffer outputBuffer : list f32)
    (windowSize outputWritePos nominalPos searchRange : Z) :
  let bestPos :=
    PitchShifter.findBestGrainPosition grainBuffer outputBuffer windowSize
      outputWritePos nominalPos searchRange in
  0 <= searchRange ->
  nominalPos - searchRange <= bestPos <= nominalPos + searchRange /\
  (outputWritePos = windowSize -> bestPos = nominalPos) /\
  (outputWritePos <> windowSize ->
   Forall (fun s => isZero s = true) outputBuffer ->
   bestPos = nominalPos - searchRange).
Proof.
  intros bestPos Hrange. subst bestPos. unfold PitchShifter.findBestGrainPosition.
  destruct (Z.eqb_spec outputWritePos windowSize) as [Heq | Hne].
  - split; [lia | split; [done | by intros Hne]].
  - unfold for_loop.
    pose proof (best_position_range
                  (PitchShifter.correlationScore grainBuffer outputBuffer windowSize)
                  (Z.to_nat (nominalPos + searchRange + 1 - (nominalPos - searchRange)))
                  (nominalPos - searchRange) (nominalPos, fneg one)) as Hin.
    cbn [fst] in Hin.
    split; [lia | split; [done |]].
    intros _ Hsilent.
    replace (Z.to_nat (nominalPos + searchRange + 1 - (nominalPos - searchRange)))
      with (S (Z.to_nat (2 * searchRange))) by lia.
    cbn [for_range].
    rewrite (correlationScore_silent_output _ _ _ _ Hsilent).
    change (fgt zero (nominalPos, fneg one).2) with true. cbn iota.
    assert (forall n lo (best : Z * f32),
              for_range n lo
                (fun pos (best : Z * f32) =>
                   if fgt (PitchShifter.correlationScore grainBuffer outputBuffer
                             windowSize pos) best.2
                   then (pos, PitchShifter.correlationScore grainBuffer outputBuffer
                                windowSize pos)
                   else best) best
              = for_range n lo
                  (fun pos (best : Z * f32) =>
                     if fgt zero best.2 then (pos, zero) else best) best) as Hscore.
    { induction n as [| n IH]; intros lo best; [done |].
      cbn [for_range].
      rewrite (correlationScore_silent_output _ _ _ _ Hsilent). apply IH. }
    rewrite Hscore, best_position_ties; done.
Qed.

Lemma findBestGrainPosition_in_search_range_witness :
  let grainBuffer := [one; half; fneg one; zero] in
  let outputBuffer := [half; half; zero; fneg half; one; zero; zero; zero] in
  let bestPos :=
    PitchShifter.findBestGrainPosition grainBuffer outputBuffer 4 6 6 2 in
  0 <= 2 /\
  6 - 2 <= bestPos <= 6 + 2 /\
  (6 = 4 -> bestPos = 6) /\
  (6 <> 4 ->
   Forall (fun s => isZero s = true) outputBuffer ->
   bestPos = 6 - 2).
Proof.
  intros grainBuffer outputBuffer bestPos.
  assert (0 <= 2) as Hrange by lia.
  split; [exact Hrange |].
  exact (findBestGrainPosition_in_search_range grainBuffer outputBuffer 4 6 6 2 Hrange).
Defined.

(** ** Overlap-add into the output ring *)

Lemma wrapped_position (a n : Z) :
  0 < n ->
  (if Z.rem a n <? 0 then Z.rem a n + n else Z.rem a n) = a mod n.
Proof.
  intros Hn.
  pose proof (Z.quot_rem' a n) as Hqr.
  pose proof (Z.rem_bound_abs a n ltac:(lia)) as Habs.
  destruct (Z.ltb_spec (Z.rem a n) 0).
  - apply (Z.mod_unique_pos a n (Z.quot a n - 1)); lia.
  - apply (Z.mod_unique_pos a n (Z.quot a n)); lia.
Qed.

Lemma overlap_add_loop (grain : list f32) (size startPos : Z) (n : nat) (lo : Z)
    (out : list f32) :
  Z.of_nat (length out) = size -> Z.of_nat n <= size -> 0 < size ->
  let out' :=
    for_range n lo
      (fun i out =>
         let writePos := Z.rem (startPos + i) size in
         let writePos := if writePos <? 0 then writePos + size else writePos in
         wr out writePos (fadd (rd out writePos) (rd grain i)))
      out in
  length out' = length out /\
  (forall k, 0 <= k < Z.of_nat n ->
     rd out' ((startPos + lo + k) mod size)
       = fadd (rd out ((startPos + lo + k) mod size)) (rd grain (lo + k))) /\
  (forall j, (forall k, 0 <= k < Z.of_nat n -> j <> (startPos + lo + k) mod size) ->
             rd out' j = rd out j).
Proof.
  revert lo out. induction n as [| n IH]; intros lo out Hlen Hn Hsize out'.
  - subst out'. simpl. split; [done | split; [intros k Hk; lia | done]].
  - subst out'. cbn [for_range]. cbv zeta. rewrite wrapped_position by done.
    set (p := (startPos + lo) mod size).
    set (out1 := wr out p (fadd (rd out p) (rd grain lo))).
    pose proof (Z.mod_pos_bound (startPos + lo) size Hsize) as Hp. fold p in Hp.
    destruct (IH (lo + 1) out1) as (Hl & Hread & Hframe);
      [unfold out1; by rewrite length_wr | lia | done |].
    cbv zeta in Hl, Hread, Hframe.
    assert (forall k, 1 <= k < size -> (startPos + lo + k) mod size <> p) as Hother.
    { intros k Hk. unfold p.
      rewrite <- Zplus_mod_idemp_l. fold p. by apply ring_position_distinct. }
    repeat split.
    + rewrite Hl. unfold out1. apply length_wr.
    + intros k Hk. destruct (Z.eq_dec k 0) as [-> | Hk0].
      * rewrite !Z.add_0_r. fold p. rewrite Hframe.
        -- unfold out1. apply rd_wr_same. lia.
        -- intros k' Hk'. replace (startPos + (lo + 1) + k') with (startPos + lo + (1 + k')) by lia.
           intros Heq. symmetry in Heq. revert Heq. apply Hother. lia.
      * replace (startPos + lo + k) with (startPos + (lo + 1) + (k - 1)) by lia.
        rewrite Hread by lia.
        replace (lo + 1 + (k - 1)) with (lo + k) by lia. f_equal.
        unfold out1. apply rd_wr_other.
        replace (startPos + (lo + 1) + (k - 1)) with (startPos + lo + k) by lia.
        intros Heq. symmetry in Heq. revert Heq. apply Hother. lia.
    + intros j Hj. rewrite Hframe.
      * unfold out1. apply rd_wr_other. intros Hpj.
        apply (Hj 0); [lia |]. rewrite Z.add_0_r. by fold p.
      * intros k' Hk'. replace (startPos + (lo + 1) + k') with (startPos + lo + (1 + k')) by lia.
        apply Hj. lia.
Qed.

(** X22.  The overlap-add puts every sample of the grain into the output
    ring exactly once: cell [(startPos + i) mod size] gains grain sample
    [i], for a start position of either sign and across the end of the
    ring, and every other cell keeps its value. *)
Theorem addGrainToOutput_adds_each_sample_once (grainBuffer outputBuffer : list f32)
    (windowSize startPos : Z) :
  let size := Z.of_nat (length outputBuffer) in
  let out := PitchShifter.addGrainToOutput grainBuffer outputBuffer windowSize startPos in
  0 <= windowSize <= size -> 0 < size ->
  length out = length outputBuffer /\
  (forall i, 0 <= i < windowSize ->
     rd out ((startPos + i) mod size)
       = fadd (rd outputBuffer ((startPos + i) mod size)) (rd grainBuffer i)) /\
  (forall j, (forall i, 0 <= i < windowSize -> j <> (startPos + i) mod size) ->
             rd out j = rd outputBuffer j).
Proof.
  intros size out Hw Hsize. subst out.
  unfold PitchShifter.addGrainToOutput, for_loop. fold size.
  destruct (overlap_add_loop grainBuffer size startPos
              (Z.to_nat (windowSize - 0)) 0 outputBuffer eq_refl ltac:(lia) Hsize)
    as (Hl & Hread & Hframe).
  cbv zeta in Hl, Hread, Hframe.
  repeat split.
  - exact Hl.
  - intros i Hi. specialize (Hread i ltac:(lia)).
    by rewrite !Z.add_0_r, Z.add_0_l in Hread.
  - intros j Hj. apply Hframe. intros k Hk. rewrite Z.add_0_r. apply Hj. lia.
Qed.

Lemma addGrainToOutput_adds_each_sample_once_witness :
  let grainBuffer := [one; two; half] in
  let outputBuffer := [zero; one; zero; zero; half] in
  let size := Z.of_nat (length outputBuffer) in
  let out := PitchShifter.addGrainToOutput grainBuffer outputBuffer 3 (-2) in
  0 <= 3 <= size /\ 0 < size /\
  length out = length outputBuffer /\
  (forall i, 0 <= i < 3 ->
     rd out ((-2 + i) mod size)
       = fadd (rd outputBuffer ((-2 + i) mod size)) (rd grainBuffer i)) /\
  (forall j, (forall i, 0 <= i < 3 -> j <> (-2 + i) mod size) ->
             rd out j = rd outputBuffer j).
Proof.
  intros grainBuffer outputBuffer size out.
  assert (0 <= 3 <= size) as Hw by (unfold size; simpl; lia).
  assert (0 < size) as Hsize by (unfold size; simpl; lia).
  split; [exact Hw | split; [exact Hsize |]].
  exact (addGrainToOutput_adds_each_sample_once grainBuffer outputBuffer 3 (-2) Hw Hsize).
Defined.

(** ** Wrapping an index into a ring of a power of two *)

(** X23.  For a buffer size that is a power of two, [wrapIndex] is the
    remainder of the index in [0, bufferSize), for a negative index too;
    it agrees with the [%] of the language, which the comment of the
    function names, on every index that is not negative. *)
Theorem wrapIndex_power_of_two (index k : Z) :
  0 <= k ->
  NovaTuneUtils.wrapIndex index (2 ^ k) = index mod 2 ^ k /\
  0 <= NovaTuneUtils.wrapIndex index (2 ^ k) < 2 ^ k /\
  (0 <= index -> NovaTuneUtils.wrapIndex index (2 ^ k) = Z.rem index (2 ^ k)).
Proof.
  intros Hk. unfold NovaTuneUtils.wrapIndex.
  assert (2 ^ k - 1 = Z.ones k) as -> by (rewrite Z.ones_equiv; lia).
  rewrite Z.land_ones by done.
  pose proof (Z.pow_pos_nonneg 2 k ltac:(lia) Hk) as Hpos.
  repeat split; try apply Z.mod_pos_bound; try done.
  intros Hi. by rewrite Z.rem_mod_nonneg by lia.
Qed.

Lemma wrapIndex_power_of_two_witness :
  0 <= 13 /\
  NovaTuneUtils.wrapIndex (-3) (2 ^ 13) = (-3) mod 2 ^ 13 /\
  0 <= NovaTuneUtils.wrapIndex (-3) (2 ^ 13) < 2 ^ 13 /\
  (0 <= -3 -> NovaTuneUtils.wrapIndex (-3) (2 ^ 13) = Z.rem (-3) (2 ^ 13)).
Proof.
  assert (0 <= 13) as Hk by lia.
  split; [exact Hk |].
  exact (wrapIndex_power_of_two (-3) 13 Hk).
Defined.
